(** * Security-group reconciliation of cluster-api-provider-openstack

    A shallow embedding of [pkg/cloud/services/networking/securitygroups.go]
    and the properties of its diff-apply reconciler, its desired-state
    generator, its observed-state fetcher and its group lifecycle code;
    and of the hand-written conversions of package [v1alpha5], the file
    read with it, that do not go through generated code.

    Go values are modelled as follows.
    - [string] is [string], [int] is [Z] (no arithmetic is done on ports).
    - A pointer [*T] is [option T]; dereferencing [None] is the run-time
      panic of Go, the [Fault] of [outcome].
    - A slice is a [list]; a [map[string]T] is a [gmap string T].
    - An [error] is its message; the [nil] error is [None].
    - The networking client is an interface: a type class over the state
      of the provider.  Every call made through it is logged, with its
      reply, in the order it is issued. *)

From stdpp Require Import gmap strings list.
From Stdlib Require Import ZArith.

Local Open Scope string_scope.
Local Open Scope list_scope.
Local Open Scope stdpp_scope.

(** ** Go run-time: panics and errors *)

(** The result of running Go code that may panic. *)
Inductive outcome (A : Type) : Type :=
  | Done (a : A)
  | Fault.
Arguments Done {A} a.
Arguments Fault {A}.

Global Instance outcome_ret : MRet outcome := fun A a => Done a.
Global Instance outcome_bind : MBind outcome := fun A B f m =>
  match m with
  | Done a => f a
  | Fault => Fault
  end.

(** [*p] *)
Definition deref {A : Type} (p : option A) : outcome A :=
  match p with
  | Some a => Done a
  | None => Fault
  end.

(** [a && b]: the right operand is evaluated only when the left one is true. *)
Definition andalso (a b : outcome bool) : outcome bool :=
  match a with
  | Done true => b
  | Done false => Done false
  | Fault => Fault
  end.
Infix "&&&" := andalso (at level 40, left associativity).

Definition error : Type := string.

(** ** Data model *)

Definition secGroupPrefix : string := "k8s".
Definition controlPlaneSuffix : string := "controlplane".
Definition workerSuffix : string := "worker".
Definition bastionSuffix : string := "bastion".
Definition allNodesSuffix : string := "allNodes".
Definition remoteGroupIDSelf : string := "self".

(** [resolvedSecurityGroupRuleSpec]: a desired rule. *)
Record resolvedSecurityGroupRuleSpec : Type := {
  Description : string;
  Direction : string;
  EtherType : string;
  PortRangeMin : Z;
  PortRangeMax : Z;
  Protocol : string;
  RemoteGroupID : string;
  RemoteIPPrefix : string
}.

(** [securityGroupSpec]: a desired group. *)
Record securityGroupSpec : Type := {
  Name : string;
  Rules : list resolvedSecurityGroupRuleSpec
}.

(** [infrav1.SecurityGroupRuleStatus]: an observed rule.  Its declaration
    is not part of this package; the fields and their pointer types are
    those the package reads and writes. *)
Record SecurityGroupRuleStatus : Type := {
  rs_ID : string;
  rs_Description : option string;
  rs_Direction : string;
  rs_EtherType : option string;
  rs_PortRangeMin : option Z;
  rs_PortRangeMax : option Z;
  rs_Protocol : option string;
  rs_RemoteGroupID : option string;
  rs_RemoteIPPrefix : option string
}.

(** [infrav1.SecurityGroupStatus]: an observed group. *)
Record SecurityGroupStatus : Type := {
  gs_ID : string;
  gs_Name : string;
  gs_Rules : list SecurityGroupRuleStatus
}.

(** [infrav1.SecurityGroupStatus{}] *)
Definition emptyStatus : SecurityGroupStatus :=
  {| gs_ID := ""; gs_Name := ""; gs_Rules := [] |}.

(** [infrav1.SecurityGroupRuleStatus{}] *)
Definition emptyRuleStatus : SecurityGroupRuleStatus :=
  {| rs_ID := ""; rs_Description := None; rs_Direction := "";
     rs_EtherType := None; rs_PortRangeMin := None; rs_PortRangeMax := None;
     rs_Protocol := None; rs_RemoteGroupID := None; rs_RemoteIPPrefix := None |}.

(** [infrav1.SecurityGroupRuleSpec]: an all-nodes rule template of the
    cluster specification.  [ManagedSecurityGroupName] is a string type and
    its [String()] is the identity. *)
Record SecurityGroupRuleSpec : Type := {
  t_Description : option string;
  t_Direction : string;
  t_EtherType : option string;
  t_PortRangeMin : option Z;
  t_PortRangeMax : option Z;
  t_Protocol : option string;
  t_RemoteGroupID : option string;
  t_RemoteIPPrefix : option string;
  t_RemoteManagedGroups : list string
}.

(** [rules.SecGroupRule]: a rule on the wire. *)
Record SecGroupRule : Type := {
  os_ID : string;
  os_Direction : string;
  os_Description : string;
  os_EtherType : string;
  os_SecGroupID : string;
  os_PortRangeMin : Z;
  os_PortRangeMax : Z;
  os_Protocol : string;
  os_RemoteGroupID : string;
  os_RemoteIPPrefix : string
}.

(** [groups.SecGroup]: a group on the wire. *)
Record SecGroup : Type := {
  sg_ID : string;
  sg_Name : string;
  sg_Description : string;
  sg_Rules : list SecGroupRule
}.

(** [rules.CreateOpts] *)
Record RuleCreateOpts : Type := {
  co_Description : string;
  co_Direction : string;
  co_PortRangeMin : Z;
  co_PortRangeMax : Z;
  co_Protocol : string;
  co_EtherType : string;
  co_RemoteGroupID : string;
  co_RemoteIPPrefix : string;
  co_SecGroupID : string
}.

(** [groups.CreateOpts] *)
Record GroupCreateOpts : Type := {
  gco_Name : string;
  gco_Description : string
}.

(** [groups.ListOpts] *)
Record ListOpts : Type := {
  lo_Name : string
}.

(** ** The rule value model *)

Definition eqString (x : string) (p : option string) : outcome bool :=
  y ← deref p; Done (String.eqb x y).

Definition eqInt (x : Z) (p : option Z) : outcome bool :=
  y ← deref p; Done (Z.eqb x y).

(** [func (r resolvedSecurityGroupRuleSpec) Matches(other)] *)
Definition Matches (r : resolvedSecurityGroupRuleSpec)
    (other : SecurityGroupRuleStatus) : outcome bool :=
  eqString (Description r) (rs_Description other) &&&
  Done (String.eqb (Direction r) (rs_Direction other)) &&&
  eqString (EtherType r) (rs_EtherType other) &&&
  eqInt (PortRangeMin r) (rs_PortRangeMin other) &&&
  eqInt (PortRangeMax r) (rs_PortRangeMax other) &&&
  eqString (Protocol r) (rs_Protocol other) &&&
  eqString (RemoteGroupID r) (rs_RemoteGroupID other) &&&
  eqString (RemoteIPPrefix r) (rs_RemoteIPPrefix other).

(** [r := desiredRule; if r.RemoteGroupID == remoteGroupIDSelf
    { r.RemoteGroupID = observed.ID }] *)
Definition resolveSelf (observedID : string)
    (desiredRule : resolvedSecurityGroupRuleSpec) : resolvedSecurityGroupRuleSpec :=
  if String.eqb (RemoteGroupID desiredRule) remoteGroupIDSelf then
    {| Description := Description desiredRule;
       Direction := Direction desiredRule;
       EtherType := EtherType desiredRule;
       PortRangeMin := PortRangeMin desiredRule;
       PortRangeMax := PortRangeMax desiredRule;
       Protocol := Protocol desiredRule;
       RemoteGroupID := observedID;
       RemoteIPPrefix := RemoteIPPrefix desiredRule |}
  else desiredRule.

(** ** Conversion from the wire format *)

(** [convertOSSecGroupRuleToConfigSecGroupRule] *)
Definition convertOSSecGroupRuleToConfigSecGroupRule
    (osSecGroupRule : SecGroupRule) : SecurityGroupRuleStatus :=
  {| rs_ID := os_ID osSecGroupRule;
     rs_Direction := os_Direction osSecGroupRule;
     rs_Description := Some (os_Description osSecGroupRule);
     rs_EtherType := Some (os_EtherType osSecGroupRule);
     rs_PortRangeMin := Some (os_PortRangeMin osSecGroupRule);
     rs_PortRangeMax := Some (os_PortRangeMax osSecGroupRule);
     rs_Protocol := Some (os_Protocol osSecGroupRule);
     rs_RemoteGroupID := Some (os_RemoteGroupID osSecGroupRule);
     rs_RemoteIPPrefix := Some (os_RemoteIPPrefix osSecGroupRule) |}.

(** [convertOSSecGroupToConfigSecGroup]; the pointer it returns is never nil. *)
Definition convertOSSecGroupToConfigSecGroup
    (osSecGroup : SecGroup) : option SecurityGroupStatus :=
  Some {| gs_ID := sg_ID osSecGroup;
          gs_Name := sg_Name osSecGroup;
          gs_Rules := map convertOSSecGroupRuleToConfigSecGroupRule (sg_Rules osSecGroup) |}.

(** ** The two diff loops of [reconcileGroupRules] *)

(** The inner loop of the first pass: is [observedRule] matched by some
    desired rule?  The answer is the negation of [deleteRule]. *)
Fixpoint matchedByDesired (observedID : string)
    (desiredRules : list resolvedSecurityGroupRuleSpec)
    (observedRule : SecurityGroupRuleStatus) : outcome bool :=
  match desiredRules with
  | [] => Done false
  | desiredRule :: rest =>
      m ← Matches (resolveSelf observedID desiredRule) observedRule;
      if m : bool then Done true
      else matchedByDesired observedID rest observedRule
  end.

(** The first pass: [rulesToDelete], observed minus desired. *)
Fixpoint rulesToDeleteOf (observedID : string)
    (desiredRules : list resolvedSecurityGroupRuleSpec)
    (observedRules : list SecurityGroupRuleStatus) : outcome (list string) :=
  match observedRules with
  | [] => Done []
  | observedRule :: rest =>
      keep ← matchedByDesired observedID desiredRules observedRule;
      tl ← rulesToDeleteOf observedID desiredRules rest;
      Done (if keep : bool then tl else rs_ID observedRule :: tl)
  end.

(** The inner loop of the second pass: the first observed rule that the
    resolved desired rule [r] matches, if any. *)
Fixpoint firstMatch (r : resolvedSecurityGroupRuleSpec)
    (observedRules : list SecurityGroupRuleStatus)
    : outcome (option SecurityGroupRuleStatus) :=
  match observedRules with
  | [] => Done None
  | observedRule :: rest =>
      m ← Matches r observedRule;
      if m : bool then Done (Some observedRule) else firstMatch r rest
  end.

(** The second pass: [rulesToCreate], desired minus observed, and the
    [reconciledRules] carried over from the observed group. *)
Fixpoint rulesToCreateOf (observedID : string)
    (observedRules : list SecurityGroupRuleStatus)
    (desiredRules : list resolvedSecurityGroupRuleSpec)
    : outcome (list resolvedSecurityGroupRuleSpec * list SecurityGroupRuleStatus) :=
  match desiredRules with
  | [] => Done ([], [])
  | desiredRule :: rest =>
      found ← firstMatch (resolveSelf observedID desiredRule) observedRules;
      tl ← rulesToCreateOf observedID observedRules rest;
      Done (match found with
            | Some observedRule => (tl.1, observedRule :: tl.2)
            | None => (desiredRule :: tl.1, tl.2)
            end)
  end.

(** ** Expansion of the all-nodes rule templates *)

(** The loop of [validateRemoteManagedGroups]. *)
Fixpoint validateLoop (remoteManagedGroups : gmap string string)
    (ruleRemoteManagedGroups : list string) : option error :=
  match ruleRemoteManagedGroups with
  | [] => None
  | group :: rest =>
      match remoteManagedGroups !! group with
      | None =>
          Some ("remoteManagedGroups: " +:+ group +:+
                " is not a valid remote managed security group")
      | Some _ => validateLoop remoteManagedGroups rest
      end
  end.

(** [validateRemoteManagedGroups] *)
Definition validateRemoteManagedGroups (remoteManagedGroups : gmap string string)
    (ruleRemoteManagedGroups : list string) : option error :=
  if (length ruleRemoteManagedGroups =? 0)%nat then
    Some "remoteManagedGroups is required"
  else validateLoop remoteManagedGroups ruleRemoteManagedGroups.

(** [rc := r; rc.RemoteGroupID = ...] *)
Definition withRemoteGroupID (r : resolvedSecurityGroupRuleSpec) (id : string)
    : resolvedSecurityGroupRuleSpec :=
  {| Description := Description r;
     Direction := Direction r;
     EtherType := EtherType r;
     PortRangeMin := PortRangeMin r;
     PortRangeMax := PortRangeMax r;
     Protocol := Protocol r;
     RemoteGroupID := id;
     RemoteIPPrefix := RemoteIPPrefix r |}.

(** The inner loop of [getAllNodesRules]: one copy of [r] per role name;
    indexing the map with an absent key gives the empty string. *)
Fixpoint expandLoop (remoteManagedGroups : gmap string string)
    (r : resolvedSecurityGroupRuleSpec) (groups : list string)
    (rules : list resolvedSecurityGroupRuleSpec)
    : list resolvedSecurityGroupRuleSpec :=
  match groups with
  | [] => rules
  | rg :: rest =>
      let rc := withRemoteGroupID r (default "" (remoteManagedGroups !! rg)) in
      expandLoop remoteManagedGroups r rest (rules ++ [rc])
  end.

(** The rule built from a template before its remote group is filled in. *)
Definition templateRule (rule : SecurityGroupRuleSpec) : resolvedSecurityGroupRuleSpec :=
  {| Direction := t_Direction rule;
     Description := default "" (t_Description rule);
     EtherType := default "" (t_EtherType rule);
     PortRangeMin := default 0%Z (t_PortRangeMin rule);
     PortRangeMax := default 0%Z (t_PortRangeMax rule);
     Protocol := default "" (t_Protocol rule);
     RemoteGroupID := default "" (t_RemoteGroupID rule);
     RemoteIPPrefix := default "" (t_RemoteIPPrefix rule) |}.

(** The outer loop of [getAllNodesRules], with the slice [rules] built so far. *)
Fixpoint getAllNodesRulesLoop (remoteManagedGroups : gmap string string)
    (allNodesSecurityGroupRules : list SecurityGroupRuleSpec)
    (rules : list resolvedSecurityGroupRuleSpec)
    : list resolvedSecurityGroupRuleSpec * option error :=
  match allNodesSecurityGroupRules with
  | [] => (rules, None)
  | rule :: rest =>
      match validateRemoteManagedGroups remoteManagedGroups (t_RemoteManagedGroups rule) with
      | Some err => ([], Some err)
      | None =>
          let r := templateRule rule in
          if (0 <? length (t_RemoteManagedGroups rule))%nat then
            match t_RemoteGroupID rule with
            | Some _ =>
                ([], Some "remoteGroupID must not be set when remoteManagedGroups is set")
            | None =>
                getAllNodesRulesLoop remoteManagedGroups rest
                  (expandLoop remoteManagedGroups r (t_RemoteManagedGroups rule) rules)
            end
          else getAllNodesRulesLoop remoteManagedGroups rest (rules ++ [r])
      end
  end.

(** [getAllNodesRules] *)
Definition getAllNodesRules (remoteManagedGroups : gmap string string)
    (allNodesSecurityGroupRules : list SecurityGroupRuleSpec)
    : list resolvedSecurityGroupRuleSpec * option error :=
  getAllNodesRulesLoop remoteManagedGroups allNodesSecurityGroupRules [].

(** ** Group names *)

Definition groupName (clusterName suffix : string) : string :=
  secGroupPrefix +:+ "-cluster-" +:+ clusterName +:+ "-secgroup-" +:+ suffix.

Definition getSecControlPlaneGroupName (clusterName : string) : string :=
  groupName clusterName controlPlaneSuffix.

Definition getSecWorkerGroupName (clusterName : string) : string :=
  groupName clusterName workerSuffix.

Definition getSecBastionGroupName (clusterName : string) : string :=
  groupName clusterName bastionSuffix.

(** ** The cluster object, as far as this package reads and writes it *)

Record ManagedSecurityGroups : Type := {
  AllowAllInClusterTraffic : bool;
  AllNodesSecurityGroupRules : list SecurityGroupRuleSpec
}.

Record Bastion : Type := {
  Enabled : bool
}.

Record APIServerLoadBalancer : Type := {
  lb_Enabled : bool;
  AdditionalPorts : list Z
}.

Record OpenStackClusterSpec : Type := {
  spec_ManagedSecurityGroups : option ManagedSecurityGroups;
  spec_Bastion : option Bastion;
  spec_APIServerLoadBalancer : APIServerLoadBalancer;
  spec_Tags : list string
}.

Record OpenStackClusterStatus : Type := {
  ControlPlaneSecurityGroup : option SecurityGroupStatus;
  WorkerSecurityGroup : option SecurityGroupStatus;
  BastionSecurityGroup : option SecurityGroupStatus
}.

Record OpenStackCluster : Type := {
  Spec : OpenStackClusterSpec;
  Status : OpenStackClusterStatus
}.

(** [Spec.Bastion != nil && Spec.Bastion.Enabled] *)
Definition bastionEnabled (openStackCluster : OpenStackCluster) : bool :=
  match spec_Bastion (Spec openStackCluster) with
  | Some b => Enabled b
  | None => false
  end.

(** ** The networking client *)

(** What a client call that yields a value returns: the value or an error. *)
Inductive reply (A : Type) : Type :=
  | Success (a : A)
  | Failure (e : error).
Arguments Success {A} a.
Arguments Failure {A} e.

Definition replyError {A : Type} (r : reply A) : option error :=
  match r with
  | Success _ => None
  | Failure e => Some e
  end.

(** The networking client behind [s.client], an interface declared and
    implemented outside this package and taken here as a parameter.  It is
    a remote capability, synchronous, one call per operation; a call
    returns a result or an error, never a nil result with a nil error.
    [C] is the state of the provider, which every call may change. *)
Class Client (C : Type) : Type := {
  ListSecGroup : ListOpts → C → reply (list SecGroup) * C;
  CreateSecGroup : GroupCreateOpts → C → reply SecGroup * C;
  DeleteSecGroup : string → C → option error * C;
  CreateSecGroupRule : RuleCreateOpts → C → reply SecGroupRule * C;
  DeleteSecGroupRule : string → C → option error * C;
  ReplaceAllAttributesTags : string → string → list string → C → reply (list string) * C
}.

(** The calls a service makes, as they appear in its log. *)
Inductive Call : Type :=
  | CallListSecGroup (opts : ListOpts)
  | CallCreateSecGroup (opts : GroupCreateOpts)
  | CallDeleteSecGroup (id : string)
  | CallCreateSecGroupRule (opts : RuleCreateOpts)
  | CallDeleteSecGroupRule (id : string)
  | CallReplaceAllAttributesTags (resourceType resourceID : string) (tags : list string).

Record Event : Type := {
  call : Call;
  failure : option error
}.

(** A call that changes the provider: everything but a list. *)
Definition mutating (c : Call) : bool :=
  match c with
  | CallListSecGroup _ => false
  | _ => true
  end.

(** A call that creates or deletes a rule. *)
Definition ruleCall (c : Call) : bool :=
  match c with
  | CallCreateSecGroupRule _ | CallDeleteSecGroupRule _ => true
  | _ => false
  end.

(** [rules.CreateOpts] as [createRule] fills it. *)
Definition createOptsOf (securityGroupID : string)
    (r : resolvedSecurityGroupRuleSpec) : RuleCreateOpts :=
  {| co_Description := Description r;
     co_Direction := Direction r;
     co_PortRangeMin := PortRangeMin r;
     co_PortRangeMax := PortRangeMax r;
     co_Protocol := Protocol r;
     co_EtherType := EtherType r;
     co_RemoteGroupID := RemoteGroupID r;
     co_RemoteIPPrefix := RemoteIPPrefix r;
     co_SecGroupID := securityGroupID |}.

(** ** The service *)

Section Service.
Context {C : Type} `{!Client C}.

(** The provider and the log of the calls made so far, oldest first. *)
Record World : Type := {
  cloud : C;
  trace : list Event
}.

(** Go code of the service: it runs in a world, changes it, and returns
    or panics. *)
Definition M (A : Type) : Type := World → outcome A * World.

Global Instance M_ret : MRet M := fun A a w => (Done a, w).
Global Instance M_bind : MBind M := fun A B f m w =>
  match m w with
  | (Done a, w') => f a w'
  | (Fault, w') => (Fault, w')
  end.

(** Pure code that may panic. *)
Definition liftO {A : Type} (o : outcome A) : M A := fun w => (o, w).

(** One call through [s.client], logged with its reply. *)
Definition logged {A : Type} (c : Call) (failed : A → option error)
    (op : C → A * C) : M A := fun w =>
  let '(r, c') := op (cloud w) in
  (Done r, {| cloud := c';
              trace := trace w ++ [{| call := c; failure := failed r |}] |}).

Definition client_ListSecGroup (opts : ListOpts) : M (reply (list SecGroup)) :=
  logged (CallListSecGroup opts) replyError (ListSecGroup opts).

Definition client_CreateSecGroup (opts : GroupCreateOpts) : M (reply SecGroup) :=
  logged (CallCreateSecGroup opts) replyError (CreateSecGroup opts).

Definition client_DeleteSecGroup (id : string) : M (option error) :=
  logged (CallDeleteSecGroup id) (λ err, err) (DeleteSecGroup id).

Definition client_CreateSecGroupRule (opts : RuleCreateOpts) : M (reply SecGroupRule) :=
  logged (CallCreateSecGroupRule opts) replyError (CreateSecGroupRule opts).

Definition client_DeleteSecGroupRule (id : string) : M (option error) :=
  logged (CallDeleteSecGroupRule id) (λ err, err) (DeleteSecGroupRule id).

Definition client_ReplaceAllAttributesTags (resourceType resourceID : string)
    (tags : list string) : M (reply (list string)) :=
  logged (CallReplaceAllAttributesTags resourceType resourceID tags) replyError
    (ReplaceAllAttributesTags resourceType resourceID tags).

(** [getSecurityGroupByName] *)
Definition getSecurityGroupByName (name : string)
    : M (option SecurityGroupStatus * option error) :=
  let opts := {| lo_Name := name |} in
  r ← client_ListSecGroup opts;
  match r with
  | Failure err => mret (Some emptyStatus, Some err)
  | Success allGroups =>
      match allGroups with
      | [] => mret (Some emptyStatus, None)
      | [g] => mret (convertOSSecGroupToConfigSecGroup g, None)
      | _ :: _ :: _ =>
          mret (Some emptyStatus,
                Some ("more than one security group found named: " +:+ name))
      end
  end.

(** [createRule] *)
Definition createRule (securityGroupID : string) (r : resolvedSecurityGroupRuleSpec)
    : M (SecurityGroupRuleStatus * option error) :=
  let createOpts := createOptsOf securityGroupID r in
  rule ← client_CreateSecGroupRule createOpts;
  match rule with
  | Failure err => mret (emptyRuleStatus, Some err)
  | Success rule => mret (convertOSSecGroupRuleToConfigSecGroupRule rule, None)
  end.

(** The deletion loop of [reconcileGroupRules]; it stops at the first error. *)
Fixpoint deleteLoop (rulesToDelete : list string) : M (option error) :=
  match rulesToDelete with
  | [] => mret None
  | rule :: rest =>
      err ← client_DeleteSecGroupRule rule;
      match err with
      | Some e => mret (Some e)
      | None => deleteLoop rest
      end
  end.

(** The creation loop of [reconcileGroupRules]; it stops at the first error. *)
Fixpoint createLoop (observedID : string)
    (rulesToCreate : list resolvedSecurityGroupRuleSpec)
    (reconciledRules : list SecurityGroupRuleStatus)
    : M (list SecurityGroupRuleStatus * option error) :=
  match rulesToCreate with
  | [] => mret (reconciledRules, None)
  | rule :: rest =>
      let r := resolveSelf observedID rule in
      created ← createRule observedID r;
      match created.2 with
      | Some e => mret (reconciledRules, Some e)
      | None => createLoop observedID rest (reconciledRules ++ [created.1])
      end
  end.

(** [reconcileGroupRules] *)
Definition reconcileGroupRules (desired : securityGroupSpec)
    (observed : SecurityGroupStatus) : M (SecurityGroupStatus * option error) :=
  rulesToDelete ← liftO (rulesToDeleteOf (gs_ID observed) (Rules desired) (gs_Rules observed));
  split ← liftO (rulesToCreateOf (gs_ID observed) (gs_Rules observed) (Rules desired));
  let rulesToCreate := split.1 in
  let reconciledRules := split.2 in
  err ← deleteLoop rulesToDelete;
  match err with
  | Some e => mret (emptyStatus, Some e)
  | None =>
      created ← createLoop (gs_ID observed) rulesToCreate reconciledRules;
      match created.2 with
      | Some e => mret (emptyStatus, Some e)
      | None =>
          let reconciledRules := created.1 in
          let observed := {| gs_ID := gs_ID observed;
                             gs_Name := gs_Name observed;
                             gs_Rules := reconciledRules |} in
          if (length reconciledRules =? 0)%nat then mret (emptyStatus, None)
          else mret (observed, None)
      end
  end.

(** [secGroup == nil || secGroup.ID == ""] *)
Definition absent (secGroup : option SecurityGroupStatus) : bool :=
  match secGroup with
  | None => true
  | Some g => String.eqb (gs_ID g) ""
  end.

(** [createSecurityGroupIfNotExists]; the events it records on the
    cluster object are not modelled. *)
Definition createSecurityGroupIfNotExists (openStackCluster : OpenStackCluster)
    (groupName : string) : M (option error) :=
  fetched ← getSecurityGroupByName groupName;
  let secGroup := fetched.1 in
  match fetched.2 with
  | Some err => mret (Some err)
  | None =>
      if absent secGroup then
        let createOpts := {| gco_Name := groupName;
                             gco_Description := "Cluster API managed group" |} in
        group ← client_CreateSecGroup createOpts;
        match group with
        | Failure err => mret (Some err)
        | Success group =>
            if (0 <? length (spec_Tags (Spec openStackCluster)))%nat then
              r ← client_ReplaceAllAttributesTags "security-groups" (sg_ID group)
                    (spec_Tags (Spec openStackCluster));
              match r with
              | Failure err => mret (Some err)
              | Success _ => mret None
              end
            else mret None
        end
      else mret None
  end.

(** [deleteSecurityGroup]; the events it records are not modelled. *)
Definition deleteSecurityGroup (openStackCluster : OpenStackCluster)
    (name : string) : M (option error) :=
  fetched ← getSecurityGroupByName name;
  match fetched.2 with
  | Some err => mret (Some err)
  | None =>
      group ← liftO (deref fetched.1);
      if String.eqb (gs_ID group) "" then mret None
      else
        err ← client_DeleteSecGroup (gs_ID group);
        match err with
        | Some e => mret (Some e)
        | None => mret None
        end
  end.

End Service.

Arguments World C : clear implicits.
Arguments M C : clear implicits.

(** ** The desired-state generator and the top-level reconciler *)

(** The rule tables of the package, which are declared in a file of their
    own: the fixed rules every group starts from and the rules of each
    role, some of them parametrised by the IDs of the groups they refer to. *)
Class RuleTables : Type := {
  defaultRules : list resolvedSecurityGroupRuleSpec;
  getSGControlPlaneHTTPS : list resolvedSecurityGroupRuleSpec;
  getSGWorkerNodePort : list resolvedSecurityGroupRuleSpec;
  getSGControlPlaneAdditionalPorts : list Z → list resolvedSecurityGroupRuleSpec;
  getSGControlPlaneAllowAll : string → string → list resolvedSecurityGroupRuleSpec;
  getSGWorkerAllowAll : string → string → list resolvedSecurityGroupRuleSpec;
  getSGControlPlaneGeneral : string → string → list resolvedSecurityGroupRuleSpec;
  getSGWorkerGeneral : string → string → list resolvedSecurityGroupRuleSpec;
  getSGControlPlaneSSH : string → list resolvedSecurityGroupRuleSpec;
  getSGWorkerSSH : string → list resolvedSecurityGroupRuleSpec
}.

(** The order in which [range] walks a map.  Go leaves it unspecified and
    it may differ from one [range] statement to the next: it is, for each
    of the three [range] statements of the package, numbered in the order
    they run, some enumeration of the entries of the map. *)
Class MapOrder : Type := {
  rangeMap : nat → ∀ V : Type, gmap string V → list (string * V);
  rangeMap_perm : ∀ (site : nat) (V : Type) (m : gmap string V),
    rangeMap site V m ≡ₚ map_to_list m
}.
Arguments rangeMap {_} site {V} m.

Section Generator.
Context {C : Type} `{!Client C} `{!RuleTables} `{!MapOrder}.

(** The local variables the lookup loop of [generateDesiredSecGroups] fills. *)
Record groupIDs : Type := {
  secControlPlaneGroupID : string;
  secWorkerGroupID : string;
  secBastionGroupID : string;
  remoteManagedGroups : gmap string string
}.

Definition noGroupIDs : groupIDs :=
  {| secControlPlaneGroupID := ""; secWorkerGroupID := "";
     secBastionGroupID := ""; remoteManagedGroups := ∅ |}.

(** The [switch i] of the lookup loop. *)
Definition recordGroupID (i id : string) (ids : groupIDs) : groupIDs :=
  if String.eqb i controlPlaneSuffix then
    {| secControlPlaneGroupID := id;
       secWorkerGroupID := secWorkerGroupID ids;
       secBastionGroupID := secBastionGroupID ids;
       remoteManagedGroups := <[controlPlaneSuffix := id]> (remoteManagedGroups ids) |}
  else if String.eqb i workerSuffix then
    {| secControlPlaneGroupID := secControlPlaneGroupID ids;
       secWorkerGroupID := id;
       secBastionGroupID := secBastionGroupID ids;
       remoteManagedGroups := <[workerSuffix := id]> (remoteManagedGroups ids) |}
  else if String.eqb i bastionSuffix then
    {| secControlPlaneGroupID := secControlPlaneGroupID ids;
       secWorkerGroupID := secWorkerGroupID ids;
       secBastionGroupID := id;
       remoteManagedGroups := <[bastionSuffix := id]> (remoteManagedGroups ids) |}
  else ids.

(** The lookup loop of [generateDesiredSecGroups], over the entries of
    [secGroupNames] in the order [range] gives them. *)
Fixpoint lookupLoop (entries : list (string * string)) (ids : groupIDs)
    : M C (groupIDs * option error) :=
  match entries with
  | [] => mret (ids, None)
  | (i, v) :: rest =>
      fetched ← getSecurityGroupByName v;
      match fetched.2 with
      | Some err => mret (ids, Some err)
      | None =>
          secGroup ← liftO (deref fetched.1);
          lookupLoop rest (recordGroupID i (gs_ID secGroup) ids)
      end
  end.

(** The rule the bastion group gets besides the default ones. *)
Definition bastionSSHRule : resolvedSecurityGroupRuleSpec :=
  {| Description := "SSH"; Direction := "ingress"; EtherType := "IPv4";
     PortRangeMin := 22; PortRangeMax := 22; Protocol := "tcp";
     RemoteGroupID := ""; RemoteIPPrefix := "" |}.

(** The control-plane and worker rules before the all-nodes rules are
    appended. *)
Definition roleRules (openStackCluster : OpenStackCluster)
    (managed : ManagedSecurityGroups) (ids : groupIDs)
    : list resolvedSecurityGroupRuleSpec * list resolvedSecurityGroupRuleSpec :=
  let controlPlaneRules := [] ++ defaultRules in
  let workerRules := [] ++ defaultRules in
  let controlPlaneRules := controlPlaneRules ++ getSGControlPlaneHTTPS in
  let workerRules := workerRules ++ getSGWorkerNodePort in
  let controlPlaneRules :=
    if lb_Enabled (spec_APIServerLoadBalancer (Spec openStackCluster)) then
      controlPlaneRules ++
      getSGControlPlaneAdditionalPorts
        (AdditionalPorts (spec_APIServerLoadBalancer (Spec openStackCluster)))
    else controlPlaneRules in
  if AllowAllInClusterTraffic managed then
    (controlPlaneRules ++ getSGControlPlaneAllowAll remoteGroupIDSelf (secWorkerGroupID ids),
     workerRules ++ getSGWorkerAllowAll remoteGroupIDSelf (secControlPlaneGroupID ids))
  else
    (controlPlaneRules ++ getSGControlPlaneGeneral remoteGroupIDSelf (secWorkerGroupID ids),
     workerRules ++ getSGWorkerGeneral remoteGroupIDSelf (secControlPlaneGroupID ids)).

(** [generateDesiredSecGroups] after its lookup loop. *)
Definition generateFrom (openStackCluster : OpenStackCluster)
    (managed : ManagedSecurityGroups) (secGroupNames : gmap string string)
    (ids : groupIDs) : gmap string securityGroupSpec * option error :=
  let desiredSecGroups : gmap string securityGroupSpec := ∅ in
  let controlPlaneRules := (roleRules openStackCluster managed ids).1 in
  let workerRules := (roleRules openStackCluster managed ids).2 in
  let expanded :=
    getAllNodesRules (remoteManagedGroups ids) (AllNodesSecurityGroupRules managed) in
  match expanded.2 with
  | Some err => (desiredSecGroups, Some err)
  | None =>
      let allNodesRules := expanded.1 in
      let controlPlaneRules := controlPlaneRules ++ allNodesRules in
      let workerRules := workerRules ++ allNodesRules in
      let withBastion :=
        if bastionEnabled openStackCluster then
          (controlPlaneRules ++ getSGControlPlaneSSH (secBastionGroupID ids),
           workerRules ++ getSGWorkerSSH (secBastionGroupID ids),
           <[bastionSuffix :=
               {| Name := default "" (secGroupNames !! bastionSuffix);
                  Rules := [bastionSSHRule] ++ defaultRules |}]> desiredSecGroups)
        else (controlPlaneRules, workerRules, desiredSecGroups) in
      let controlPlaneRules := withBastion.1.1 in
      let workerRules := withBastion.1.2 in
      let desiredSecGroups := withBastion.2 in
      let desiredSecGroups :=
        <[controlPlaneSuffix :=
            {| Name := default "" (secGroupNames !! controlPlaneSuffix);
               Rules := controlPlaneRules |}]> desiredSecGroups in
      let desiredSecGroups :=
        <[workerSuffix :=
            {| Name := default "" (secGroupNames !! workerSuffix);
               Rules := workerRules |}]> desiredSecGroups in
      (desiredSecGroups, None)
  end.

(** [generateDesiredSecGroups] *)
Definition generateDesiredSecGroups (openStackCluster : OpenStackCluster)
    (secGroupNames : gmap string string)
    : M C (gmap string securityGroupSpec * option error) :=
  match spec_ManagedSecurityGroups (Spec openStackCluster) with
  | None => mret (∅, None)
  | Some managed =>
      looked ← lookupLoop (rangeMap 1 secGroupNames) noGroupIDs;
      match looked.2 with
      | Some err => mret (∅, Some err)
      | None => mret (generateFrom openStackCluster managed secGroupNames looked.1)
      end
  end.

(** The first loop of [ReconcileSecurityGroups]: every group is created
    if it does not exist. *)
Fixpoint ensureLoop (openStackCluster : OpenStackCluster)
    (entries : list (string * string)) : M C (option error) :=
  match entries with
  | [] => mret None
  | (_, v) :: rest =>
      err ← createSecurityGroupIfNotExists openStackCluster v;
      match err with
      | Some e => mret (Some e)
      | None => ensureLoop openStackCluster rest
      end
  end.

(** The second loop of [ReconcileSecurityGroups]: every desired group
    is fetched and, if it exists, its rules are reconciled. *)
Fixpoint reconcileLoop (entries : list (string * securityGroupSpec))
    (observedSecGroups : gmap string (option SecurityGroupStatus))
    : M C (gmap string (option SecurityGroupStatus) * option error) :=
  match entries with
  | [] => mret (observedSecGroups, None)
  | (k, desiredSecGroup) :: rest =>
      fetched ← getSecurityGroupByName (Name desiredSecGroup);
      let observedSecGroups := <[k := fetched.1]> observedSecGroups in
      match fetched.2 with
      | Some err => mret (observedSecGroups, Some err)
      | None =>
          group ← liftO (deref fetched.1);
          if negb (String.eqb (gs_ID group) "") then
            reconciled ← reconcileGroupRules desiredSecGroup group;
            match reconciled.2 with
            | Some err => mret (observedSecGroups, Some err)
            | None => reconcileLoop rest (<[k := Some reconciled.1]> observedSecGroups)
            end
          else reconcileLoop rest observedSecGroups
      end
  end.

(** [observedSecGroups[k]], a nil pointer when [k] is not in the map. *)
Definition observedAt (observedSecGroups : gmap string (option SecurityGroupStatus))
    (k : string) : option SecurityGroupStatus :=
  default None (observedSecGroups !! k).

(** [ReconcileSecurityGroups]: the cluster object with its status
    updated, and the error. *)
Definition ReconcileSecurityGroups (openStackCluster : OpenStackCluster)
    (clusterName : string) : M C (OpenStackCluster * option error) :=
  match spec_ManagedSecurityGroups (Spec openStackCluster) with
  | None => mret (openStackCluster, None)
  | Some _ =>
      let secControlPlaneGroupName := getSecControlPlaneGroupName clusterName in
      let secWorkerGroupName := getSecWorkerGroupName clusterName in
      let secGroupNames : gmap string string :=
        <[workerSuffix := secWorkerGroupName]>
          (<[controlPlaneSuffix := secControlPlaneGroupName]> ∅) in
      let secGroupNames :=
        if bastionEnabled openStackCluster then
          <[bastionSuffix := getSecBastionGroupName clusterName]> secGroupNames
        else secGroupNames in
      err ← ensureLoop openStackCluster (rangeMap 0 secGroupNames);
      match err with
      | Some e => mret (openStackCluster, Some e)
      | None =>
          generated ← generateDesiredSecGroups openStackCluster secGroupNames;
          match generated.2 with
          | Some e => mret (openStackCluster, Some e)
          | None =>
              looped ← reconcileLoop (rangeMap 2 generated.1) ∅;
              match looped.2 with
              | Some e => mret (openStackCluster, Some e)
              | None =>
                  let observedSecGroups := looped.1 in
                  mret ({| Spec := Spec openStackCluster;
                           Status :=
                             {| ControlPlaneSecurityGroup :=
                                  observedAt observedSecGroups controlPlaneSuffix;
                                WorkerSecurityGroup :=
                                  observedAt observedSecGroups workerSuffix;
                                BastionSecurityGroup :=
                                  observedAt observedSecGroups bastionSuffix |} |},
                        None)
              end
          end
      end
  end.

End Generator.

(** ** The rest of the package: deletion of the groups, lookup by filter *)

Section Lifecycle.
Context {C : Type} `{!Client C}.




End Lifecycle.

(** The loop of [isDuplicate]. *)
Fixpoint isDuplicateLoop (list : list string) (name : string) : bool :=
  match list with
  | [] => false
  | element :: rest =>
      if String.eqb element name then true else isDuplicateLoop rest name
  end.

(** [isDuplicate] *)
Definition isDuplicate (list : list string) (name : string) : bool :=
  if (length list =? 0)%nat then false else isDuplicateLoop list name.

(** What [GetSecurityGroups] uses of declarations made outside the
    package: the filter type [infrav1.SecurityGroupFilter], of which it
    reads [ID] and [Name] and calls [ToListOpt]; the list options
    [groups.ListOpts] with all their fields, of which it reads and writes
    [ProjectID]; the project of the scope; and the list call of the client
    at these options. *)
Class FilterLookup (C : Type) : Type := {
  SecurityGroupFilter : Type;
  filter_ID : SecurityGroupFilter → string;
  filter_Name : SecurityGroupFilter → string;
  FilterListOpts : Type;
  ToListOpt : SecurityGroupFilter → FilterListOpts;
  opts_ProjectID : FilterListOpts → string;
  withProjectID : string → FilterListOpts → FilterListOpts;
  scopeProjectID : string;
  ListSecGroupWith : FilterListOpts → C → reply (list SecGroup) * C
}.

Section Lookup.
Context {C : Type} `{!FilterLookup C}.

(** The inner loop of [GetSecurityGroups]: the IDs of the listed groups
    that are not yet in [sgIDs] are appended to it. *)
Fixpoint appendGroupIDs (SGList : list SecGroup) (sgIDs : list string) : list string :=
  match SGList with
  | [] => sgIDs
  | group :: rest =>
      if isDuplicate sgIDs (sg_ID group) then appendGroupIDs rest sgIDs
      else appendGroupIDs rest (sgIDs ++ [sg_ID group])
  end.

(** The outer loop of [GetSecurityGroups], threading the provider. *)
Fixpoint getSecurityGroupsLoop (securityGroupParams : list SecurityGroupFilter)
    (sgIDs : list string) (c : C) : (list string * option error) * C :=
  match securityGroupParams with
  | [] => ((sgIDs, None), c)
  | sg :: rest =>
      if negb (String.eqb (filter_ID sg) "") then
        if isDuplicate sgIDs (filter_ID sg) then getSecurityGroupsLoop rest sgIDs c
        else getSecurityGroupsLoop rest (sgIDs ++ [filter_ID sg]) c
      else
        let listOpts := ToListOpt sg in
        let listOpts :=
          if String.eqb (opts_ProjectID listOpts) "" then
            withProjectID scopeProjectID listOpts
          else listOpts in
        match ListSecGroupWith listOpts c with
        | (Failure err, c') => (([], Some err), c')
        | (Success SGList, c') =>
            if (length SGList =? 0)%nat then
              (([], Some ("security group " +:+ filter_Name sg +:+ " not found")), c')
            else getSecurityGroupsLoop rest (appendGroupIDs SGList sgIDs) c'
        end
  end.

(** [GetSecurityGroups] *)
Definition GetSecurityGroups (securityGroupParams : list SecurityGroupFilter) (c : C)
    : (list string * option error) * C :=
  getSecurityGroupsLoop securityGroupParams [] c.

End Lookup.

(** ** Conversion of the group status between API versions

    The second file the package is read with: the conversions between the
    [v1alpha5] types and the [v1beta1] types.  Of its functions, those are
    modelled that do not go through the generated [autoConvert] functions. *)

(** [v1alpha5.SecurityGroupRule], the fields the conversions copy. *)
Record SecurityGroupRule : Type := {
  a5_ID : string;
  a5_Description : string;
  a5_Direction : string;
  a5_EtherType : string;
  a5_PortRangeMin : Z;
  a5_PortRangeMax : Z;
  a5_Protocol : string;
  a5_RemoteGroupID : string;
  a5_RemoteIPPrefix : string
}.

(** [v1alpha5.SecurityGroup] *)
Record SecurityGroup : Type := {
  a5g_ID : string;
  a5g_Name : string;
  a5g_Rules : list SecurityGroupRule
}.

(** The body of the loop of
    [Convert_v1beta1_SecurityGroupStatus_To_v1alpha5_SecurityGroup]: a nil
    pointer leaves the zero value. *)
Definition ruleStatusToRule (rule : SecurityGroupRuleStatus) : SecurityGroupRule :=
  {| a5_ID := rs_ID rule;
     a5_Direction := rs_Direction rule;
     a5_Description := default "" (rs_Description rule);
     a5_EtherType := default "" (rs_EtherType rule);
     a5_PortRangeMin := default 0%Z (rs_PortRangeMin rule);
     a5_PortRangeMax := default 0%Z (rs_PortRangeMax rule);
     a5_Protocol := default "" (rs_Protocol rule);
     a5_RemoteGroupID := default "" (rs_RemoteGroupID rule);
     a5_RemoteIPPrefix := default "" (rs_RemoteIPPrefix rule) |}.

(** [Convert_v1beta1_SecurityGroupStatus_To_v1alpha5_SecurityGroup]; it
    assigns every field of [out] and returns no error. *)
Definition Convert_v1beta1_SecurityGroupStatus_To_v1alpha5_SecurityGroup
    (src : SecurityGroupStatus) : SecurityGroup :=
  {| a5g_ID := gs_ID src;
     a5g_Name := gs_Name src;
     a5g_Rules := map ruleStatusToRule (gs_Rules src) |}.

(** The body of the loop of
    [Convert_v1alpha5_SecurityGroup_To_v1beta1_SecurityGroupStatus]. *)
Definition ruleToRuleStatus (rule : SecurityGroupRule) : SecurityGroupRuleStatus :=
  {| rs_ID := a5_ID rule;
     rs_Description := Some (a5_Description rule);
     rs_Direction := a5_Direction rule;
     rs_EtherType := Some (a5_EtherType rule);
     rs_PortRangeMin := Some (a5_PortRangeMin rule);
     rs_PortRangeMax := Some (a5_PortRangeMax rule);
     rs_Protocol := Some (a5_Protocol rule);
     rs_RemoteGroupID := Some (a5_RemoteGroupID rule);
     rs_RemoteIPPrefix := Some (a5_RemoteIPPrefix rule) |}.

(** [Convert_v1alpha5_SecurityGroup_To_v1beta1_SecurityGroupStatus] *)
Definition Convert_v1alpha5_SecurityGroup_To_v1beta1_SecurityGroupStatus
    (src : SecurityGroup) : SecurityGroupStatus :=
  {| gs_ID := a5g_ID src;
     gs_Name := a5g_Name src;
     gs_Rules := map ruleToRuleStatus (a5g_Rules src) |}.

(** ** Conversion of the binding profile of a port *)

Definition trueString : string := "true".

(** The value the conversion stores under [capabilities]: the text
    [switchdev] between double quotes and square brackets. *)
Definition doubleQuote : string := String (Ascii.ascii_of_nat 34) EmptyString.
Definition switchdevCapabilities : string :=
  "[" +:+ doubleQuote +:+ "switchdev" +:+ doubleQuote +:+ "]".

(** [strings.Contains]: [substr] starts at some position of [s]. *)
Fixpoint Contains (s substr : string) : bool :=
  String.prefix substr s ||
  match s with
  | EmptyString => false
  | String _ rest => Contains rest substr
  end.

(** [infrav1.BindingProfile] *)
Record BindingProfile : Type := {
  OVSHWOffload : option bool;
  TrustedVF : option bool
}.

(** The body of the loop of
    [Convert_Map_string_To_Interface_To_v1beta1_BindingProfile]. *)
Definition bindingProfileStep (k v : string) (out : BindingProfile) : BindingProfile :=
  let out :=
    if String.eqb k "capabilities" then
      if Contains v "switchdev" then
        {| OVSHWOffload := Some true; TrustedVF := TrustedVF out |}
      else out
    else out in
  if String.eqb k "trusted" && String.eqb v trueString then
    {| OVSHWOffload := OVSHWOffload out; TrustedVF := Some true |}
  else out.

(** [Convert_Map_string_To_Interface_To_v1beta1_BindingProfile], over the
    entries of the map in the order [range] gives them; it writes into
    [out] and returns no error. *)
Fixpoint Convert_Map_string_To_Interface_To_v1beta1_BindingProfile
    (entries : list (string * string)) (out : BindingProfile) : BindingProfile :=
  match entries with
  | [] => out
  | (k, v) :: rest =>
      Convert_Map_string_To_Interface_To_v1beta1_BindingProfile rest
        (bindingProfileStep k v out)
  end.

(** [Convert_v1beta1_BindingProfile_To_Map_string_To_Interface]; it writes
    into the map [out] and returns no error. *)
Definition Convert_v1beta1_BindingProfile_To_Map_string_To_Interface
    (src : BindingProfile) (out : gmap string string) : gmap string string :=
  let out :=
    if default false (OVSHWOffload src) then <["capabilities" := switchdevCapabilities]> out
    else out in
  if default false (TrustedVF src) then <["trusted" := trueString]> out else out.

(** The part of [Convert_v1alpha5_PortOpts_To_v1beta1_PortOpts] that
    reads the profile map into [out.Profile]; indexing the map with an
    absent key gives the empty string. *)
Definition portOptsProfile (Profile : gmap string string) (out : BindingProfile)
    : BindingProfile :=
  let out :=
    if Contains (default "" (Profile !! "capabilities")) "switchdev" then
      {| OVSHWOffload := Some true; TrustedVF := TrustedVF out |}
    else out in
  if String.eqb (default "" (Profile !! "trusted")) trueString then
    {| OVSHWOffload := OVSHWOffload out; TrustedVF := Some true |}
  else out.

(** ** Conversion of the security groups of a port

    The part of [Convert_v1alpha5_PortOpts_To_v1beta1_PortOpts] that fills
    [out.SecurityGroups].  The two filter types are declared outside the
    file; the conversion between them goes through generated code and is a
    parameter. *)

(** What the conversions use of [infrav1.SecurityGroupFilter]: the zero
    value, the fields [ID] and [Name] of a composite literal, and the
    field [ID] read. *)
Class FilterLiterals (F : Type) : Type := {
  zeroFilter : F;
  setID : string → F → F;
  setName : string → F → F;
  filterID : F → string
}.

(** [v1alpha5.SecurityGroupParam], over [v1alpha5.SecurityGroupFilter]. *)
Record SecurityGroupParam (F5 : Type) : Type := {
  sgp_UUID : string;
  sgp_Name : string;
  sgp_Filter : F5
}.
Arguments sgp_UUID {F5} _.
Arguments sgp_Name {F5} _.
Arguments sgp_Filter {F5} _.

Section PortSecurityGroups.
Context {F5 F : Type} `{!EqDecision F5} `{!FilterLiterals F}.

(** [SecurityGroupFilter{}] of [v1alpha5]. *)
Variable emptyFilter : F5.

(** [Convert_v1alpha5_SecurityGroupFilter_To_v1beta1_SecurityGroupFilter]:
    what it leaves in the value it writes to, and its error. *)
Variable convertFilter : F5 → F → F * option error.

(** The loop over [in.SecurityGroupFilters]; on an error the function
    returns, with what was appended so far in [out]. *)
Fixpoint filtersLoop (SecurityGroupFilters : list (SecurityGroupParam F5))
    (SecurityGroups : list F) : list F * option error :=
  match SecurityGroupFilters with
  | [] => (SecurityGroups, None)
  | sgParam :: rest =>
      if negb (String.eqb (sgp_UUID sgParam) "") then
        filtersLoop rest (SecurityGroups ++ [setID (sgp_UUID sgParam) zeroFilter])
      else if negb (String.eqb (sgp_Name sgParam) "") then
        filtersLoop rest (SecurityGroups ++ [setName (sgp_Name sgParam) zeroFilter])
      else if bool_decide (sgp_Filter sgParam ≠ emptyFilter) then
        match convertFilter (sgp_Filter sgParam) zeroFilter with
        | (outSG, None) => filtersLoop rest (SecurityGroups ++ [outSG])
        | (outSG, Some err) => (SecurityGroups ++ [outSG], Some err)
        end
      else filtersLoop rest SecurityGroups
  end.

(** What a parameter contributes to [out.SecurityGroups], with the error
    of its conversion: nothing, when it has no UUID, no name and the zero
    filter. *)
Definition paramFilter (sgParam : SecurityGroupParam F5) : list (F * option error) :=
  if negb (String.eqb (sgp_UUID sgParam) "") then
    [(setID (sgp_UUID sgParam) zeroFilter, None)]
  else if negb (String.eqb (sgp_Name sgParam) "") then
    [(setName (sgp_Name sgParam) zeroFilter, None)]
  else if bool_decide (sgp_Filter sgParam ≠ emptyFilter) then
    [convertFilter (sgp_Filter sgParam) zeroFilter]
  else [].

(** One [if len(in.SecurityGroups) > 0 || len(in.SecurityGroupFilters) > 0]
    block, from the value [out.SecurityGroups] has before it. *)
Definition securityGroupsBlock (in_SecurityGroups : list string)
    (in_SecurityGroupFilters : list (SecurityGroupParam F5))
    (out_SecurityGroups : list F) : list F * option error :=
  if (0 <? length in_SecurityGroups)%nat || (0 <? length in_SecurityGroupFilters)%nat then
    match filtersLoop in_SecurityGroupFilters [] with
    | (SecurityGroups, Some err) => (SecurityGroups, Some err)
    | (SecurityGroups, None) =>
        (SecurityGroups ++ map (λ id, setID id zeroFilter) in_SecurityGroups, None)
    end
  else (out_SecurityGroups, None).

(** The block as the function has it: twice in a row. *)
Definition portOptsSecurityGroups (in_SecurityGroups : list string)
    (in_SecurityGroupFilters : list (SecurityGroupParam F5))
    (out_SecurityGroups : list F) : list F * option error :=
  match securityGroupsBlock in_SecurityGroups in_SecurityGroupFilters out_SecurityGroups with
  | (SecurityGroups, Some err) => (SecurityGroups, Some err)
  | (SecurityGroups, None) =>
      securityGroupsBlock in_SecurityGroups in_SecurityGroupFilters SecurityGroups
  end.

(** [Convert_v1beta1_SecurityGroupFilter_To_v1alpha5_SecurityGroupFilter]:
    what it leaves in the value it writes to, and its error. *)
Variable convertFilterBack : F → F5 → F5 * option error.

(** [SecurityGroupParam{}] *)
Definition emptyParam : SecurityGroupParam F5 :=
  {| sgp_UUID := ""; sgp_Name := ""; sgp_Filter := emptyFilter |}.

(** The loop of [Convert_v1beta1_PortOpts_To_v1alpha5_PortOpts] over
    [in.SecurityGroups]: [filled] are the parameters written so far; the
    slice was made with one zero parameter for each security group, and on
    an error the ones not reached stay zero. *)
Fixpoint paramsLoop (in_SecurityGroups : list F)
    (filled : list (SecurityGroupParam F5))
    : list (SecurityGroupParam F5) * option error :=
  match in_SecurityGroups with
  | [] => (filled, None)
  | securityGroup :: rest =>
      if negb (String.eqb (filterID securityGroup) "") then
        paramsLoop rest
          (filled ++ [{| sgp_UUID := filterID securityGroup; sgp_Name := "";
                         sgp_Filter := emptyFilter |}])
      else
        match convertFilterBack securityGroup emptyFilter with
        | (filter, None) =>
            paramsLoop rest
              (filled ++ [{| sgp_UUID := ""; sgp_Name := ""; sgp_Filter := filter |}])
        | (filter, Some err) =>
            (filled ++ [{| sgp_UUID := ""; sgp_Name := ""; sgp_Filter := filter |}] ++
             replicate (length rest) emptyParam, Some err)
        end
  end.

(** The part of [Convert_v1beta1_PortOpts_To_v1alpha5_PortOpts] that fills
    [out.SecurityGroupFilters], from the value it has before; the same
    function sets [out.SecurityGroups] to nil. *)
Definition portOptsSecurityGroupFilters (in_SecurityGroups : list F)
    (out_SecurityGroupFilters : list (SecurityGroupParam F5))
    : list (SecurityGroupParam F5) * option error :=
  if (0 <? length in_SecurityGroups)%nat then paramsLoop in_SecurityGroups []
  else (out_SecurityGroupFilters, None).

End PortSecurityGroups.

(** ** Conversion of the network status

    [Subnet] stands for the two subnet types, which convert into each
    other field by field; [Rest] for the fields of [v1alpha5.Network] the
    conversions leave alone. *)

(** [v1alpha5.Network] *)
Record Network (Subnet Rest : Type) : Type := {
  net_ID : string;
  net_Name : string;
  net_Tags : list string;
  net_Subnet : option Subnet;
  net_Rest : Rest
}.
Arguments net_ID {Subnet Rest} _.
Arguments net_Name {Subnet Rest} _.
Arguments net_Tags {Subnet Rest} _.
Arguments net_Subnet {Subnet Rest} _.
Arguments net_Rest {Subnet Rest} _.

(** [infrav1.NetworkStatus] *)
Record NetworkStatus : Type := {
  ns_ID : string;
  ns_Name : string;
  ns_Tags : list string
}.

(** [infrav1.NetworkStatusWithSubnets] *)
Record NetworkStatusWithSubnets (Subnet : Type) : Type := {
  nss_NetworkStatus : NetworkStatus;
  nss_Subnets : list Subnet
}.
Arguments nss_NetworkStatus {Subnet} _.
Arguments nss_Subnets {Subnet} _.

Section NetworkConversion.
Context {Subnet Rest : Type}.

(** [Convert_v1alpha5_Network_To_v1beta1_NetworkStatus]; it writes the
    three fields of [out]. *)
Definition Convert_v1alpha5_Network_To_v1beta1_NetworkStatus
    (src : Network Subnet Rest) : NetworkStatus :=
  {| ns_ID := net_ID src; ns_Name := net_Name src; ns_Tags := net_Tags src |}.

(** [Convert_v1beta1_NetworkStatus_To_v1alpha5_Network]; it writes three
    fields of [out]. *)
Definition Convert_v1beta1_NetworkStatus_To_v1alpha5_Network
    (src : NetworkStatus) (out : Network Subnet Rest) : Network Subnet Rest :=
  {| net_ID := ns_ID src; net_Name := ns_Name src; net_Tags := ns_Tags src;
     net_Subnet := net_Subnet out; net_Rest := net_Rest out |}.

(** [Convert_v1alpha5_Network_To_v1beta1_NetworkStatusWithSubnets] *)
Definition Convert_v1alpha5_Network_To_v1beta1_NetworkStatusWithSubnets
    (src : Network Subnet Rest) (out : NetworkStatusWithSubnets Subnet)
    : NetworkStatusWithSubnets Subnet :=
  {| nss_NetworkStatus := Convert_v1alpha5_Network_To_v1beta1_NetworkStatus src;
     nss_Subnets :=
       match net_Subnet src with
       | Some subnet => [subnet]
       | None => nss_Subnets out
       end |}.

(** [Convert_v1beta1_NetworkStatusWithSubnets_To_v1alpha5_Network] *)
Definition Convert_v1beta1_NetworkStatusWithSubnets_To_v1alpha5_Network
    (src : NetworkStatusWithSubnets Subnet) (out : Network Subnet Rest)
    : Network Subnet Rest :=
  let out := Convert_v1beta1_NetworkStatus_To_v1alpha5_Network (nss_NetworkStatus src) out in
  if (0 <? length (nss_Subnets src))%nat then
    {| net_ID := net_ID out; net_Name := net_Name out; net_Tags := net_Tags out;
       net_Subnet := head (nss_Subnets src); net_Rest := net_Rest out |}
  else out.

End NetworkConversion.

(** ** An in-memory provider

    A small provider to run the service against: groups with their rules,
    a counter for fresh rule IDs, a quota of rules per group, and a switch
    that makes every call fail. *)

Module Mock.

Record provider : Type := {
  groups : list SecGroup;
  next : nat;
  quota : nat;
  down : bool
}.

Definition unavailable : error := "503 service unavailable".

Definition withGroups (c : provider) (gs : list SecGroup) : provider :=
  {| groups := gs; next := next c; quota := quota c; down := down c |}.

Fixpoint freshID (n : nat) : string :=
  match n with
  | O => "rule-"
  | S n => freshID n +:+ "i"
  end.

Definition hasRule (id : string) (g : SecGroup) : bool :=
  existsb (λ r, String.eqb (os_ID r) id) (sg_Rules g).

Definition dropRule (id : string) (g : SecGroup) : SecGroup :=
  {| sg_ID := sg_ID g; sg_Name := sg_Name g; sg_Description := sg_Description g;
     sg_Rules := List.filter (λ r, negb (String.eqb (os_ID r) id)) (sg_Rules g) |}.

Definition addRule (rule : SecGroupRule) (g : SecGroup) : SecGroup :=
  if String.eqb (sg_ID g) (os_SecGroupID rule) then
    {| sg_ID := sg_ID g; sg_Name := sg_Name g; sg_Description := sg_Description g;
       sg_Rules := sg_Rules g ++ [rule] |}
  else g.

Definition newRule (id : string) (opts : RuleCreateOpts) : SecGroupRule :=
  {| os_ID := id;
     os_Direction := co_Direction opts;
     os_Description := co_Description opts;
     os_EtherType := co_EtherType opts;
     os_SecGroupID := co_SecGroupID opts;
     os_PortRangeMin := co_PortRangeMin opts;
     os_PortRangeMax := co_PortRangeMax opts;
     os_Protocol := co_Protocol opts;
     os_RemoteGroupID := co_RemoteGroupID opts;
     os_RemoteIPPrefix := co_RemoteIPPrefix opts |}.

Definition listGroups (opts : ListOpts) (c : provider) : reply (list SecGroup) * provider :=
  if down c then (Failure unavailable, c)
  else (Success (List.filter (λ g, String.eqb (sg_Name g) (lo_Name opts)) (groups c)), c).

Definition createGroup (opts : GroupCreateOpts) (c : provider) : reply SecGroup * provider :=
  if down c then (Failure unavailable, c)
  else
    let g := {| sg_ID := "sg-" +:+ gco_Name opts; sg_Name := gco_Name opts;
                sg_Description := gco_Description opts; sg_Rules := [] |} in
    (Success g, withGroups c (groups c ++ [g])).

Definition deleteGroup (id : string) (c : provider) : option error * provider :=
  if down c then (Some unavailable, c)
  else if existsb (λ g, String.eqb (sg_ID g) id) (groups c) then
    (None, withGroups c (List.filter (λ g, negb (String.eqb (sg_ID g) id)) (groups c)))
  else (Some "security group not found", c).

Definition createRule (opts : RuleCreateOpts) (c : provider) : reply SecGroupRule * provider :=
  if down c then (Failure unavailable, c)
  else
    match List.find (λ g, String.eqb (sg_ID g) (co_SecGroupID opts)) (groups c) with
    | None => (Failure "security group not found", c)
    | Some g =>
        if (quota c <=? length (sg_Rules g))%nat then (Failure "quota exceeded", c)
        else
          let rule := newRule (freshID (next c)) opts in
          (Success rule,
           {| groups := map (addRule rule) (groups c); next := S (next c);
              quota := quota c; down := down c |})
    end.

Definition deleteRule (id : string) (c : provider) : option error * provider :=
  if down c then (Some unavailable, c)
  else if existsb (hasRule id) (groups c) then
    (None, withGroups c (map (dropRule id) (groups c)))
  else (Some "security group rule not found", c).

Definition replaceTags (resourceType resourceID : string) (tags : list string)
    (c : provider) : reply (list string) * provider :=
  if down c then (Failure unavailable, c) else (Success tags, c).

Global Instance client : Client provider := {|
  ListSecGroup := listGroups;
  CreateSecGroup := createGroup;
  DeleteSecGroup := deleteGroup;
  CreateSecGroupRule := createRule;
  DeleteSecGroupRule := deleteRule;
  ReplaceAllAttributesTags := replaceTags
|}.

(** A world with nothing logged yet. *)
Definition start (gs : list SecGroup) (q : nat) : World provider :=
  {| cloud := {| groups := gs; next := 0; quota := q; down := false |}; trace := [] |}.


(** Rule tables small enough to read results by eye. *)
Definition rule (description : string) (port : Z) (remote : string)
    : resolvedSecurityGroupRuleSpec :=
  {| Description := description; Direction := "ingress"; EtherType := "IPv4";
     PortRangeMin := port; PortRangeMax := port; Protocol := "tcp";
     RemoteGroupID := remote; RemoteIPPrefix := "" |}.

Global Instance tables : RuleTables := {|
  defaultRules := [rule "egress" 0 ""];
  getSGControlPlaneHTTPS := [rule "https" 6443 ""];
  getSGWorkerNodePort := [rule "nodeport" 30000 ""];
  getSGControlPlaneAdditionalPorts := map (λ p, rule "lb" p "");
  getSGControlPlaneAllowAll := λ self peer, [rule "all" 0 self; rule "all" 0 peer];
  getSGWorkerAllowAll := λ self peer, [rule "all" 0 self; rule "all" 0 peer];
  getSGControlPlaneGeneral := λ self peer, [rule "kubelet" 10250 self; rule "kubelet" 10250 peer];
  getSGWorkerGeneral := λ self peer, [rule "kubelet" 10250 self; rule "kubelet" 10250 peer];
  getSGControlPlaneSSH := λ bastion, [rule "ssh" 22 bastion];
  getSGWorkerSSH := λ bastion, [rule "ssh" 22 bastion]
|}.

Global Instance order : MapOrder := {|
  rangeMap := λ site V m, map_to_list m;
  rangeMap_perm := λ site V m, reflexivity (map_to_list m)
|}.

(** An observed rule as the provider would report it. *)
Definition observedRule (id : string) (r : resolvedSecurityGroupRuleSpec)
    (group : string) : SecGroupRule :=
  newRule id (createOptsOf group r).

End Mock.

(** ** Sample data *)

Module Sample.

Definition ruleA : resolvedSecurityGroupRuleSpec := Mock.rule "a" 1 "".
Definition ruleB : resolvedSecurityGroupRuleSpec := Mock.rule "b" 2 remoteGroupIDSelf.
Definition ruleC : resolvedSecurityGroupRuleSpec := Mock.rule "c" 3 "".

Definition wireGroup (rules : list SecGroupRule) : SecGroup :=
  {| sg_ID := "g"; sg_Name := "n"; sg_Description := ""; sg_Rules := rules |}.

Definition statusGroup (rules : list SecGroupRule) : SecurityGroupStatus :=
  {| gs_ID := "g"; gs_Name := "n";
     gs_Rules := map convertOSSecGroupRuleToConfigSecGroupRule rules |}.

Definition desiredOf (rules : list resolvedSecurityGroupRuleSpec) : securityGroupSpec :=
  {| Name := "n"; Rules := rules |}.

(** Observed rules A and C, desired rules A and B. *)
Definition rulesAC : list SecGroupRule :=
  [Mock.observedRule "ra" ruleA "g"; Mock.observedRule "rc" ruleC "g"].



(** All-nodes rule templates and the clusters that carry them. *)
Definition template (direct : option string) (roles : list string)
    : SecurityGroupRuleSpec :=
  {| t_Description := Some "all nodes"; t_Direction := "ingress";
     t_EtherType := Some "IPv4"; t_PortRangeMin := Some 179%Z;
     t_PortRangeMax := Some 179%Z; t_Protocol := Some "tcp";
     t_RemoteGroupID := direct; t_RemoteIPPrefix := None;
     t_RemoteManagedGroups := roles |}.

Definition table : gmap string string :=
  <[workerSuffix := "id-w"]> (<[controlPlaneSuffix := "id-cp"]> ∅).

Definition cluster (templates : list SecurityGroupRuleSpec) : OpenStackCluster :=
  {| Spec := {| spec_ManagedSecurityGroups :=
                  Some {| AllowAllInClusterTraffic := false;
                          AllNodesSecurityGroupRules := templates |};
                spec_Bastion := None;
                spec_APIServerLoadBalancer :=
                  {| lb_Enabled := false; AdditionalPorts := [] |};
                spec_Tags := ["cluster"] |};
     Status := {| ControlPlaneSecurityGroup := None;
                  WorkerSecurityGroup := None;
                  BastionSecurityGroup := None |} |}.

Definition names : gmap string string :=
  <[workerSuffix := getSecWorkerGroupName "c"]>
    (<[controlPlaneSuffix := getSecControlPlaneGroupName "c"]> ∅).

(** An observed rule with a nil pointer that [Matches] does not reach. *)
Definition halfRule : SecurityGroupRuleStatus :=
  {| rs_ID := "r"; rs_Description := Some "other"; rs_Direction := "ingress";
     rs_EtherType := None; rs_PortRangeMin := None; rs_PortRangeMax := None;
     rs_Protocol := None; rs_RemoteGroupID := None; rs_RemoteIPPrefix := None |}.

(** The control-plane and worker groups of cluster [c], as the provider
    holds them once they are created. *)
Definition clusterGroups : list SecGroup :=
  [{| sg_ID := "id-cp"; sg_Name := getSecControlPlaneGroupName "c";
      sg_Description := "Cluster API managed group"; sg_Rules := [] |};
   {| sg_ID := "id-w"; sg_Name := getSecWorkerGroupName "c";
      sg_Description := "Cluster API managed group"; sg_Rules := [] |}].

End Sample.

(** ** An in-memory lookup by filter *)

Module MockFilter.

Record filter : Type := {
  ID : string;
  Name : string;
  ProjectID : string
}.

Record listOpts : Type := {
  o_Name : string;
  o_ProjectID : string
}.

(** The provider of [Mock] keeps no project with a group: the listing
    goes by name. *)
Definition listWith (opts : listOpts) (c : Mock.provider)
    : reply (list SecGroup) * Mock.provider :=
  if Mock.down c then (Failure Mock.unavailable, c)
  else (Success (List.filter (λ g, String.eqb (sg_Name g) (o_Name opts)) (Mock.groups c)), c).

Global Instance lookup : FilterLookup Mock.provider := {|
  SecurityGroupFilter := filter;
  filter_ID := ID;
  filter_Name := Name;
  FilterListOpts := listOpts;
  ToListOpt := λ sg, {| o_Name := Name sg; o_ProjectID := ProjectID sg |};
  opts_ProjectID := o_ProjectID;
  withProjectID := λ p opts, {| o_Name := o_Name opts; o_ProjectID := p |};
  scopeProjectID := "project";
  ListSecGroupWith := listWith
|}.

Definition byID (id : string) : filter := {| ID := id; Name := ""; ProjectID := "" |}.
Definition byName (name : string) : filter := {| ID := ""; Name := name; ProjectID := "" |}.

Definition group (id name : string) : SecGroup :=
  {| sg_ID := id; sg_Name := name; sg_Description := ""; sg_Rules := [] |}.

Definition running (gs : list SecGroup) : Mock.provider :=
  {| Mock.groups := gs; Mock.next := 0; Mock.quota := 0; Mock.down := false |}.

(** A filter type with two fields, to run the conversions of the
    security groups of a port on. *)
Global Instance literals : FilterLiterals (string * string) := {|
  zeroFilter := ("", "");
  setID := λ id f, (id, f.2);
  setName := λ name f, (f.1, name);
  filterID := fst
|}.

End MockFilter.

(** ** Notions the properties are stated with *)

(** The observed rule that has exactly the fields of [r], under the
    provider ID [id]. *)
Definition statusOf (id : string) (r : resolvedSecurityGroupRuleSpec)
    : SecurityGroupRuleStatus :=
  {| rs_ID := id;
     rs_Description := Some (Description r);
     rs_Direction := Direction r;
     rs_EtherType := Some (EtherType r);
     rs_PortRangeMin := Some (PortRangeMin r);
     rs_PortRangeMax := Some (PortRangeMax r);
     rs_Protocol := Some (Protocol r);
     rs_RemoteGroupID := Some (RemoteGroupID r);
     rs_RemoteIPPrefix := Some (RemoteIPPrefix r) |}.

(** The same observed rule under another provider ID. *)
Definition withID (id : string) (o : SecurityGroupRuleStatus) : SecurityGroupRuleStatus :=
  {| rs_ID := id;
     rs_Description := rs_Description o;
     rs_Direction := rs_Direction o;
     rs_EtherType := rs_EtherType o;
     rs_PortRangeMin := rs_PortRangeMin o;
     rs_PortRangeMax := rs_PortRangeMax o;
     rs_Protocol := rs_Protocol o;
     rs_RemoteGroupID := rs_RemoteGroupID o;
     rs_RemoteIPPrefix := rs_RemoteIPPrefix o |}.

(** None of the seven pointers of an observed rule is nil. *)
Definition full (o : SecurityGroupRuleStatus) : Prop :=
  is_Some (rs_Description o) ∧ is_Some (rs_EtherType o) ∧
  is_Some (rs_PortRangeMin o) ∧ is_Some (rs_PortRangeMax o) ∧
  is_Some (rs_Protocol o) ∧ is_Some (rs_RemoteGroupID o) ∧
  is_Some (rs_RemoteIPPrefix o).

(** [Matches r o] reaches a nil pointer: some pointer of [o] is nil and
    every field compared before it agrees with [r]. *)
Definition nilReached (r : resolvedSecurityGroupRuleSpec)
    (o : SecurityGroupRuleStatus) : Prop :=
  rs_Description o = None ∨
  (rs_Description o = Some (Description r) ∧ rs_Direction o = Direction r ∧
   (rs_EtherType o = None ∨
    (rs_EtherType o = Some (EtherType r) ∧
     (rs_PortRangeMin o = None ∨
      (rs_PortRangeMin o = Some (PortRangeMin r) ∧
       (rs_PortRangeMax o = None ∨
        (rs_PortRangeMax o = Some (PortRangeMax r) ∧
         (rs_Protocol o = None ∨
          (rs_Protocol o = Some (Protocol r) ∧
           (rs_RemoteGroupID o = None ∨
            (rs_RemoteGroupID o = Some (RemoteGroupID r) ∧
             rs_RemoteIPPrefix o = None))))))))))).

(** The eight rule fields of a wire rule and of the options of a create call. *)
Definition wireSpec (rule : SecGroupRule) : resolvedSecurityGroupRuleSpec :=
  {| Description := os_Description rule;
     Direction := os_Direction rule;
     EtherType := os_EtherType rule;
     PortRangeMin := os_PortRangeMin rule;
     PortRangeMax := os_PortRangeMax rule;
     Protocol := os_Protocol rule;
     RemoteGroupID := os_RemoteGroupID rule;
     RemoteIPPrefix := os_RemoteIPPrefix rule |}.



(** The errors the template expansion makes itself. *)
Definition unresolvedError (group : string) : error :=
  "remoteManagedGroups: " +:+ group +:+ " is not a valid remote managed security group".

Definition configError (e : error) : Prop :=
  e = "remoteManagedGroups is required" ∨
  e = "remoteGroupID must not be set when remoteManagedGroups is set" ∨
  ∃ group : string, e = unresolvedError group.


(** A template names a role the resolution table does not have. *)
Definition unresolved (table : gmap string string) (t : SecurityGroupRuleSpec) : Prop :=
  ∃ group : string, In group (t_RemoteManagedGroups t) ∧ table !! group = None.

(** The rules a template with logical roles expands into. *)
Definition expansion (table : gmap string string) (t : SecurityGroupRuleSpec)
    : list resolvedSecurityGroupRuleSpec :=
  map (λ group, withRemoteGroupID (templateRule t) (default "" (table !! group)))
      (t_RemoteManagedGroups t).

(** A template the expansion accepts: it names at least one role, every
    role it names is in the table, and it sets no direct remote group. *)
Definition accepted (table : gmap string string) (t : SecurityGroupRuleSpec) : Prop :=
  t_RemoteManagedGroups t ≠ [] ∧ t_RemoteGroupID t = None ∧
  Forall (λ group, is_Some (table !! group)) (t_RemoteManagedGroups t).

(** The error [getSecurityGroupByName] makes itself. *)
Definition ambiguousError (e : error) : Prop :=
  ∃ name : string, e = "more than one security group found named: " +:+ name.

(** A role a template of this cluster may name: one of the groups
    [ReconcileSecurityGroups] looks up, the bastion group only when the
    bastion is enabled. *)
Definition resolvable (openStackCluster : OpenStackCluster) (role : string) : Prop :=
  role = controlPlaneSuffix ∨ role = workerSuffix ∨
  (role = bastionSuffix ∧ bastionEnabled openStackCluster = true).

(** The log entries of a pass in which every call succeeds. *)
Definition succeeded (c : Call) : Event := {| call := c; failure := None |}.

Definition deleteCalls (rulesToDelete : list string) : list Call :=
  map CallDeleteSecGroupRule rulesToDelete.

Definition createCalls (observedID : string)
    (rulesToCreate : list resolvedSecurityGroupRuleSpec) : list Call :=
  map (λ rule, CallCreateSecGroupRule
                 (createOptsOf observedID (resolveSelf observedID rule)))
      rulesToCreate.

(** The log entry of the list call of [getSecurityGroupByName]. *)
Definition listEvent (name : string) (failed : option error) : Event :=
  {| call := CallListSecGroup {| lo_Name := name |}; failure := failed |}.

(** The roles a resolution table can hold. *)
Definition managedRole (role : string) : Prop :=
  role = controlPlaneSuffix ∨ role = workerSuffix ∨ role = bastionSuffix.

(** The calls of a complete pass, in the order they are issued. *)
Definition plannedCalls (observedID : string) (rulesToDelete : list string)
    (rulesToCreate : list resolvedSecurityGroupRuleSpec) : list Call :=
  deleteCalls rulesToDelete ++ createCalls observedID rulesToCreate.

(** The provider answered the creation of the desired rule [d] in the
    group [observedID] with the wire rule [rule]. *)
Definition createdBy {C : Type} `{!Client C} (observedID : string)
    (d : resolvedSecurityGroupRuleSpec) (rule : SecGroupRule) : Prop :=
  ∃ c c' : C,
    CreateSecGroupRule (createOptsOf observedID (resolveSelf observedID d)) c =
    (Success rule, c').

(** What [reconcileGroupRules] returns for the rules it ends with. *)
Definition statusWith (observed : SecurityGroupStatus)
    (reconciledRules : list SecurityGroupRuleStatus) : SecurityGroupStatus :=
  match reconciledRules with
  | [] => emptyStatus
  | _ :: _ => {| gs_ID := gs_ID observed; gs_Name := gs_Name observed;
                 gs_Rules := reconciledRules |}
  end.

(** What the conversion of a profile map comes to: the two keys it reads. *)
Definition profileOfMap (m : gmap string string) (out : BindingProfile) : BindingProfile :=
  {| OVSHWOffload :=
       match m !! "capabilities" with
       | Some v => if Contains v "switchdev" then Some true else OVSHWOffload out
       | None => OVSHWOffload out
       end;
     TrustedVF :=
       match m !! "trusted" with
       | Some v => if String.eqb v trueString then Some true else TrustedVF out
       | None => TrustedVF out
       end |}.

(** [infrav1.BindingProfile{}] *)
Definition emptyProfile : BindingProfile := {| OVSHWOffload := None; TrustedVF := None |}.

(** A profile with [pointer.BoolDeref(_, false)] taken of both fields:
    true stays, false and nil become nil. *)
Definition effectiveProfile (p : BindingProfile) : BindingProfile :=
  {| OVSHWOffload := if default false (OVSHWOffload p) then Some true else None;
     TrustedVF := if default false (TrustedVF p) then Some true else None |}.

(** The options [GetSecurityGroups] lists with for a filter without ID. *)
Definition listOptsOf `{FilterLookup C} (sg : SecurityGroupFilter) : FilterListOpts :=
  let listOpts := ToListOpt sg in
  if String.eqb (opts_ProjectID listOpts) "" then withProjectID scopeProjectID listOpts
  else listOpts.

(** The elements of a list of strings, each at its first occurrence. *)
Fixpoint firstOccurrences (seen : list string) (l : list string) : list string :=
  match l with
  | [] => []
  | x :: rest =>
      if bool_decide (x ∈ seen) then firstOccurrences seen rest
      else x :: firstOccurrences (seen ++ [x]) rest
  end.

(** The error of [GetSecurityGroups] for a filter that lists no group. *)
Definition notFoundError (name : string) : error :=
  "security group " +:+ name +:+ " not found".

(** The options [createSecurityGroupIfNotExists] creates a group with. *)
Definition managedGroupOpts (groupName : string) : GroupCreateOpts :=
  {| gco_Name := groupName; gco_Description := "Cluster API managed group" |}.

(** A call that creates, tags or deletes a group. *)
Definition groupCall (c : Call) : bool :=
  match c with
  | CallCreateSecGroup _ | CallDeleteSecGroup _ | CallReplaceAllAttributesTags _ _ _ => true
  | _ => false
  end.



(** The listing of a name shows no group to work on: it is empty, or holds
    one group whose ID is empty. *)
Definition listsNoGroup (listed : reply (list SecGroup)) : bool :=
  match listed with
  | Success [] => true
  | Success [g] => String.eqb (sg_ID g) ""
  | _ => false
  end.

(** The tag call of [createSecurityGroupIfNotExists] on a created group. *)
Definition tagCall (openStackCluster : OpenStackCluster) (id : string) : Call :=
  CallReplaceAllAttributesTags "security-groups" id (spec_Tags (Spec openStackCluster)).

(** The resolution table agrees with the three ID variables the lookup
    loop fills beside it. *)
Definition tableAgrees (ids : groupIDs) : Prop :=
  (∀ id, remoteManagedGroups ids !! controlPlaneSuffix = Some id →
         secControlPlaneGroupID ids = id) ∧
  (∀ id, remoteManagedGroups ids !! workerSuffix = Some id →
         secWorkerGroupID ids = id) ∧
  (∀ id, remoteManagedGroups ids !! bastionSuffix = Some id →
         secBastionGroupID ids = id).

(** A call of the first loop of [ReconcileSecurityGroups]: a list, the
    creation of a group, or the setting of its tags. *)
Definition setupCall (c : Call) : bool :=
  match c with
  | CallListSecGroup _ | CallCreateSecGroup _ | CallReplaceAllAttributesTags _ _ _ => true
  | _ => false
  end.

(** The map [secGroupNames] that [ReconcileSecurityGroups] builds. *)
Definition secGroupNamesOf (openStackCluster : OpenStackCluster)
    (clusterName : string) : gmap string string :=
  let secGroupNames : gmap string string :=
    <[workerSuffix := getSecWorkerGroupName clusterName]>
      (<[controlPlaneSuffix := getSecControlPlaneGroupName clusterName]> ∅) in
  if bastionEnabled openStackCluster then
    <[bastionSuffix := getSecBastionGroupName clusterName]> secGroupNames
  else secGroupNames.

(** ** The rule value model: lemmas *)

Lemma andalso_true (a b : outcome bool) :
  a &&& b = Done true ↔ a = Done true ∧ b = Done true.
Proof. destruct a as [[|]|]; simpl; intuition congruence. Qed.

Lemma andalso_fault (a b : outcome bool) :
  a &&& b = Fault ↔ a = Fault ∨ (a = Done true ∧ b = Fault).
Proof. destruct a as [[|]|]; simpl; intuition congruence. Qed.

Lemma eqString_true (x : string) (p : option string) :
  eqString x p = Done true ↔ p = Some x.
Proof.
  destruct p as [y|]; cbn; [|intuition congruence].
  split.
  - intros [= E]. apply String.eqb_eq in E. congruence.
  - intros [= ->]. by rewrite String.eqb_refl.
Qed.

Lemma eqInt_true (x : Z) (p : option Z) :
  eqInt x p = Done true ↔ p = Some x.
Proof.
  destruct p as [y|]; cbn; [|intuition congruence].
  split.
  - intros [= E]. apply Z.eqb_eq in E. congruence.
  - intros [= ->]. by rewrite Z.eqb_refl.
Qed.

Lemma eqString_fault (x : string) (p : option string) :
  eqString x p = Fault ↔ p = None.
Proof. destruct p; cbn; intuition congruence. Qed.

Lemma eqInt_fault (x : Z) (p : option Z) :
  eqInt x p = Fault ↔ p = None.
Proof. destruct p; cbn; intuition congruence. Qed.

Lemma eqDirection_true (x y : string) :
  Done (String.eqb x y) = Done true ↔ y = x.
Proof.
  split.
  - intros [= E]. apply String.eqb_eq in E. congruence.
  - intros ->. by rewrite String.eqb_refl.
Qed.

Lemma eqDirection_fault (x y : string) :
  @Done bool (String.eqb x y) = Fault ↔ False.
Proof. intuition congruence. Qed.

Lemma statusOf_fields (r : resolvedSecurityGroupRuleSpec) (o : SecurityGroupRuleStatus) :
  o = statusOf (rs_ID o) r ↔
  rs_Description o = Some (Description r) ∧ rs_Direction o = Direction r ∧
  rs_EtherType o = Some (EtherType r) ∧ rs_PortRangeMin o = Some (PortRangeMin r) ∧
  rs_PortRangeMax o = Some (PortRangeMax r) ∧ rs_Protocol o = Some (Protocol r) ∧
  rs_RemoteGroupID o = Some (RemoteGroupID r) ∧
  rs_RemoteIPPrefix o = Some (RemoteIPPrefix r).
Proof.
  destruct o; unfold statusOf; simpl. split.
  - intros [= -> -> -> -> -> -> -> ->]. tauto.
  - intros (-> & -> & -> & -> & -> & -> & -> & ->). reflexivity.
Qed.

(** [Matches] says yes exactly on the observed rules that are [r] plus an ID. *)
Lemma Matches_true (r : resolvedSecurityGroupRuleSpec) (o : SecurityGroupRuleStatus) :
  Matches r o = Done true ↔ o = statusOf (rs_ID o) r.
Proof.
  rewrite statusOf_fields. unfold Matches.
  rewrite !andalso_true, !eqString_true, !eqInt_true, eqDirection_true. tauto.
Qed.

Lemma Matches_fault (r : resolvedSecurityGroupRuleSpec) (o : SecurityGroupRuleStatus) :
  Matches r o = Fault ↔ nilReached r o.
Proof.
  unfold Matches, nilReached.
  rewrite !andalso_fault, !andalso_true, !eqString_fault, !eqInt_fault,
    !eqString_true, !eqInt_true, eqDirection_true, eqDirection_fault.
  tauto.
Qed.

Lemma Matches_withID (r : resolvedSecurityGroupRuleSpec) (o : SecurityGroupRuleStatus)
    (id : string) :
  Matches r (withID id o) = Matches r o.
Proof. reflexivity. Qed.

Lemma nilReached_not_full (r : resolvedSecurityGroupRuleSpec) (o : SecurityGroupRuleStatus) :
  full o → ¬ nilReached r o.
Proof.
  unfold full, nilReached, is_Some.
  intros ([? Hd] & [? He] & [? Hmin] & [? Hmax] & [? Hp] & [? Hg] & [? Hi]).
  rewrite Hd, He, Hmin, Hmax, Hp, Hg, Hi. intuition discriminate.
Qed.

Lemma Matches_full (r : resolvedSecurityGroupRuleSpec) (o : SecurityGroupRuleStatus) :
  full o → ∃ b : bool, Matches r o = Done b.
Proof.
  intros Hfull. destruct (Matches r o) as [b|] eqn:E; [by exists b|].
  apply Matches_fault in E. by apply nilReached_not_full in E.
Qed.


Lemma full_convert (rule : SecGroupRule) :
  full (convertOSSecGroupRuleToConfigSecGroupRule rule).
Proof. unfold full; simpl. repeat split; eauto. Qed.

Lemma convert_statusOf (rule : SecGroupRule) :
  convertOSSecGroupRuleToConfigSecGroupRule rule = statusOf (os_ID rule) (wireSpec rule).
Proof. reflexivity. Qed.

(** ** The diff loops: lemmas *)

Section Diff.
Variable observedID : string.



Lemma firstMatch_None (r : resolvedSecurityGroupRuleSpec)
    (observedRules : list SecurityGroupRuleStatus) :
  firstMatch r observedRules = Done None →
  Forall (λ o, Matches r o = Done false) observedRules.
Proof.
  induction observedRules as [|x rest IH]; simpl; [constructor|].
  destruct (Matches r x) as [[|]|] eqn:E; simpl; try discriminate.
  intros H. constructor; auto.
Qed.

Lemma firstMatch_total (r : resolvedSecurityGroupRuleSpec)
    (observedRules : list SecurityGroupRuleStatus) :
  Forall full observedRules →
  ∃ found, firstMatch r observedRules = Done found.
Proof.
  induction 1 as [|x rest Hx _ IH]; simpl; [eauto|].
  destruct (Matches_full r x Hx) as [[|] ->]; simpl; eauto.
Qed.


Lemma matchedByDesired_total (desiredRules : list resolvedSecurityGroupRuleSpec)
    (o : SecurityGroupRuleStatus) :
  full o → ∃ b : bool, matchedByDesired observedID desiredRules o = Done b.
Proof.
  intros Ho. induction desiredRules as [|d rest IH]; simpl; [eauto|].
  destruct (Matches_full (resolveSelf observedID d) o Ho) as [[|] ->]; simpl; eauto.
Qed.


Lemma matchedByDesired_true (desiredRules : list resolvedSecurityGroupRuleSpec)
    (o : SecurityGroupRuleStatus) :
  matchedByDesired observedID desiredRules o = Done true →
  ∃ d, In d desiredRules ∧ Matches (resolveSelf observedID d) o = Done true.
Proof.
  induction desiredRules as [|x rest IH]; simpl; [discriminate|].
  destruct (Matches (resolveSelf observedID x) o) as [[|]|] eqn:E; simpl;
    [| |discriminate].
  - intros _. exists x. auto.
  - intros H. destruct (IH H) as (d & Hin & Hd). exists d. auto.
Qed.

Lemma matchedByDesired_false (desiredRules : list resolvedSecurityGroupRuleSpec)
    (o : SecurityGroupRuleStatus) :
  matchedByDesired observedID desiredRules o = Done false →
  Forall (λ d, Matches (resolveSelf observedID d) o = Done false) desiredRules.
Proof.
  induction desiredRules as [|x rest IH]; simpl; [constructor|].
  destruct (Matches (resolveSelf observedID x) o) as [[|]|] eqn:E; simpl;
    try discriminate.
  intros H. constructor; auto.
Qed.

Lemma rulesToDeleteOf_total (desiredRules : list resolvedSecurityGroupRuleSpec)
    (observedRules : list SecurityGroupRuleStatus) :
  Forall full observedRules →
  ∃ rulesToDelete, rulesToDeleteOf observedID desiredRules observedRules = Done rulesToDelete.
Proof.
  induction 1 as [|x rest Hx _ [tl IH]]; simpl; [eauto|].
  destruct (matchedByDesired_total desiredRules x Hx) as [b ->]; simpl.
  rewrite IH; simpl. eauto.
Qed.


(** The deletion set: the IDs of the observed rules that no desired
    rule matches, in the order of the observed rules. *)
Lemma rulesToDeleteOf_spec (desiredRules : list resolvedSecurityGroupRuleSpec)
    (observedRules : list SecurityGroupRuleStatus) (rulesToDelete : list string) :
  rulesToDeleteOf observedID desiredRules observedRules = Done rulesToDelete →
  ∃ doomed : list SecurityGroupRuleStatus,
    rulesToDelete = map rs_ID doomed ∧ sublist doomed observedRules ∧
    Forall (λ o, Forall (λ d, Matches (resolveSelf observedID d) o = Done false) desiredRules) doomed ∧
    ∀ o, In o observedRules → In o doomed ∨
         ∃ d, In d desiredRules ∧ Matches (resolveSelf observedID d) o = Done true.
Proof.
  revert rulesToDelete.
  induction observedRules as [|x rest IH]; simpl; intros rulesToDelete.
  - intros [= <-]. exists []. repeat split; [constructor|constructor|tauto].
  - destruct (matchedByDesired observedID desiredRules x) as [keep|] eqn:E; simpl;
      [|discriminate].
    destruct (rulesToDeleteOf observedID desiredRules rest) as [tl|]; simpl;
      [|discriminate].
    destruct (IH tl eq_refl) as (doomed & -> & Hsub & Hall & Hcov).
    intros [= <-]. destruct keep.
    + exists doomed. repeat split; [by constructor | done |].
      intros o [<-|Hin]; [right; by apply matchedByDesired_true | auto].
    + exists (x :: doomed). repeat split; [by constructor | |].
      * constructor; [by apply matchedByDesired_false | done].
      * intros o [<-|Hin]; [left; by left|].
        destruct (Hcov o Hin) as [?|?]; [left; by right | by right].
Qed.

Lemma rulesToCreateOf_total (observedRules : list SecurityGroupRuleStatus)
    (desiredRules : list resolvedSecurityGroupRuleSpec) :
  Forall full observedRules →
  ∃ split, rulesToCreateOf observedID observedRules desiredRules = Done split.
Proof.
  intros Hfull. induction desiredRules as [|d rest [tl IH]]; simpl; [eauto|].
  destruct (firstMatch_total (resolveSelf observedID d) observedRules Hfull) as [found ->].
  simpl. rewrite IH; simpl. eauto.
Qed.

(** The creation set and the carried rules: every desired rule goes to
    exactly one side, the matched ones with the first observed rule
    they match. *)
Lemma rulesToCreateOf_spec (observedRules : list SecurityGroupRuleStatus)
    (desiredRules rulesToCreate : list resolvedSecurityGroupRuleSpec)
    (carried : list SecurityGroupRuleStatus) :
  rulesToCreateOf observedID observedRules desiredRules = Done (rulesToCreate, carried) →
  ∃ matched : list resolvedSecurityGroupRuleSpec,
    desiredRules ≡ₚ matched ++ rulesToCreate ∧
    Forall2 (λ d o, firstMatch (resolveSelf observedID d) observedRules = Done (Some o)) matched carried ∧
    Forall (λ d, firstMatch (resolveSelf observedID d) observedRules = Done None) rulesToCreate.
Proof.
  revert rulesToCreate carried.
  induction desiredRules as [|d rest IH]; simpl; intros rulesToCreate carried.
  - intros [= <- <-]. exists []. repeat split; constructor.
  - destruct (firstMatch (resolveSelf observedID d) observedRules) as [found|] eqn:E;
      simpl; [|discriminate].
    destruct (rulesToCreateOf observedID observedRules rest) as [[cs cr]|]; simpl;
      [|discriminate].
    destruct (IH cs cr eq_refl) as (matched & Hperm & Hm & Hc).
    destruct found as [o|]; intros [= <- <-].
    + exists (d :: matched). repeat split; [|by constructor|done].
      simpl. by constructor.
    + exists matched. repeat split; [|done|by constructor].
      rewrite Hperm. apply Permutation_middle.
Qed.


Lemma rulesToCreateOf_length (observedRules : list SecurityGroupRuleStatus)
    (desiredRules rulesToCreate : list resolvedSecurityGroupRuleSpec)
    (carried : list SecurityGroupRuleStatus) :
  rulesToCreateOf observedID observedRules desiredRules = Done (rulesToCreate, carried) →
  length desiredRules = length rulesToCreate + length carried.
Proof.
  intros H. destruct (rulesToCreateOf_spec _ _ _ _ H) as (matched & Hperm & Hm & _).
  rewrite Hperm, length_app. apply Forall2_length in Hm. lia.
Qed.

End Diff.

(** ** Runs of the service: lemmas *)

Section Runs.
Context {C : Type} `{!Client C}.
Implicit Types w : World C.

Lemma bind_run {A B : Type} (m : M C A) (f : A → M C B) w :
  (m ≫= f) w =
  match m w with
  | (Done a, w') => f a w'
  | (Fault, w') => (Fault, w')
  end.
Proof. reflexivity. Qed.

Lemma logged_run {A : Type} (c : Call) (failed : A → option error) (op : C → A * C) w :
  logged c failed op w =
  (Done (op (cloud w)).1,
   {| cloud := (op (cloud w)).2;
      trace := trace w ++ [{| call := c; failure := failed (op (cloud w)).1 |}] |}).
Proof. unfold logged. by destruct (op (cloud w)). Qed.

(** The fetch makes one list call, never panics and never returns a nil
    pointer; the rules it returns have no nil field. *)
Lemma getSecurityGroupByName_run (name : string) w :
  ∃ (g : SecurityGroupStatus) (err failed : option error) w',
    getSecurityGroupByName name w = (Done (Some g, err), w') ∧
    trace w' = trace w ++ [listEvent name failed] ∧
    Forall full (gs_Rules g) ∧
    (failed = None → err = None ∨
       err = Some ("more than one security group found named: " +:+ name)) ∧
    (∀ e, failed = Some e → err = Some e).
Proof.
  unfold getSecurityGroupByName, client_ListSecGroup.
  rewrite bind_run, logged_run.
  destruct (ListSecGroup {| lo_Name := name |} (cloud w)) as [[gs|e] c']; simpl.
  - destruct gs as [|g [|g' rest]]; simpl.
    + eexists _, _, None, _. repeat split; eauto; discriminate.
    + eexists _, _, None, _. repeat split; eauto; try discriminate; simpl.
      apply List.Forall_map, List.Forall_forall. intros rule _. apply full_convert.
    + eexists _, _, None, _. repeat split; eauto; discriminate.
  - eexists _, _, (Some e), _. repeat split; eauto; discriminate.
Qed.

Lemma deleteLoop_run (rulesToDelete : list string) w :
  ∃ (err : option error) (evs : list Event) w',
    deleteLoop rulesToDelete w = (Done err, w') ∧
    trace w' = trace w ++ evs ∧
    match err with
    | None => evs = map succeeded (deleteCalls rulesToDelete)
    | Some e =>
        ∃ (before : list string) (id : string) (after : list string),
          rulesToDelete = before ++ id :: after ∧
          evs = map succeeded (deleteCalls before) ++
                [{| call := CallDeleteSecGroupRule id; failure := Some e |}]
    end.
Proof.
  revert w. induction rulesToDelete as [|rule rest IH]; intros w.
  - exists None, [], w. simpl. by rewrite app_nil_r.
  - simpl. unfold client_DeleteSecGroupRule. rewrite bind_run, logged_run.
    destruct (DeleteSecGroupRule rule (cloud w)) as [[e|] c']; simpl.
    + eexists (Some e), _, _. split; [done|]. split; [done|].
      by exists [], rule, rest.
    + match goal with |- context [deleteLoop rest ?w1] =>
        destruct (IH w1) as (err & evs & w' & Hrun & Htr & Hshape) end.
      rewrite Hrun. simpl in Htr. rewrite <- app_assoc in Htr.
      eexists err, _, w'. split; [done|]. split; [done|].
      destruct err as [e|].
      * destruct Hshape as (before & id & after & -> & ->).
        by exists (rule :: before), id, after.
      * by rewrite Hshape.
Qed.

Lemma createLoop_run (observedID : string)
    (rulesToCreate : list resolvedSecurityGroupRuleSpec)
    (reconciledRules : list SecurityGroupRuleStatus) w :
  ∃ (rules : list SecurityGroupRuleStatus) (err : option error)
    (evs : list Event) w',
    createLoop observedID rulesToCreate reconciledRules w = (Done (rules, err), w') ∧
    trace w' = trace w ++ evs ∧
    match err with
    | None =>
        evs = map succeeded (createCalls observedID rulesToCreate) ∧
        ∃ wire : list SecGroupRule,
          Forall2 (createdBy observedID) rulesToCreate wire ∧
          rules = reconciledRules ++ map convertOSSecGroupRuleToConfigSecGroupRule wire
    | Some e =>
        ∃ (before : list resolvedSecurityGroupRuleSpec)
          (d : resolvedSecurityGroupRuleSpec)
          (after : list resolvedSecurityGroupRuleSpec),
          rulesToCreate = before ++ d :: after ∧
          evs = map succeeded (createCalls observedID before) ++
                map (λ c, {| call := c; failure := Some e |}) (createCalls observedID [d])
    end.
Proof.
  revert reconciledRules w.
  induction rulesToCreate as [|rule rest IH]; intros reconciledRules w.
  - exists reconciledRules, None, [], w. simpl. rewrite app_nil_r.
    split; [done|]. split; [done|]. split; [done|].
    exists []. split; [constructor | by rewrite app_nil_r].
  - simpl. unfold createRule, client_CreateSecGroupRule.
    rewrite !bind_run, logged_run.
    destruct (CreateSecGroupRule _ (cloud w)) as [[wired|e] c'] eqn:Hcall; simpl.
    + match goal with |- context [createLoop observedID rest ?acc ?w1] =>
        destruct (IH acc w1) as (rules & err & evs & w' & Hrun & Htr & Hshape) end.
      rewrite Hrun. simpl in Htr. rewrite <- app_assoc in Htr.
      eexists rules, err, _, w'. split; [done|]. split; [done|].
      destruct err as [e|].
      * destruct Hshape as (before & d & after & -> & ->).
        by exists (rule :: before), d, after.
      * destruct Hshape as (-> & wire & Hwire & ->). split; [done|].
        exists (wired :: wire). split.
        -- constructor; [by exists (cloud w), c' | done].
        -- by rewrite <- app_assoc.
    + eexists reconciledRules, (Some e), _, _. split; [done|]. split; [done|].
      by exists [], rule, rest.
Qed.

Lemma statusWith_run (observed : SecurityGroupStatus)
    (reconciledRules : list SecurityGroupRuleStatus) w :
  (if (length reconciledRules =? 0)%nat
   then mret (M := M C) (emptyStatus, @None error)
   else mret ({| gs_ID := gs_ID observed; gs_Name := gs_Name observed;
                 gs_Rules := reconciledRules |}, None)) w =
  (Done (statusWith observed reconciledRules, None), w).
Proof. by destruct reconciledRules. Qed.

(** What a pass that returns has done: the two sets it computed, the
    calls it logged and the status it returned. *)
Lemma reconcileGroupRules_inv (desired : securityGroupSpec)
    (observed st : SecurityGroupStatus) (err : option error) w w' :
  reconcileGroupRules desired observed w = (Done (st, err), w') →
  ∃ (rulesToDelete : list string)
    (rulesToCreate : list resolvedSecurityGroupRuleSpec)
    (carried : list SecurityGroupRuleStatus) (evs : list Event),
    rulesToDeleteOf (gs_ID observed) (Rules desired) (gs_Rules observed) =
      Done rulesToDelete ∧
    rulesToCreateOf (gs_ID observed) (gs_Rules observed) (Rules desired) =
      Done (rulesToCreate, carried) ∧
    trace w' = trace w ++ evs ∧
    match err with
    | None =>
        evs = map succeeded (plannedCalls (gs_ID observed) rulesToDelete rulesToCreate) ∧
        ∃ wire : list SecGroupRule,
          Forall2 (createdBy (gs_ID observed)) rulesToCreate wire ∧
          st = statusWith observed
                 (carried ++ map convertOSSecGroupRuleToConfigSecGroupRule wire)
    | Some e =>
        st = emptyStatus ∧
        ∃ (before : list Call) (c : Call) (after : list Call),
          plannedCalls (gs_ID observed) rulesToDelete rulesToCreate =
            before ++ c :: after ∧
          evs = map succeeded before ++ [{| call := c; failure := Some e |}]
    end.
Proof.
  unfold reconcileGroupRules. rewrite !bind_run. unfold liftO at 1.
  destruct (rulesToDeleteOf _ _ _) as [rulesToDelete|]; [|discriminate].
  rewrite bind_run. unfold liftO at 1.
  destruct (rulesToCreateOf _ _ _) as [[rulesToCreate carried]|]; [|discriminate].
  cbn [fst snd]. rewrite bind_run.
  destruct (deleteLoop_run rulesToDelete w) as (err1 & evs1 & w1 & Hrun1 & Htr1 & Hshape1).
  rewrite Hrun1. destruct err1 as [e1|].
  - intros [= <- <- <-]. exists rulesToDelete, rulesToCreate, carried, evs1.
    split; [done|]. split; [done|]. split; [done|]. split; [done|].
    destruct Hshape1 as (before & id & after & -> & ->).
    exists (deleteCalls before), (CallDeleteSecGroupRule id),
      (deleteCalls after ++ createCalls (gs_ID observed) rulesToCreate).
    split; [|done]. unfold plannedCalls, deleteCalls.
    by rewrite map_app, <- app_assoc.
  - rewrite bind_run.
    destruct (createLoop_run (gs_ID observed) rulesToCreate carried w1)
      as (rules & err2 & evs2 & w2 & Hrun2 & Htr2 & Hshape2).
    rewrite Hrun2. cbn [fst snd]. subst evs1.
    rewrite Htr1, <- app_assoc in Htr2.
    destruct err2 as [e2|].
    + intros [= <- <- <-]. exists rulesToDelete, rulesToCreate, carried.
      eexists. split; [done|]. split; [done|]. split; [exact Htr2|]. split; [done|].
      destruct Hshape2 as (before & d & after & -> & ->).
      exists (deleteCalls rulesToDelete ++ createCalls (gs_ID observed) before).
      eexists. exists (createCalls (gs_ID observed) after).
      unfold plannedCalls, createCalls. simpl.
      rewrite !map_app, <- !app_assoc. by split.
    + rewrite statusWith_run. intros [= <- <- <-].
      exists rulesToDelete, rulesToCreate, carried.
      eexists. split; [done|]. split; [done|]. split; [exact Htr2|].
      destruct Hshape2 as (-> & wire & Hwire & ->).
      split; [by rewrite <- map_app|]. by exists wire.
Qed.

(** A pass over observed rules without nil fields returns. *)
Lemma reconcileGroupRules_total (desired : securityGroupSpec)
    (observed : SecurityGroupStatus) w :
  Forall full (gs_Rules observed) →
  ∃ (st : SecurityGroupStatus) (err : option error) w',
    reconcileGroupRules desired observed w = (Done (st, err), w').
Proof.
  intros Hfull. unfold reconcileGroupRules. rewrite !bind_run. unfold liftO at 1.
  destruct (rulesToDeleteOf_total (gs_ID observed) (Rules desired) _ Hfull) as [dels ->].
  rewrite bind_run. unfold liftO at 1.
  destruct (rulesToCreateOf_total (gs_ID observed) _ (Rules desired) Hfull) as [[cs cr] ->].
  cbn [fst snd]. rewrite bind_run.
  destruct (deleteLoop_run dels w) as (err1 & evs1 & w1 & -> & _ & _).
  destruct err1 as [e1|]; [by eexists _, _, _|].
  rewrite bind_run.
  destruct (createLoop_run (gs_ID observed) cs cr w1) as (rules & err2 & evs2 & w2 & -> & _ & _).
  cbn [fst snd]. destruct err2 as [e2|]; [by eexists _, _, _|].
  destruct (length rules =? 0)%nat; by eexists _, _, _.
Qed.

End Runs.

(** ** Convergence, idempotence and the empty result *)


Lemma Forall2_In_left {A B : Type} (P : A → B → Prop) (l : list A) (k : list B) (x : A) :
  Forall2 P l k → In x l → ∃ y, In y k ∧ P x y.
Proof.
  induction 1 as [|a b l k Hab _ IH]; simpl; [tauto|].
  intros [->|Hin]; [by eauto|]. destruct (IH Hin) as (y & ? & ?). eauto.
Qed.



Lemma gs_Rules_statusWith (observed : SecurityGroupStatus)
    (reconciledRules : list SecurityGroupRuleStatus) :
  gs_Rules (statusWith observed reconciledRules) = reconciledRules.
Proof. by destruct reconciledRules. Qed.


Section Reconcile.
Context {C : Type} `{!Client C}.
Implicit Types w : World C.



End Reconcile.

Section ReconcileClaims.
Context {C : Type} `{!Client C}.
Implicit Types w : World C.



(** C6.  A pass that ends without error ends with the rules it carried
    over followed by the rules the provider created; when that list is
    empty it returns the zero status, with empty ID and name, and not the
    observed group with no rules. *)
Theorem reconcileGroupRules_empty (desired : securityGroupSpec)
    (observed st : SecurityGroupStatus) w w' :
  reconcileGroupRules desired observed w = (Done (st, None), w') →
  ∃ (rulesToCreate : list resolvedSecurityGroupRuleSpec)
    (carried : list SecurityGroupRuleStatus) (wire : list SecGroupRule),
    rulesToCreateOf (gs_ID observed) (gs_Rules observed) (Rules desired) =
      Done (rulesToCreate, carried) ∧
    Forall2 (createdBy (gs_ID observed)) rulesToCreate wire ∧
    let reconciledRules :=
      carried ++ map convertOSSecGroupRuleToConfigSecGroupRule wire in
    gs_Rules st = reconciledRules ∧
    (reconciledRules = [] → st = emptyStatus) ∧
    (reconciledRules ≠ [] →
       st = {| gs_ID := gs_ID observed; gs_Name := gs_Name observed;
               gs_Rules := reconciledRules |}).
Proof.
  intros Hrun.
  destruct (reconcileGroupRules_inv _ _ _ _ _ _ Hrun)
    as (dels & cs & carried & evs & _ & Hcs & _ & _ & wire & Hwire & ->).
  exists cs, carried, wire. split; [done|]. split; [done|].
  cbn zeta. rewrite gs_Rules_statusWith. split; [done|].
  destruct (carried ++ _); split; done.
Qed.

End ReconcileClaims.

(** ** Self reference, and the order of the calls *)

Lemma resolveSelf_self (g : string) (d : resolvedSecurityGroupRuleSpec) :
  RemoteGroupID d = remoteGroupIDSelf → RemoteGroupID (resolveSelf g d) = g.
Proof. unfold resolveSelf. intros ->. reflexivity. Qed.

Lemma resolveSelf_not_self (g : string) (d : resolvedSecurityGroupRuleSpec) :
  g ≠ remoteGroupIDSelf → RemoteGroupID (resolveSelf g d) ≠ remoteGroupIDSelf.
Proof.
  unfold resolveSelf. intros Hg.
  destruct (String.eqb_spec (RemoteGroupID d) remoteGroupIDSelf); simpl; done.
Qed.

Lemma resolveSelf_fields (g : string) (d : resolvedSecurityGroupRuleSpec) :
  Description (resolveSelf g d) = Description d ∧
  Direction (resolveSelf g d) = Direction d ∧
  EtherType (resolveSelf g d) = EtherType d ∧
  PortRangeMin (resolveSelf g d) = PortRangeMin d ∧
  PortRangeMax (resolveSelf g d) = PortRangeMax d ∧
  Protocol (resolveSelf g d) = Protocol d ∧
  RemoteIPPrefix (resolveSelf g d) = RemoteIPPrefix d.
Proof. unfold resolveSelf. destruct (String.eqb _ _); simpl; tauto. Qed.

Lemma in_createCalls (g : string) (rulesToCreate : list resolvedSecurityGroupRuleSpec)
    (c : Call) :
  In c (createCalls g rulesToCreate) ↔
  ∃ d, In d rulesToCreate ∧ c = CallCreateSecGroupRule (createOptsOf g (resolveSelf g d)).
Proof.
  unfold createCalls. rewrite in_map_iff. split; intros (d & ? & ?); eauto.
Qed.

Lemma in_plannedCalls_create (g : string) (rulesToDelete : list string)
    (rulesToCreate : list resolvedSecurityGroupRuleSpec) (opts : RuleCreateOpts) :
  In (CallCreateSecGroupRule opts) (plannedCalls g rulesToDelete rulesToCreate) →
  ∃ d, In d rulesToCreate ∧ opts = createOptsOf g (resolveSelf g d).
Proof.
  unfold plannedCalls. intros [Hin|Hin]%in_app_or.
  - unfold deleteCalls in Hin. apply in_map_iff in Hin as (? & ? & _). discriminate.
  - apply in_createCalls in Hin as (d & ? & [= ->]). eauto.
Qed.

Lemma call_succeeded (plan : list Call) : map call (map succeeded plan) = plan.
Proof. induction plan; simpl; congruence. Qed.

(** The calls a pass has logged are an initial part of its plan. *)
Lemma logged_planned (evs : list Event) (plan : list Call) (err : option error) :
  (err = None → evs = map succeeded plan) →
  (∀ e, err = Some e →
     ∃ before c after, plan = before ++ c :: after ∧
       evs = map succeeded before ++ [{| call := c; failure := Some e |}]) →
  map call evs `prefix_of` plan.
Proof.
  intros Hok Hfail. destruct err as [e|].
  - destruct (Hfail e eq_refl) as (before & c & after & -> & ->). exists after.
    rewrite map_app, call_succeeded. simpl. by rewrite <- app_assoc.
  - rewrite (Hok eq_refl), call_succeeded. done.
Qed.

(** A plan cut after a create call: every deletion comes before the cut. *)
Lemma deletions_first (g : string) (rulesToDelete : list string)
    (rulesToCreate : list resolvedSecurityGroupRuleSpec)
    (before after : list Call) (c : Call) (opts : RuleCreateOpts) :
  plannedCalls g rulesToDelete rulesToCreate = before ++ c :: after →
  In (CallCreateSecGroupRule opts) (before ++ [c]) →
  ∃ created : list Call,
    before = deleteCalls rulesToDelete ++ created ∧
    (created ++ [c]) `prefix_of` createCalls g rulesToCreate.
Proof.
  unfold plannedCalls, deleteCalls. revert before.
  induction rulesToDelete as [|id rest IH]; simpl; intros before Hplan Hin.
  - exists before. split; [done|]. exists after. by rewrite Hplan, <- app_assoc.
  - destruct before as [|b before]; simpl in *.
    + injection Hplan as <- _. destruct Hin as [?|[]]. discriminate.
    + injection Hplan as <- Hplan. destruct Hin as [?|Hin]; [discriminate|].
      destruct (IH before Hplan Hin) as (created & -> & Hpre). by exists created.
Qed.

Section CallClaims.
Context {C : Type} `{!Client C}.
Implicit Types w : World C.

(** C7.  For a desired rule [d] whose remote group is [self] and an
    observed group of ID [g]: the comparison made for [d] says yes on an
    observed rule exactly when the remote group of that rule is [g] and
    its seven other fields are those of [d]; the provider ID of the
    observed rule has no part in it; every create call of a pass is made
    for a desired rule, in the group [g], with [self] replaced by [g], so
    that it carries the literal [self] only if [g] is that very string;
    and a pass that ends without error has made that call for [d] when no
    observed rule matched [d]. *)
Theorem self_reference_resolved (d : resolvedSecurityGroupRuleSpec) (g : string) :
  RemoteGroupID d = remoteGroupIDSelf →
  (∀ o : SecurityGroupRuleStatus,
     Matches (resolveSelf g d) o = Done true ↔
     rs_RemoteGroupID o = Some g ∧
     rs_Description o = Some (Description d) ∧ rs_Direction o = Direction d ∧
     rs_EtherType o = Some (EtherType d) ∧
     rs_PortRangeMin o = Some (PortRangeMin d) ∧
     rs_PortRangeMax o = Some (PortRangeMax d) ∧
     rs_Protocol o = Some (Protocol d) ∧
     rs_RemoteIPPrefix o = Some (RemoteIPPrefix d)) ∧
  (∀ (o : SecurityGroupRuleStatus) (id : string),
     Matches (resolveSelf g d) (withID id o) = Matches (resolveSelf g d) o) ∧
  co_RemoteGroupID (createOptsOf g (resolveSelf g d)) = g ∧
  ∀ (desired : securityGroupSpec) (observed st : SecurityGroupStatus)
    (err : option error) w w',
    gs_ID observed = g →
    reconcileGroupRules desired observed w = (Done (st, err), w') →
    ∃ evs : list Event,
      trace w' = trace w ++ evs ∧
      (∀ ev opts, In ev evs → call ev = CallCreateSecGroupRule opts →
         co_SecGroupID opts = g ∧
         ∃ d', In d' (Rules desired) ∧
           opts = createOptsOf g (resolveSelf g d') ∧
           (RemoteGroupID d' = remoteGroupIDSelf → co_RemoteGroupID opts = g) ∧
           (co_RemoteGroupID opts = remoteGroupIDSelf → g = remoteGroupIDSelf)) ∧
      (err = None → In d (Rules desired) →
         firstMatch (resolveSelf g d) (gs_Rules observed) = Done None →
         In (succeeded (CallCreateSecGroupRule (createOptsOf g (resolveSelf g d)))) evs).
Proof.
  intros Hself. split; [|split; [|split]].
  - intros o. rewrite Matches_true, statusOf_fields.
    destruct (resolveSelf_fields g d) as (-> & -> & -> & -> & -> & -> & ->).
    rewrite (resolveSelf_self g d Hself). tauto.
  - intros o id. apply Matches_withID.
  - simpl. by apply resolveSelf_self.
  - intros desired observed st err w w' <- Hrun.
    destruct (reconcileGroupRules_inv _ _ _ _ _ _ Hrun)
      as (dels & cs & carried & evs & _ & Hcs & Htr & Hshape).
    destruct (rulesToCreateOf_spec _ _ _ _ _ Hcs) as (matched & Hperm & Hm & Hnone).
    exists evs. split; [done|]. split.
    + intros ev opts Hin Hcall.
      assert (Hplan : In (call ev) (plannedCalls (gs_ID observed) dels cs)).
      { assert (Hpre : map call evs `prefix_of` plannedCalls (gs_ID observed) dels cs).
        { apply (logged_planned _ _ err).
          - intros ->. by destruct Hshape.
          - intros e ->. by destruct Hshape. }
        destruct Hpre as [rest ->]. apply in_or_app. left. by apply in_map. }
      rewrite Hcall in Hplan.
      apply in_plannedCalls_create in Hplan as (d' & Hd' & ->).
      split; [done|]. exists d'. split; [|split; [done|split]].
      * apply (Permutation_in _ (Permutation_sym Hperm)), in_or_app. by right.
      * intros Hs. simpl. by apply resolveSelf_self.
      * simpl. intros Hs. destruct (decide (gs_ID observed = remoteGroupIDSelf)); [done|].
        by apply (resolveSelf_not_self _ d') in n.
    + intros -> Hin Hfirst. destruct Hshape as (-> & _).
      apply in_map. unfold plannedCalls. apply in_or_app. right.
      apply in_createCalls. exists d. split; [|done].
      apply (Permutation_in _ Hperm), in_app_or in Hin as [Hin|Hin]; [|done].
      destruct (Forall2_In_left _ _ _ _ Hm Hin) as (o & _ & Ho). congruence.
Qed.

(** C8.  The calls of a pass are logged in this order: the deletion of
    every rule of the deletion set, then the creation of every rule of
    the creation set.  A pass that ends without error has made all of
    them, each with success.  A pass that ends with an error has made an
    initial part of them with success and then the call that failed, whose
    error it returns with the zero status; it has made no call after it
    and no call that is not of the plan.  Whenever a create call is
    logged, every deletion was made before it, with success. *)
Theorem reconcileGroupRules_ordering (desired : securityGroupSpec)
    (observed st : SecurityGroupStatus) (err : option error) w w' :
  reconcileGroupRules desired observed w = (Done (st, err), w') →
  ∃ (rulesToDelete : list string)
    (rulesToCreate : list resolvedSecurityGroupRuleSpec)
    (carried : list SecurityGroupRuleStatus) (evs : list Event),
    rulesToDeleteOf (gs_ID observed) (Rules desired) (gs_Rules observed) =
      Done rulesToDelete ∧
    rulesToCreateOf (gs_ID observed) (gs_Rules observed) (Rules desired) =
      Done (rulesToCreate, carried) ∧
    trace w' = trace w ++ evs ∧
    let plan := deleteCalls rulesToDelete ++
                createCalls (gs_ID observed) rulesToCreate in
    map call evs `prefix_of` plan ∧
    (err = None → evs = map succeeded plan) ∧
    (∀ e, err = Some e →
       st = emptyStatus ∧
       ∃ before c after, plan = before ++ c :: after ∧
         evs = map succeeded before ++ [{| call := c; failure := Some e |}]) ∧
    (∀ ev opts, In ev evs → call ev = CallCreateSecGroupRule opts →
       ∃ rest, evs = map succeeded (deleteCalls rulesToDelete) ++ rest ∧
               map call rest `prefix_of` createCalls (gs_ID observed) rulesToCreate).
Proof.
  intros Hrun.
  destruct (reconcileGroupRules_inv _ _ _ _ _ _ Hrun)
    as (dels & cs & carried & evs & Hdels & Hcs & Htr & Hshape).
  exists dels, cs, carried, evs. repeat (split; [done|]). cbn zeta.
  fold (plannedCalls (gs_ID observed) dels cs).
  assert (Hok : err = None → evs = map succeeded (plannedCalls (gs_ID observed) dels cs)).
  { intros ->. by destruct Hshape. }
  assert (Hfail : ∀ e, err = Some e →
            st = emptyStatus ∧
            ∃ before c after,
              plannedCalls (gs_ID observed) dels cs = before ++ c :: after ∧
              evs = map succeeded before ++ [{| call := c; failure := Some e |}]).
  { intros e ->. done. }
  split; [apply (logged_planned _ _ err); [done|]; intros e He; by apply Hfail|].
  split; [done|]. split; [done|].
  intros ev opts Hin Hcall. destruct err as [e|].
  - destruct (Hfail e eq_refl) as (_ & before & c & after & Hplan & ->).
    assert (Hc : In (CallCreateSecGroupRule opts) (before ++ [c])).
    { rewrite <- Hcall. apply in_app_or in Hin as [Hin|[<-|[]]].
      - apply in_or_app. left. apply in_map_iff in Hin as (x & <- & ?). done.
      - apply in_or_app. right. by left. }
    destruct (deletions_first _ _ _ _ _ _ _ Hplan Hc) as (created & -> & Hpre).
    exists (map succeeded created ++ [{| call := c; failure := Some e |}]).
    split; [by rewrite map_app, <- app_assoc|].
    by rewrite map_app, call_succeeded.
  - rewrite (Hok eq_refl). unfold plannedCalls. rewrite map_app.
    eexists. split; [done|]. by rewrite call_succeeded.
Qed.

End CallClaims.

(** ** The fetch, the lifecycle of a group, and nil pointers *)

Section FetchClaims.
Context {C : Type} `{!Client C}.
Implicit Types w : World C.


(** C9.  When the fetch by name returns without error a group with a
    non-empty ID, [createSecurityGroupIfNotExists] returns no error in the
    world the fetch left: the list call is the only call it has made.
    When the fetch returns without error a group with an empty ID,
    [deleteSecurityGroup] returns no error in the world the fetch left. *)
Theorem group_lifecycle_idempotent (openStackCluster : OpenStackCluster)
    (name : string) (g : SecurityGroupStatus) w w1 :
  getSecurityGroupByName name w = (Done (Some g, None), w1) →
  trace w1 = trace w ++ [listEvent name None] ∧
  (gs_ID g ≠ "" →
     createSecurityGroupIfNotExists openStackCluster name w = (Done None, w1)) ∧
  (gs_ID g = "" →
     deleteSecurityGroup openStackCluster name w = (Done None, w1)).
Proof.
  intros Hfetch. split; [|split].
  - destruct (getSecurityGroupByName_run name w)
      as (g' & err & failed & w' & Hrun & Htr & _ & _ & Hfailed).
    rewrite Hfetch in Hrun. injection Hrun as <- <- <-.
    destruct failed as [e|]; [|done]. by specialize (Hfailed e eq_refl).
  - intros Hid. unfold createSecurityGroupIfNotExists.
    rewrite bind_run, Hfetch. cbn [fst snd absent].
    apply String.eqb_neq in Hid. by rewrite Hid.
  - intros Hid. unfold deleteSecurityGroup.
    rewrite bind_run, Hfetch. cbn [fst snd]. rewrite bind_run.
    unfold liftO, deref. by rewrite Hid.
Qed.

(** C10, as amended.  [Matches] evaluates its comparisons from left to
    right and stops at the first that fails: it panics exactly when it
    reaches a nil pointer of the observed rule, that is when all the
    fields before that pointer agree.  A rule converted from the wire
    format has no nil pointer, so [Matches] returns on it; the rules of a
    group fetched by [getSecurityGroupByName] have none either, and
    [reconcileGroupRules] on such a group returns, whatever the desired
    group and the world. *)
Theorem Matches_partial_fetch_safe :
  (∀ r o, Matches r o = Fault ↔ nilReached r o) ∧
  (∀ rule, full (convertOSSecGroupRuleToConfigSecGroupRule rule)) ∧
  (∀ r rule, ∃ b : bool,
     Matches r (convertOSSecGroupRuleToConfigSecGroupRule rule) = Done b) ∧
  (∀ (name : string) w,
     ∃ g err w', getSecurityGroupByName name w = (Done (Some g, err), w') ∧
       Forall full (gs_Rules g) ∧
       ∀ (desired : securityGroupSpec) (w2 : World C),
         ∃ st err' w3, reconcileGroupRules desired g w2 = (Done (st, err'), w3)).
Proof.
  split; [exact Matches_fault|]. split; [exact full_convert|]. split.
  - intros r rule. apply Matches_full, full_convert.
  - intros name w.
    destruct (getSecurityGroupByName_run name w)
      as (g & err & failed & w' & Hrun & _ & Hfull & _).
    exists g, err, w'. split; [done|]. split; [done|].
    intros desired w2. by apply reconcileGroupRules_total.
Qed.

End FetchClaims.

(** ** Expansion of the templates: lemmas *)

Lemma validateLoop_None (table : gmap string string) (groups : list string) :
  validateLoop table groups = None ↔ Forall (λ group, is_Some (table !! group)) groups.
Proof.
  induction groups as [|group rest IH]; simpl.
  - split; [constructor|done].
  - destruct (table !! group) eqn:E.
    + rewrite IH. split; [by constructor|by inversion 1].
    + split; [done|]. inversion 1 as [|? ? [? ?]]. congruence.
Qed.

Lemma validateLoop_Some (table : gmap string string) (groups : list string) (e : error) :
  validateLoop table groups = Some e →
  ∃ group, In group groups ∧ table !! group = None ∧ e = unresolvedError group.
Proof.
  induction groups as [|group rest IH]; simpl; [done|].
  destruct (table !! group) eqn:E.
  - intros H. destruct (IH H) as (g' & ? & ? & ?). eauto.
  - intros [= <-]. eauto.
Qed.

Lemma validateRemoteManagedGroups_None (table : gmap string string) (groups : list string) :
  validateRemoteManagedGroups table groups = None ↔
  groups ≠ [] ∧ Forall (λ group, is_Some (table !! group)) groups.
Proof.
  unfold validateRemoteManagedGroups. destruct groups as [|group rest]; cbn [length Nat.eqb].
  - split; [done|]. by intros [? _].
  - rewrite validateLoop_None. split; [by split|by intros [_ ?]].
Qed.

Lemma validateRemoteManagedGroups_Some (table : gmap string string)
    (groups : list string) (e : error) :
  validateRemoteManagedGroups table groups = Some e → configError e.
Proof.
  unfold validateRemoteManagedGroups, configError.
  destruct (length groups =? 0)%nat.
  - intros [= <-]. by left.
  - intros H. apply validateLoop_Some in H as (group & _ & _ & ->). right. right. eauto.
Qed.

Lemma expandLoop_spec (table : gmap string string) (r : resolvedSecurityGroupRuleSpec)
    (groups : list string) (rules : list resolvedSecurityGroupRuleSpec) :
  expandLoop table r groups rules =
  rules ++ map (λ group, withRemoteGroupID r (default "" (table !! group))) groups.
Proof.
  revert rules. induction groups as [|group rest IH]; intros rules; simpl.
  - by rewrite app_nil_r.
  - by rewrite IH, <- app_assoc.
Qed.

Lemma accepted_dec (table : gmap string string) (t : SecurityGroupRuleSpec) :
  accepted table t ∨ ¬ accepted table t.
Proof.
  unfold accepted.
  destruct (validateRemoteManagedGroups table (t_RemoteManagedGroups t)) eqn:E.
  - right. intros (? & _ & ?).
    assert (validateRemoteManagedGroups table (t_RemoteManagedGroups t) = None)
      by (by apply validateRemoteManagedGroups_None).
    congruence.
  - apply validateRemoteManagedGroups_None in E as [? ?].
    destruct (t_RemoteGroupID t); [right|left]; [|done]. by intros (_ & ? & _).
Qed.

(** What the expansion loop returns: the rules so far followed by the
    expansion of every template when every template is accepted, and
    otherwise no rule and one of its own errors. *)
Lemma getAllNodesRulesLoop_spec (table : gmap string string)
    (templates : list SecurityGroupRuleSpec)
    (rules : list resolvedSecurityGroupRuleSpec) :
  (Forall (accepted table) templates ∧
   getAllNodesRulesLoop table templates rules =
   (rules ++ flat_map (expansion table) templates, None)) ∨
  (Exists (λ t, ¬ accepted table t) templates ∧
   ∃ e, getAllNodesRulesLoop table templates rules = ([], Some e) ∧ configError e).
Proof.
  revert rules. induction templates as [|t rest IH]; intros rules; simpl.
  - left. split; [constructor|by rewrite app_nil_r].
  - destruct (validateRemoteManagedGroups table (t_RemoteManagedGroups t)) as [e|] eqn:E.
    + right. split.
      * left. intros (Hne & _ & Hall).
        assert (validateRemoteManagedGroups table (t_RemoteManagedGroups t) = None)
          by (by apply validateRemoteManagedGroups_None).
        congruence.
      * exists e. split; [done|]. by eapply validateRemoteManagedGroups_Some.
    + apply validateRemoteManagedGroups_None in E as [Hne Hall].
      destruct (t_RemoteManagedGroups t) as [|group groups] eqn:Hgroups; [done|].
      cbn [length Nat.ltb Nat.leb].
      destruct (t_RemoteGroupID t) as [id|] eqn:Hid.
      * right. split.
        -- left. intros (_ & ? & _). congruence.
        -- eexists. split; [done|]. right. by left.
      * rewrite expandLoop_spec.
        assert (Ht : accepted table t) by (unfold accepted; by rewrite Hgroups).
        destruct (IH (rules ++
                      map (λ group0, withRemoteGroupID (templateRule t)
                                       (default "" (table !! group0)))
                        (group :: groups)))
          as [[Hrest ->]|[Hrest (e & -> & He)]].
        -- left. split; [by constructor|].
           unfold expansion at 2. rewrite Hgroups. by rewrite <- app_assoc.
        -- right. split; [by right|]. eauto.
Qed.


Lemma getAllNodesRules_rejected (table : gmap string string)
    (templates : list SecurityGroupRuleSpec) :
  Exists (λ t, ¬ accepted table t) templates →
  ∃ e, getAllNodesRules table templates = ([], Some e) ∧ configError e.
Proof.
  intros Hex. unfold getAllNodesRules.
  destruct (getAllNodesRulesLoop_spec table templates []) as [[Hall _]|[_ ?]]; [|done].
  apply Exists_exists in Hex as (t & Hin & Hnot).
  rewrite Forall_forall in Hall. by specialize (Hall t Hin).
Qed.

Lemma unresolved_not_accepted (table : gmap string string) (t : SecurityGroupRuleSpec) :
  unresolved table t → ¬ accepted table t.
Proof.
  intros (group & Hin & Hnone) (_ & _ & Hall).
  rewrite List.Forall_forall in Hall. destruct (Hall group Hin). congruence.
Qed.



(** ** The generator: lemmas *)

Section GeneratorRuns.
Context {C : Type} `{!Client C} `{!RuleTables} `{!MapOrder}.
Implicit Types w : World C.

Lemma rangeMap_keys {V : Type} (site : nat) (m : gmap string V) (k : string) :
  In k (map fst (rangeMap site m)) → is_Some (m !! k).
Proof.
  intros ((k' & v) & <- & Hin)%in_map_iff. exists v. simpl.
  apply list_elem_of_In in Hin. rewrite rangeMap_perm in Hin.
  by apply elem_of_map_to_list in Hin.
Qed.

Lemma recordGroupID_lookup (i id group : string) (ids : groupIDs) :
  remoteManagedGroups ids !! group = None →
  group ≠ i ∨ ¬ managedRole group →
  remoteManagedGroups (recordGroupID i id ids) !! group = None.
Proof.
  intros Hnone Hcase. unfold recordGroupID, managedRole in *.
  destruct (String.eqb_spec i controlPlaneSuffix) as [->|_]; simpl.
  { rewrite lookup_insert_ne; [done|]. intros <-. tauto. }
  destruct (String.eqb_spec i workerSuffix) as [->|_]; simpl.
  { rewrite lookup_insert_ne; [done|]. intros <-. tauto. }
  destruct (String.eqb_spec i bastionSuffix) as [->|_]; simpl; [|done].
  rewrite lookup_insert_ne; [done|]. intros <-. tauto.
Qed.

(** The lookup loop only lists groups; it ends with an error only when a
    list call failed or listed several groups; and it puts in the table
    no role that is not a key of the map it walks. *)
Lemma lookupLoop_run (entries : list (string * string)) (ids : groupIDs) w :
  ∃ (ids' : groupIDs) (err : option error) (evs : list Event) w',
    lookupLoop entries ids w = (Done (ids', err), w') ∧
    trace w' = trace w ++ evs ∧
    Forall (λ ev, mutating (call ev) = false) evs ∧
    (∀ e, err = Some e → Forall (λ ev, failure ev = None) evs → ambiguousError e) ∧
    (err = None → ∀ group,
       remoteManagedGroups ids !! group = None →
       ¬ In group (map fst entries) ∨ ¬ managedRole group →
       remoteManagedGroups ids' !! group = None).
Proof.
  revert ids w. induction entries as [|[i v] rest IH]; intros ids w.
  - exists ids, None, [], w. simpl. rewrite app_nil_r.
    repeat split; [constructor|done|done].
  - simpl. rewrite bind_run.
    destruct (getSecurityGroupByName_run v w)
      as (g & err & failed & w1 & -> & Htr & _ & Hok & Hfailed).
    cbn [fst snd]. destruct err as [e|].
    + exists ids, (Some e), [listEvent v failed], w1.
      split; [done|]. split; [done|]. split; [by repeat constructor|].
      split; [|done]. intros e' [= <-] Hall. inversion Hall as [|? ? Hf _]; subst.
      simpl in Hf. destruct (Hok Hf) as [?|[= ->]]; [done|]. by exists v.
    + rewrite bind_run. unfold liftO at 1, deref.
      destruct (IH (recordGroupID i (gs_ID g) ids) w1)
        as (ids' & err & evs & w' & -> & Htr' & Hmut & Hamb & Htable).
      exists ids', err, (listEvent v failed :: evs), w'.
      split; [done|]. split; [by rewrite Htr', Htr, <- app_assoc|].
      split; [by constructor|]. split.
      * intros e He Hall. inversion Hall; subst. by eapply Hamb.
      * intros He group Hnone Hcase. apply (Htable He).
        -- apply recordGroupID_lookup; [done|].
           destruct Hcase as [Hnotin|?]; [left|by right].
           intros ->. apply Hnotin. by left.
        -- destruct Hcase as [Hnotin|?]; [left|by right].
           intros ?. apply Hnotin. by right.
Qed.

(** What [generateDesiredSecGroups] has done when it returns for a
    cluster with managed security groups. *)
Lemma generateDesiredSecGroups_run (openStackCluster : OpenStackCluster)
    (managed : ManagedSecurityGroups) (secGroupNames : gmap string string) w :
  spec_ManagedSecurityGroups (Spec openStackCluster) = Some managed →
  ∃ (ids : groupIDs) (lookupErr : option error) (evs : list Event) w',
    lookupLoop (rangeMap 1 secGroupNames) noGroupIDs w = (Done (ids, lookupErr), w') ∧
    trace w' = trace w ++ evs ∧
    Forall (λ ev, mutating (call ev) = false) evs ∧
    (∀ e, lookupErr = Some e → Forall (λ ev, failure ev = None) evs → ambiguousError e) ∧
    (lookupErr = None → ∀ group,
       secGroupNames !! group = None ∨ ¬ managedRole group →
       remoteManagedGroups ids !! group = None) ∧
    generateDesiredSecGroups openStackCluster secGroupNames w =
    (Done (match lookupErr with
           | Some e => (∅, Some e)
           | None => generateFrom openStackCluster managed secGroupNames ids
           end), w').
Proof.
  intros Hspec. unfold generateDesiredSecGroups. rewrite Hspec, bind_run.
  destruct (lookupLoop_run (rangeMap 1 secGroupNames) noGroupIDs w)
    as (ids & err & evs & w' & Hrun & Htr & Hmut & Hamb & Htable).
  exists ids, err, evs, w'. rewrite Hrun. cbn [fst snd].
  split; [done|]. split; [done|]. split; [done|]. split; [done|]. split.
  - intros He group Hcase. apply (Htable He); [done|].
    destruct Hcase as [Hnone|?]; [left|by right].
    intros [? Hsome]%rangeMap_keys. congruence.
  - by destruct err.
Qed.

Lemma generateFrom_error (openStackCluster : OpenStackCluster)
    (managed : ManagedSecurityGroups) (secGroupNames : gmap string string)
    (ids : groupIDs) (e : error) :
  getAllNodesRules (remoteManagedGroups ids) (AllNodesSecurityGroupRules managed) =
    ([], Some e) →
  generateFrom openStackCluster managed secGroupNames ids = (∅, Some e).
Proof. intros Hexp. unfold generateFrom. by rewrite Hexp. Qed.

Lemma createSecurityGroupIfNotExists_run (openStackCluster : OpenStackCluster)
    (name : string) w :
  ∃ (err : option error) (evs : list Event) w',
    createSecurityGroupIfNotExists openStackCluster name w = (Done err, w') ∧
    trace w' = trace w ++ evs ∧
    Forall (λ ev, ruleCall (call ev) = false) evs.
Proof.
  unfold createSecurityGroupIfNotExists. rewrite bind_run.
  destruct (getSecurityGroupByName_run name w)
    as (g & err & failed & w1 & -> & Htr & _).
  cbn [fst snd]. destruct err as [e|].
  { eexists _, _, _. split; [done|]. split; [done|]. by repeat constructor. }
  destruct (absent (Some g)).
  2:{ eexists _, _, _. split; [done|]. split; [done|]. by repeat constructor. }
  unfold client_CreateSecGroup. rewrite bind_run, logged_run.
  destruct (CreateSecGroup _ (cloud w1)) as [[group|e] c1]; cbn [fst snd].
  2:{ eexists _, _, _. split; [done|]. split.
      - simpl. by rewrite Htr, <- app_assoc.
      - by repeat constructor. }
  destruct (0 <? length (spec_Tags (Spec openStackCluster)))%nat.
  2:{ eexists _, _, _. split; [done|]. split.
      - simpl. by rewrite Htr, <- app_assoc.
      - by repeat constructor. }
  unfold client_ReplaceAllAttributesTags. rewrite bind_run, logged_run.
  destruct (ReplaceAllAttributesTags _ _ _ _) as [[tags|e] c2]; cbn [fst snd].
  - eexists _, _, _. split; [done|]. split.
    + simpl. by rewrite Htr, <- !app_assoc.
    + by repeat constructor.
  - eexists _, _, _. split; [done|]. split.
    + simpl. by rewrite Htr, <- !app_assoc.
    + by repeat constructor.
Qed.

Lemma ensureLoop_run (openStackCluster : OpenStackCluster)
    (entries : list (string * string)) w :
  ∃ (err : option error) (evs : list Event) w',
    ensureLoop openStackCluster entries w = (Done err, w') ∧
    trace w' = trace w ++ evs ∧
    Forall (λ ev, ruleCall (call ev) = false) evs.
Proof.
  revert w. induction entries as [|[i v] rest IH]; intros w.
  - exists None, [], w. simpl. rewrite app_nil_r. by repeat split.
  - simpl. rewrite bind_run.
    destruct (createSecurityGroupIfNotExists_run openStackCluster v w)
      as (err & evs & w1 & -> & Htr & Hall).
    destruct err as [e|]; [by exists (Some e), evs, w1|].
    destruct (IH w1) as (err & evs' & w' & -> & Htr' & Hall').
    exists err, (evs ++ evs'), w'. split; [done|].
    split; [by rewrite Htr', Htr, <- app_assoc|]. by apply Forall_app.
Qed.

End GeneratorRuns.

(** ** The generator: properties *)

Section GeneratorClaims.
Context {C : Type} `{!Client C} `{!RuleTables} `{!MapOrder}.
Implicit Types w : World C.


(** C4.  When a template names a role that is not in the resolution
    table, [getAllNodesRules] returns no rule and an error of its own.
    [generateDesiredSecGroups], for a template that names a role it does
    not look up, returns the empty map and an error, having made list
    calls only; the error is a configuration error unless a list call
    failed.  [ReconcileSecurityGroups] then returns that error with the
    cluster as it was, and has made no call that creates or deletes a
    rule. *)
Theorem unresolved_role_aborts :
  (∀ table templates, Exists (unresolved table) templates →
     ∃ e, getAllNodesRules table templates = ([], Some e) ∧ configError e) ∧
  (∀ openStackCluster managed secGroupNames w,
     spec_ManagedSecurityGroups (Spec openStackCluster) = Some managed →
     Exists (λ t, ∃ group, In group (t_RemoteManagedGroups t) ∧
                    (secGroupNames !! group = None ∨ ¬ managedRole group))
       (AllNodesSecurityGroupRules managed) →
     ∃ e evs w',
       generateDesiredSecGroups openStackCluster secGroupNames w =
         (Done (∅, Some e), w') ∧
       trace w' = trace w ++ evs ∧
       Forall (λ ev, mutating (call ev) = false) evs ∧
       (Forall (λ ev, failure ev = None) evs → configError e ∨ ambiguousError e)) ∧
  (∀ openStackCluster managed clusterName w,
     spec_ManagedSecurityGroups (Spec openStackCluster) = Some managed →
     Exists (λ t, ∃ group, In group (t_RemoteManagedGroups t) ∧
                    ¬ resolvable openStackCluster group)
       (AllNodesSecurityGroupRules managed) →
     ∃ e evs w',
       ReconcileSecurityGroups openStackCluster clusterName w =
         (Done (openStackCluster, Some e), w') ∧
       trace w' = trace w ++ evs ∧
       Forall (λ ev, ruleCall (call ev) = false) evs).
Proof.
  assert (Hgen : ∀ openStackCluster managed secGroupNames w,
     spec_ManagedSecurityGroups (Spec openStackCluster) = Some managed →
     Exists (λ t, ∃ group, In group (t_RemoteManagedGroups t) ∧
                    (secGroupNames !! group = None ∨ ¬ managedRole group))
       (AllNodesSecurityGroupRules managed) →
     ∃ e evs w',
       generateDesiredSecGroups openStackCluster secGroupNames w =
         (Done (∅, Some e), w') ∧
       trace w' = trace w ++ evs ∧
       Forall (λ ev, mutating (call ev) = false) evs ∧
       (Forall (λ ev, failure ev = None) evs → configError e ∨ ambiguousError e)).
  { intros openStackCluster managed secGroupNames w Hspec Hex.
    destruct (generateDesiredSecGroups_run openStackCluster managed secGroupNames w Hspec)
      as (ids & lookupErr & evs & w' & _ & Htr & Hmut & Hamb & Htable & ->).
    destruct lookupErr as [e|].
    { exists e, evs, w'. repeat (split; [done|]). intros Hok. right. by apply Hamb. }
    destruct (getAllNodesRules_rejected (remoteManagedGroups ids)
                (AllNodesSecurityGroupRules managed)) as (e & Hexp & He).
    { eapply List.Exists_impl; [|exact Hex]. intros t (group & Hin & Hcase).
      apply unresolved_not_accepted. exists group. split; [done|]. by apply Htable. }
    exists e, evs, w'. rewrite (generateFrom_error _ _ _ _ _ Hexp).
    repeat (split; [done|]). intros _. by left. }
  split; [|split; [exact Hgen|]].
  - intros table templates Hex. apply getAllNodesRules_rejected.
    eapply List.Exists_impl; [|exact Hex]. intros t. apply unresolved_not_accepted.
  - intros openStackCluster managed clusterName w Hspec Hex.
    unfold ReconcileSecurityGroups. rewrite Hspec. cbn zeta.
    set (secGroupNames := if bastionEnabled openStackCluster then _ else _).
    rewrite bind_run.
    destruct (ensureLoop_run openStackCluster (rangeMap 0 secGroupNames) w)
      as (err & evs & w1 & -> & Htr & Hall).
    destruct err as [e|]; [by exists e, evs, w1|].
    rewrite bind_run.
    destruct (Hgen openStackCluster managed secGroupNames w1 Hspec)
      as (e & evs' & w' & -> & Htr' & Hmut & _).
    { eapply List.Exists_impl; [|exact Hex]. intros t (group & Hin & Hnot).
      exists group. split; [done|].
      destruct (decide (group = bastionSuffix)) as [->|Hb].
      - left. unfold resolvable in Hnot. subst secGroupNames.
        destruct (bastionEnabled openStackCluster); [tauto|].
        by rewrite !lookup_insert_ne.
      - right. unfold resolvable, managedRole in *. tauto. }
    exists e, (evs ++ evs'), w'. cbn [fst snd]. split; [done|].
    split; [by rewrite Htr', Htr, <- app_assoc|]. apply Forall_app. split; [done|].
    eapply List.Forall_impl; [|exact Hmut]. intros ev.
    cbv beta. destruct (call ev); simpl; intros; first [discriminate | reflexivity].
Qed.

End GeneratorClaims.

(** ** Conversion of the group status between API versions: properties *)

Lemma ruleStatusToRule_ruleToRuleStatus (rule : SecurityGroupRule) :
  ruleStatusToRule (ruleToRuleStatus rule) = rule.
Proof. by destruct rule. Qed.

Lemma full_ruleToRuleStatus (rule : SecurityGroupRule) : full (ruleToRuleStatus rule).
Proof. unfold full; simpl. repeat split; eauto. Qed.

Lemma ruleToRuleStatus_ruleStatusToRule (o : SecurityGroupRuleStatus) :
  ruleToRuleStatus (ruleStatusToRule o) = o ↔ full o.
Proof.
  split.
  - intros <-. apply full_ruleToRuleStatus.
  - unfold full, is_Some. destruct o; simpl.
    intros ([? ->] & [? ->] & [? ->] & [? ->] & [? ->] & [? ->] & [? ->]). reflexivity.
Qed.

(** X1.  A [v1alpha5] group converted to [v1beta1] and back is the group
    it was: its ID, its name and, rule by rule, the nine fields the
    conversions copy; and no rule of the [v1beta1] status in between has a
    nil pointer. *)
Theorem SecurityGroup_up_down (g : SecurityGroup) :
  Convert_v1beta1_SecurityGroupStatus_To_v1alpha5_SecurityGroup
    (Convert_v1alpha5_SecurityGroup_To_v1beta1_SecurityGroupStatus g) = g ∧
  Forall full (gs_Rules (Convert_v1alpha5_SecurityGroup_To_v1beta1_SecurityGroupStatus g)).
Proof.
  destruct g as [id name rules].
  unfold Convert_v1beta1_SecurityGroupStatus_To_v1alpha5_SecurityGroup,
    Convert_v1alpha5_SecurityGroup_To_v1beta1_SecurityGroupStatus; simpl. split.
  - f_equal. rewrite map_map. rewrite <- (map_id rules) at 2.
    apply map_ext. intros rule. apply ruleStatusToRule_ruleToRuleStatus.
  - apply List.Forall_map, List.Forall_forall. intros rule _.
    apply full_ruleToRuleStatus.
Qed.

(** X2.  A [v1beta1] status converted to [v1alpha5] and back is the status
    it was exactly when none of its rules has a nil pointer: a nil pointer
    comes back as a pointer to the zero value.  The ID, the name and the
    number of rules always come back, and a second round trip changes
    nothing more.  The statuses the package builds from the wire format
    come back as they were. *)
Theorem SecurityGroupStatus_down_up (s : SecurityGroupStatus) :
  let roundTrip (s : SecurityGroupStatus) :=
    Convert_v1alpha5_SecurityGroup_To_v1beta1_SecurityGroupStatus
      (Convert_v1beta1_SecurityGroupStatus_To_v1alpha5_SecurityGroup s) in
  (roundTrip s = s ↔ Forall full (gs_Rules s)) ∧
  gs_ID (roundTrip s) = gs_ID s ∧ gs_Name (roundTrip s) = gs_Name s ∧
  length (gs_Rules (roundTrip s)) = length (gs_Rules s) ∧
  roundTrip (roundTrip s) = roundTrip s ∧
  ∀ osSecGroup,
    convertOSSecGroupToConfigSecGroup osSecGroup = Some s → roundTrip s = s.
Proof.
  cbn zeta.
  assert (Hiff : ∀ s : SecurityGroupStatus,
            Convert_v1alpha5_SecurityGroup_To_v1beta1_SecurityGroupStatus
              (Convert_v1beta1_SecurityGroupStatus_To_v1alpha5_SecurityGroup s) = s ↔
            Forall full (gs_Rules s)).
  { intros [id name rules].
    unfold Convert_v1beta1_SecurityGroupStatus_To_v1alpha5_SecurityGroup,
      Convert_v1alpha5_SecurityGroup_To_v1beta1_SecurityGroupStatus; simpl.
    rewrite map_map. split.
    - intros [= Hrules]. induction rules as [|o rest IH]; [constructor|].
      injection Hrules as Ho Hrest. constructor; [|by apply IH].
      by apply ruleToRuleStatus_ruleStatusToRule.
    - intros Hfull. f_equal. induction Hfull as [|o rest Ho _ IH]; [done|].
      simpl. f_equal; [by apply ruleToRuleStatus_ruleStatusToRule | done]. }
  split; [apply Hiff|]. split; [done|]. split; [done|]. split.
  { simpl. by rewrite !length_map. }
  split.
  - apply Hiff. simpl. apply List.Forall_map, List.Forall_forall.
    intros rule _. apply full_ruleToRuleStatus.
  - intros osSecGroup [= <-]. apply Hiff. simpl.
    apply List.Forall_map, List.Forall_forall. intros rule _. apply full_convert.
Qed.

(** ** Group names: properties *)

Lemma list_ascii_of_string_app (a b : string) :
  String.list_ascii_of_string (a +:+ b) = String.list_ascii_of_string a ++ String.list_ascii_of_string b.
Proof. induction a as [|c a IH]; simpl; [done|]. by rewrite IH. Qed.

Lemma list_ascii_of_string_inj (a b : string) :
  String.list_ascii_of_string a = String.list_ascii_of_string b → a = b.
Proof.
  intros H. rewrite <- (String.string_of_list_ascii_of_string a),
    <- (String.string_of_list_ascii_of_string b). by rewrite H.
Qed.

Lemma groupName_inj (c1 c2 suffix : string) :
  groupName c1 suffix = groupName c2 suffix → c1 = c2.
Proof.
  unfold groupName. intros H. apply (f_equal String.list_ascii_of_string) in H.
  rewrite !list_ascii_of_string_app in H.
  do 2 apply app_inv_head in H. apply app_inv_tail in H.
  by apply list_ascii_of_string_inj.
Qed.

Lemma groupName_last (c suffix : string) :
  rev (String.list_ascii_of_string (groupName c suffix)) =
  rev (String.list_ascii_of_string suffix) ++
  rev (String.list_ascii_of_string (secGroupPrefix +:+ "-cluster-" +:+ c +:+ "-secgroup-")).
Proof.
  unfold groupName. rewrite <- rev_app_distr. f_equal.
  by rewrite !list_ascii_of_string_app, <- !app_assoc.
Qed.

(** X3.  The name of a group tells its cluster and its role: the names of
    one role differ for different clusters, and a control-plane, a worker
    and a bastion group never share a name, whatever their clusters. *)
Theorem group_names_distinct (c1 c2 : string) :
  (getSecControlPlaneGroupName c1 = getSecControlPlaneGroupName c2 ↔ c1 = c2) ∧
  (getSecWorkerGroupName c1 = getSecWorkerGroupName c2 ↔ c1 = c2) ∧
  (getSecBastionGroupName c1 = getSecBastionGroupName c2 ↔ c1 = c2) ∧
  getSecControlPlaneGroupName c1 ≠ getSecWorkerGroupName c2 ∧
  getSecControlPlaneGroupName c1 ≠ getSecBastionGroupName c2 ∧
  getSecWorkerGroupName c1 ≠ getSecBastionGroupName c2.
Proof.
  unfold getSecControlPlaneGroupName, getSecWorkerGroupName, getSecBastionGroupName.
  repeat split; try (by intros ->); try apply groupName_inj.
  all: intros H; apply (f_equal (λ s, rev (String.list_ascii_of_string s))) in H;
    cbv beta in H; rewrite !groupName_last in H;
    unfold controlPlaneSuffix, workerSuffix, bastionSuffix in H;
    cbn [String.list_ascii_of_string rev app] in H; discriminate H.
Qed.

(** ** Conversion of the binding profile: properties *)

Lemma bindingProfile_loop (entries : list (string * string)) (out : BindingProfile) :
  Convert_Map_string_To_Interface_To_v1beta1_BindingProfile entries out =
  {| OVSHWOffload :=
       if existsb (λ kv, String.eqb kv.1 "capabilities" && Contains kv.2 "switchdev") entries
       then Some true else OVSHWOffload out;
     TrustedVF :=
       if existsb (λ kv, String.eqb kv.1 "trusted" && String.eqb kv.2 trueString) entries
       then Some true else TrustedVF out |}.
Proof.
  revert out. induction entries as [|[k v] rest IH]; intros out; simpl.
  - by destruct out.
  - rewrite IH. unfold bindingProfileStep.
    destruct (String.eqb k "capabilities") eqn:Hc, (Contains v "switchdev");
      destruct (String.eqb k "trusted") eqn:Ht, (String.eqb v trueString); simpl;
      try reflexivity;
      repeat (match goal with |- context [if ?b then _ else _] => destruct b end);
      reflexivity.
Qed.

Lemma existsb_entries (m : gmap string string) (entries : list (string * string))
    (key : string) (test : string → bool) :
  entries ≡ₚ map_to_list m →
  existsb (λ kv, String.eqb kv.1 key && test kv.2) entries =
  match m !! key with
  | Some v => test v
  | None => false
  end.
Proof.
  intros Hperm. apply eq_true_iff_eq. rewrite existsb_exists. split.
  - intros ([k v] & Hin & Hb). simpl in Hb. apply andb_prop in Hb as [Hk Hv].
    apply String.eqb_eq in Hk as ->.
    apply list_elem_of_In in Hin. rewrite Hperm in Hin.
    apply elem_of_map_to_list in Hin. by rewrite Hin.
  - destruct (m !! key) as [v|] eqn:Hm; [|done]. intros Hv.
    exists (key, v). split.
    + apply list_elem_of_In. rewrite Hperm. by apply elem_of_map_to_list.
    + simpl. by rewrite String.eqb_refl.
Qed.

Lemma bindingProfile_closed (m : gmap string string)
    (entries : list (string * string)) (out : BindingProfile) :
  entries ≡ₚ map_to_list m →
  Convert_Map_string_To_Interface_To_v1beta1_BindingProfile entries out =
  profileOfMap m out.
Proof.
  intros Hperm. rewrite bindingProfile_loop. unfold profileOfMap.
  rewrite (existsb_entries m entries "capabilities" (λ v, Contains v "switchdev") Hperm).
  rewrite (existsb_entries m entries "trusted" (λ v, String.eqb v trueString) Hperm).
  by destruct (m !! "capabilities"), (m !! "trusted").
Qed.

Lemma portOptsProfile_closed (m : gmap string string) (out : BindingProfile) :
  portOptsProfile m out = profileOfMap m out.
Proof.
  unfold portOptsProfile, profileOfMap.
  destruct (m !! "capabilities") as [v|], (m !! "trusted") as [t|]; simpl;
    repeat (match goal with |- context [if ?b then _ else _] => destruct b end);
    by destruct out.
Qed.

(** X4.  Whatever the order in which the entries of the map are walked,
    [Convert_Map_string_To_Interface_To_v1beta1_BindingProfile] sets
    [OVSHWOffload] to true exactly when the map holds under [capabilities]
    a text in which [switchdev] occurs, sets [TrustedVF] to true exactly
    when it holds [true] under [trusted], and leaves each field as it was
    otherwise; the other keys of the map are not read.  The profile part
    of [Convert_v1alpha5_PortOpts_To_v1beta1_PortOpts], which indexes the
    map instead of walking it, gives the same profile. *)
Theorem BindingProfile_of_map (m : gmap string string)
    (entries : list (string * string)) (out : BindingProfile) :
  entries ≡ₚ map_to_list m →
  Convert_Map_string_To_Interface_To_v1beta1_BindingProfile entries out =
    profileOfMap m out ∧
  portOptsProfile m out =
    Convert_Map_string_To_Interface_To_v1beta1_BindingProfile entries out.
Proof.
  intros Hperm.
  assert (Hloop : Convert_Map_string_To_Interface_To_v1beta1_BindingProfile entries out =
                  profileOfMap m out) by by apply bindingProfile_closed.
  split; [done|]. by rewrite Hloop, portOptsProfile_closed.
Qed.

Lemma Contains_switchdev : Contains switchdevCapabilities "switchdev" = true.
Proof. reflexivity. Qed.

(** X5.  A [v1beta1] binding profile written to an empty map and read
    back into an empty profile keeps what [pointer.BoolDeref] sees of it:
    a field that was true is true, a field that was false or nil is nil. *)
Theorem BindingProfile_round_trip (p : BindingProfile)
    (entries : list (string * string)) :
  entries ≡ₚ map_to_list (Convert_v1beta1_BindingProfile_To_Map_string_To_Interface p ∅) →
  Convert_Map_string_To_Interface_To_v1beta1_BindingProfile entries emptyProfile =
  effectiveProfile p.
Proof.
  intros Hperm. rewrite (bindingProfile_closed _ _ _ Hperm).
  unfold profileOfMap, effectiveProfile,
    Convert_v1beta1_BindingProfile_To_Map_string_To_Interface.
  destruct (default false (OVSHWOffload p)), (default false (TrustedVF p)); simpl.
  - rewrite lookup_insert_ne by done. rewrite !lookup_insert_eq.
    by rewrite Contains_switchdev.
  - rewrite lookup_insert_eq, lookup_insert_ne by done. rewrite lookup_empty.
    by rewrite Contains_switchdev.
  - rewrite lookup_insert_ne by done. by rewrite lookup_empty, lookup_insert_eq.
  - by rewrite !lookup_empty.
Qed.

(** X6.  A profile map read into an empty profile by
    [Convert_v1alpha5_PortOpts_To_v1beta1_PortOpts] and written back to an
    empty map keeps two keys at most: [capabilities], with the one value
    the conversion writes, exactly when [switchdev] occurred in the value
    it had, and [trusted], with [true], exactly when it had that value.
    Every other key is dropped. *)
Theorem BindingProfile_map_round_trip (m : gmap string string) :
  let back :=
    Convert_v1beta1_BindingProfile_To_Map_string_To_Interface
      (portOptsProfile m emptyProfile) ∅ in
  (back !! "capabilities" =
     match m !! "capabilities" with
     | Some v => if Contains v "switchdev" then Some switchdevCapabilities else None
     | None => None
     end) ∧
  (back !! "trusted" =
     match m !! "trusted" with
     | Some v => if String.eqb v trueString then Some trueString else None
     | None => None
     end) ∧
  ∀ k, k ≠ "capabilities" → k ≠ "trusted" → back !! k = None.
Proof.
  cbn zeta. rewrite portOptsProfile_closed.
  unfold Convert_v1beta1_BindingProfile_To_Map_string_To_Interface,
    profileOfMap, emptyProfile. simpl.
  destruct (m !! "capabilities") as [v|]; [destruct (Contains v "switchdev")|];
    (destruct (m !! "trusted") as [t|]; [destruct (String.eqb t trueString)|]); simpl;
    repeat split; intros;
    rewrite ?lookup_insert_eq, ?lookup_insert_ne, ?lookup_insert_eq, ?lookup_empty by done;
    try done.
Qed.

(** ** Lookup by filter: properties *)

Lemma isDuplicateLoop_spec (names : list string) (name : string) :
  isDuplicateLoop names name = true ↔ name ∈ names.
Proof.
  induction names as [|y l IH]; simpl.
  - split; [done|]. by intros ?%elem_of_nil.
  - destruct (String.eqb y name) eqn:E.
    + apply String.eqb_eq in E as ->. split; [|done]. intros _. left.
    + rewrite IH. apply String.eqb_neq in E. split.
      * intros ?. by right.
      * intros [->|?]%elem_of_cons; done.
Qed.

Lemma isDuplicate_spec (names : list string) (name : string) :
  isDuplicate names name = true ↔ name ∈ names.
Proof.
  unfold isDuplicate. destruct names as [|x l].
  - simpl. split; [done|]. by intros ?%elem_of_nil.
  - apply isDuplicateLoop_spec.
Qed.

Lemma isDuplicate_false (names : list string) (name : string) :
  isDuplicate names name = false ↔ name ∉ names.
Proof.
  rewrite <- isDuplicate_spec. destruct (isDuplicate names name); split; done.
Qed.

Section LookupRuns.
Context {C : Type} `{!FilterLookup C}.

Lemma appendGroupIDs_spec (SGList : list SecGroup) (sgIDs : list string) :
  appendGroupIDs SGList sgIDs = sgIDs ++ firstOccurrences sgIDs (map sg_ID SGList).
Proof.
  revert sgIDs. induction SGList as [|g rest IH]; intros sgIDs; simpl.
  - by rewrite app_nil_r.
  - destruct (isDuplicate sgIDs (sg_ID g)) eqn:E.
    + apply isDuplicate_spec in E. rewrite bool_decide_true by done. apply IH.
    + apply isDuplicate_false in E. rewrite bool_decide_false by done.
      rewrite IH. by rewrite <- app_assoc.
Qed.

Lemma firstOccurrences_NoDup (seen l : list string) :
  NoDup seen → NoDup (seen ++ firstOccurrences seen l).
Proof.
  revert seen. induction l as [|x l IH]; intros seen Hseen; simpl.
  - by rewrite app_nil_r.
  - case_bool_decide as Hx.
    + by apply IH.
    + rewrite cons_middle, app_assoc. apply IH.
      apply NoDup_app. split; [done|]. split.
      * intros y Hy ->%list_elem_of_singleton. done.
      * apply NoDup_singleton.
Qed.

Lemma firstOccurrences_elem (seen l : list string) (x : string) :
  x ∈ seen ++ firstOccurrences seen l ↔ x ∈ seen ∨ x ∈ l.
Proof.
  revert seen. induction l as [|y l IH]; intros seen; simpl.
  - rewrite app_nil_r. split; [by left|]. intros [?|?%elem_of_nil]; done.
  - case_bool_decide as Hy.
    + rewrite IH. rewrite elem_of_cons. split; [tauto|].
      intros [?|[->|?]]; tauto.
    + rewrite cons_middle, app_assoc, IH. rewrite elem_of_app, list_elem_of_singleton, elem_of_cons.
      tauto.
Qed.

Lemma firstOccurrences_sublist (seen l : list string) :
  sublist (firstOccurrences seen l) l.
Proof.
  revert seen. induction l as [|y l IH]; intros seen; simpl; [constructor|].
  case_bool_decide.
  - by apply sublist_cons.
  - by apply sublist_skip.
Qed.

Lemma appendGroupIDs_NoDup (SGList : list SecGroup) (sgIDs : list string) :
  NoDup sgIDs → NoDup (appendGroupIDs SGList sgIDs).
Proof. rewrite appendGroupIDs_spec. apply firstOccurrences_NoDup. Qed.

Lemma appendGroupIDs_elem (SGList : list SecGroup) (sgIDs : list string) (x : string) :
  x ∈ appendGroupIDs SGList sgIDs ↔ x ∈ sgIDs ∨ x ∈ map sg_ID SGList.
Proof. rewrite appendGroupIDs_spec. apply firstOccurrences_elem. Qed.

Lemma getSecurityGroupsLoop_NoDup (securityGroupParams : list SecurityGroupFilter)
    (sgIDs : list string) (c : C) :
  NoDup sgIDs → NoDup (getSecurityGroupsLoop securityGroupParams sgIDs c).1.1.
Proof.
  revert sgIDs c. induction securityGroupParams as [|sg rest IH]; intros sgIDs c Hnd; simpl.
  - done.
  - destruct (String.eqb (filter_ID sg) "") eqn:Eid; simpl.
    + destruct (ListSecGroupWith _ c) as [[SGList|err] c']; simpl.
      * destruct SGList as [|g SGList]; simpl; [apply NoDup_nil_2|].
        apply IH. by apply (appendGroupIDs_NoDup (g :: SGList)).
      * apply NoDup_nil_2.
    + destruct (isDuplicate sgIDs (filter_ID sg)) eqn:E.
      * by apply IH.
      * apply IH. apply isDuplicate_false in E.
        apply NoDup_app. split; [done|]. split.
        -- intros y Hy ->%list_elem_of_singleton. done.
        -- apply NoDup_singleton.
Qed.

Lemma getSecurityGroupsLoop_keeps (securityGroupParams : list SecurityGroupFilter)
    (sgIDs : list string) (c : C) (x : string) :
  (getSecurityGroupsLoop securityGroupParams sgIDs c).1.2 = None →
  x ∈ sgIDs ∨ (∃ sg, sg ∈ securityGroupParams ∧ filter_ID sg ≠ "" ∧ filter_ID sg = x) →
  x ∈ (getSecurityGroupsLoop securityGroupParams sgIDs c).1.1.
Proof.
  revert sgIDs c. induction securityGroupParams as [|sg rest IH]; intros sgIDs c; simpl.
  - intros _ [?|(sg & ?%elem_of_nil & _)]; done.
  - destruct (String.eqb (filter_ID sg) "") eqn:Eid; simpl.
    + apply String.eqb_eq in Eid.
      destruct (ListSecGroupWith _ c) as [[SGList|err] c']; simpl; [|done].
      destruct SGList as [|g SGList]; simpl; [done|].
      intros Hok Hx. apply IH; [done|].
      destruct Hx as [Hx|(sg' & Hin & Hne & <-)].
      * left. apply (appendGroupIDs_elem (g :: SGList)). by left.
      * apply elem_of_cons in Hin as [->|Hin]; [done|]. right. by exists sg'.
    + apply String.eqb_neq in Eid.
      destruct (isDuplicate sgIDs (filter_ID sg)) eqn:E.
      * apply isDuplicate_spec in E. intros Hok Hx. apply IH; [done|].
        destruct Hx as [Hx|(sg' & Hin & Hne & <-)]; [by left|].
        apply elem_of_cons in Hin as [->|Hin]; [by left|]. right. by exists sg'.
      * intros Hok Hx. apply IH; [done|].
        destruct Hx as [Hx|(sg' & Hin & Hne & <-)].
        -- left. apply elem_of_app. by left.
        -- apply elem_of_cons in Hin as [->|Hin].
           ++ left. apply elem_of_app. right. by apply list_elem_of_singleton.
           ++ right. by exists sg'.
Qed.

Lemma getSecurityGroupsLoop_grows (securityGroupParams : list SecurityGroupFilter)
    (sgIDs : list string) (c : C) :
  (getSecurityGroupsLoop securityGroupParams sgIDs c).1.2 = None →
  (length sgIDs + (if securityGroupParams is [] then 0 else
                     if sgIDs is [] then 1 else 0)
   ≤ length (getSecurityGroupsLoop securityGroupParams sgIDs c).1.1)%nat.
Proof.
  revert sgIDs c. induction securityGroupParams as [|sg rest IH]; intros sgIDs c; simpl.
  - intros _. lia.
  - assert (Hmono : ∀ ids c0,
      (getSecurityGroupsLoop rest ids c0).1.2 = None →
      (length ids ≤ length (getSecurityGroupsLoop rest ids c0).1.1)%nat).
    { intros ids c0 Hok. specialize (IH ids c0 Hok). lia. }
    destruct (String.eqb (filter_ID sg) "") eqn:Eid; simpl.
    + destruct (ListSecGroupWith _ c) as [[SGList|err] c']; simpl; [|done].
      destruct SGList as [|g SGList]; [done|]. cbn [length Nat.eqb].
      intros Hok. apply Hmono in Hok.
      assert (length sgIDs + (if sgIDs is [] then 1 else 0)
              ≤ length (appendGroupIDs (g :: SGList) sgIDs))%nat; [|lia].
      rewrite appendGroupIDs_spec, length_app.
      destruct sgIDs as [|i ids]; simpl; [|lia].
      lia.
    + destruct (isDuplicate sgIDs (filter_ID sg)) eqn:E.
      * apply isDuplicate_spec in E. intros Hok. apply Hmono in Hok.
        destruct sgIDs; [by apply elem_of_nil in E|]. simpl in *. lia.
      * intros Hok. apply Hmono in Hok. rewrite length_app in Hok. simpl in Hok.
        destruct sgIDs; simpl in *; lia.
Qed.

(** X7.  The list [GetSecurityGroups] returns never holds an ID twice,
    whatever the filters and the replies of the provider.  When it returns
    no error, the list holds the ID of every filter that gives one, and is
    empty only if there was no filter at all. *)
Theorem GetSecurityGroups_no_duplicates
    (securityGroupParams : list SecurityGroupFilter) (c : C) :
  let result := GetSecurityGroups securityGroupParams c in
  NoDup result.1.1 ∧
  (result.1.2 = None →
     (∀ sg, sg ∈ securityGroupParams → filter_ID sg ≠ "" → filter_ID sg ∈ result.1.1) ∧
     (result.1.1 = [] → securityGroupParams = [])).
Proof.
  cbn zeta. unfold GetSecurityGroups. split; [|intros Hok; split].
  - apply getSecurityGroupsLoop_NoDup, NoDup_nil_2.
  - intros sg Hin Hne. apply getSecurityGroupsLoop_keeps; [done|]. right. by exists sg.
  - intros Hnil. pose proof (getSecurityGroupsLoop_grows _ _ _ Hok) as Hlen.
    rewrite Hnil in Hlen. destruct securityGroupParams; [done|]. simpl in Hlen. lia.
Qed.

Lemma getSecurityGroupsLoop_ids (securityGroupParams : list SecurityGroupFilter)
    (sgIDs : list string) (c : C) :
  Forall (λ sg, filter_ID sg ≠ "") securityGroupParams →
  getSecurityGroupsLoop securityGroupParams sgIDs c =
  ((sgIDs ++ firstOccurrences sgIDs (map filter_ID securityGroupParams), None), c).
Proof.
  revert sgIDs. induction securityGroupParams as [|sg rest IH]; intros sgIDs Hall; simpl.
  - by rewrite app_nil_r.
  - apply Forall_cons in Hall as [Hsg Hall].
    apply String.eqb_neq in Hsg. rewrite Hsg. simpl.
    destruct (isDuplicate sgIDs (filter_ID sg)) eqn:E.
    + apply isDuplicate_spec in E. rewrite bool_decide_true by done. by apply IH.
    + apply isDuplicate_false in E. rewrite bool_decide_false by done.
      rewrite IH by done. by rewrite <- app_assoc.
Qed.

(** X8.  When every filter gives an ID, [GetSecurityGroups] does not
    call the provider, and returns without error the IDs of the filters in
    their order, each at its first occurrence: the IDs are not checked
    against the provider. *)
Theorem GetSecurityGroups_explicit_ids
    (securityGroupParams : list SecurityGroupFilter) (c : C) :
  Forall (λ sg, filter_ID sg ≠ "") securityGroupParams →
  GetSecurityGroups securityGroupParams c =
  ((firstOccurrences [] (map filter_ID securityGroupParams), None), c).
Proof. intros Hall. unfold GetSecurityGroups. by rewrite getSecurityGroupsLoop_ids. Qed.

Lemma getSecurityGroupsLoop_error (securityGroupParams : list SecurityGroupFilter)
    (sgIDs : list string) (c : C) (err : error) :
  (getSecurityGroupsLoop securityGroupParams sgIDs c).1.2 = Some err →
  (getSecurityGroupsLoop securityGroupParams sgIDs c).1.1 = [] ∧
  ∃ sg c0, sg ∈ securityGroupParams ∧ filter_ID sg = "" ∧
    ((ListSecGroupWith (listOptsOf sg) c0).1 = Failure err ∨
     (ListSecGroupWith (listOptsOf sg) c0).1 = Success [] ∧
     err = notFoundError (filter_Name sg)).
Proof.
  revert sgIDs c. induction securityGroupParams as [|sg rest IH]; intros sgIDs c; simpl.
  - done.
  - assert (Hrest : ∀ ids c0,
      (getSecurityGroupsLoop rest ids c0).1.2 = Some err →
      (getSecurityGroupsLoop rest ids c0).1.1 = [] ∧
      ∃ sg' c1, sg' ∈ sg :: rest ∧ filter_ID sg' = "" ∧
        ((ListSecGroupWith (listOptsOf sg') c1).1 = Failure err ∨
         (ListSecGroupWith (listOptsOf sg') c1).1 = Success [] ∧
         err = notFoundError (filter_Name sg'))).
    { intros ids c0 Herr. destruct (IH ids c0 Herr) as (Hnil & sg' & c1 & Hin & Hrest).
      split; [done|]. exists sg', c1. split; [by right|done]. }
    destruct (String.eqb (filter_ID sg) "") eqn:Eid; simpl.
    + apply String.eqb_eq in Eid.
      fold (listOptsOf sg).
      destruct (ListSecGroupWith (listOptsOf sg) c) as [[SGList|e] c'] eqn:Hlist; simpl.
      * destruct SGList as [|g SGList]; simpl.
        -- intros [= <-]. split; [done|]. exists sg, c. split; [left|].
           split; [done|]. right. by rewrite Hlist.
        -- apply Hrest.
      * intros [= <-]. split; [done|]. exists sg, c. split; [left|].
        split; [done|]. left. by rewrite Hlist.
    + destruct (isDuplicate sgIDs (filter_ID sg)); apply Hrest.
Qed.

(** X9.  When [GetSecurityGroups] returns an error it returns no ID, also
    if earlier filters had given some; and the error is that of a list
    call made for a filter without ID, or says that the group of such a
    filter, by its name, was not found, the listing having been empty. *)
Theorem GetSecurityGroups_error
    (securityGroupParams : list SecurityGroupFilter) (c : C) (err : error) :
  (GetSecurityGroups securityGroupParams c).1.2 = Some err →
  (GetSecurityGroups securityGroupParams c).1.1 = [] ∧
  ∃ sg c0, sg ∈ securityGroupParams ∧ filter_ID sg = "" ∧
    ((ListSecGroupWith (listOptsOf sg) c0).1 = Failure err ∨
     (ListSecGroupWith (listOptsOf sg) c0).1 = Success [] ∧
     err = notFoundError (filter_Name sg)).
Proof. apply getSecurityGroupsLoop_error. Qed.

End LookupRuns.

(** ** The calls of a pass, and the size of its result *)

Section ReconcileCalls.
Context {C : Type} `{!Client C}.

Lemma in_deleteCalls (rulesToDelete : list string) (c : Call) :
  In c (deleteCalls rulesToDelete) ↔
  ∃ id, In id rulesToDelete ∧ c = CallDeleteSecGroupRule id.
Proof.
  unfold deleteCalls. rewrite in_map_iff. split.
  - intros (id & <- & Hin). by exists id.
  - intros (id & Hin & ->). by exists id.
Qed.

Lemma plannedCalls_ruleCalls (g : string) (rulesToDelete : list string)
    (rulesToCreate : list resolvedSecurityGroupRuleSpec) :
  Forall (λ c, ruleCall c = true) (plannedCalls g rulesToDelete rulesToCreate).
Proof.
  unfold plannedCalls, deleteCalls, createCalls.
  apply Forall_app. split; apply List.Forall_map, List.Forall_forall; done.
Qed.

Lemma logged_calls_planned (evs : list Event) (plan : list Call) (err : option error) :
  match err with
  | None => evs = map succeeded plan
  | Some e => ∃ before c after, plan = before ++ c :: after ∧
                evs = map succeeded before ++ [{| call := c; failure := Some e |}]
  end →
  map call evs `prefix_of` plan.
Proof.
  intros Hshape. apply (logged_planned evs plan err).
  - intros ->. done.
  - intros e ->. done.
Qed.

Lemma reconcileGroupRules_planned (desired : securityGroupSpec)
    (observed st : SecurityGroupStatus) (err : option error) w w' :
  reconcileGroupRules desired observed w = (Done (st, err), w') →
  ∃ (rulesToDelete : list string)
    (rulesToCreate : list resolvedSecurityGroupRuleSpec)
    (carried : list SecurityGroupRuleStatus) (evs : list Event),
    rulesToDeleteOf (gs_ID observed) (Rules desired) (gs_Rules observed) =
      Done rulesToDelete ∧
    rulesToCreateOf (gs_ID observed) (gs_Rules observed) (Rules desired) =
      Done (rulesToCreate, carried) ∧
    trace w' = trace w ++ evs ∧
    map call evs `prefix_of` plannedCalls (gs_ID observed) rulesToDelete rulesToCreate ∧
    (err = None →
       evs = map succeeded (plannedCalls (gs_ID observed) rulesToDelete rulesToCreate)).
Proof.
  intros Hrun.
  destruct (reconcileGroupRules_inv _ _ _ _ _ _ Hrun)
    as (rulesToDelete & rulesToCreate & carried & evs & Hdel & Hcre & Htr & Hshape).
  exists rulesToDelete, rulesToCreate, carried, evs.
  split; [done|]. split; [done|]. split; [done|]. split.
  - apply (logged_calls_planned evs _ err). destruct err as [e|].
    + by destruct Hshape as [_ ?].
    + by destruct Hshape as [? _].
  - intros ->. by destruct Hshape as [? _].
Qed.

(** X10.  A pass of [reconcileGroupRules] calls the provider for rules
    only, and only where desired and observed rules differ: every rule it
    deletes is an observed rule that no desired rule matches, and every
    rule it creates is a desired rule that matches no observed rule.  A
    rule that is both desired and observed is left alone, and the pass
    makes no more calls than there are observed and desired rules. *)
Theorem reconcileGroupRules_minimal_calls (desired : securityGroupSpec)
    (observed st : SecurityGroupStatus) (err : option error) w w' :
  reconcileGroupRules desired observed w = (Done (st, err), w') →
  ∃ evs : list Event,
    trace w' = trace w ++ evs ∧
    Forall (λ ev, ruleCall (call ev) = true) evs ∧
    (∀ ev id, In ev evs → call ev = CallDeleteSecGroupRule id →
       ∃ o, In o (gs_Rules observed) ∧ rs_ID o = id ∧
         Forall (λ d, Matches (resolveSelf (gs_ID observed) d) o = Done false)
           (Rules desired)) ∧
    (∀ ev opts, In ev evs → call ev = CallCreateSecGroupRule opts →
       ∃ d, In d (Rules desired) ∧
         opts = createOptsOf (gs_ID observed) (resolveSelf (gs_ID observed) d) ∧
         Forall (λ o, Matches (resolveSelf (gs_ID observed) d) o = Done false)
           (gs_Rules observed)) ∧
    (length evs ≤ length (gs_Rules observed) + length (Rules desired))%nat.
Proof.
  intros Hrun.
  destruct (reconcileGroupRules_planned _ _ _ _ _ _ Hrun)
    as (rulesToDelete & rulesToCreate & carried & evs & Hdel & Hcre & Htr & Hpre & _).
  destruct (rulesToDeleteOf_spec _ _ _ _ Hdel) as (doomed & -> & Hsub & Hdoomed & _).
  destruct (rulesToCreateOf_spec _ _ _ _ _ Hcre) as (matched & Hperm & _ & Hnone).
  pose proof (rulesToCreateOf_length _ _ _ _ _ Hcre) as Hlen.
  exists evs. split; [done|].
  assert (Hin : ∀ ev, In ev evs →
            In (call ev) (plannedCalls (gs_ID observed) (map rs_ID doomed) rulesToCreate)).
  { intros ev Hev. destruct Hpre as [k ->]. apply in_or_app. left.
    by apply in_map. }
  split; [|split; [|split]].
  - apply List.Forall_forall. intros ev Hev.
    pose proof (plannedCalls_ruleCalls (gs_ID observed) (map rs_ID doomed) rulesToCreate) as Hall.
    rewrite List.Forall_forall in Hall. apply Hall. by apply Hin.
  - intros ev id Hev Hcall. apply Hin in Hev. rewrite Hcall in Hev.
    apply in_app_or in Hev as [Hev|Hev].
    + apply in_deleteCalls in Hev as (id' & Hid & [= ->]).
      apply in_map_iff in Hid as (o & <- & Ho). exists o.
      split; [|split; [done|]].
      * apply list_elem_of_In. eapply elem_of_sublist; [|exact Hsub]. by apply list_elem_of_In.
      * rewrite List.Forall_forall in Hdoomed. by apply Hdoomed.
    + apply in_createCalls in Hev as (d & _ & [=]).
  - intros ev opts Hev Hcall. apply Hin in Hev. rewrite Hcall in Hev.
    apply in_plannedCalls_create in Hev as (d & Hd & ->). exists d.
    split; [|split; [done|]].
    + apply list_elem_of_In. rewrite Hperm. apply list_elem_of_In, in_or_app. by right.
    + rewrite List.Forall_forall in Hnone. by apply firstMatch_None, Hnone.
  - apply prefix_length in Hpre. rewrite length_map in Hpre.
    unfold plannedCalls, deleteCalls, createCalls in Hpre.
    rewrite length_app, !length_map in Hpre.
    apply sublist_length in Hsub. lia.
Qed.

(** X11.  Whatever the provider returns for the rules it creates, the
    status of a pass without error holds as many rules as were desired:
    the first ones carried over, the others created.  With at least one
    desired rule it keeps the ID and the name of the observed group; with
    none it is the zero status, every observed rule having been deleted. *)
Theorem reconcileGroupRules_size (desired : securityGroupSpec)
    (observed st : SecurityGroupStatus) w w' :
  reconcileGroupRules desired observed w = (Done (st, None), w') →
  length (gs_Rules st) = length (Rules desired) ∧
  (Rules desired ≠ [] → gs_ID st = gs_ID observed ∧ gs_Name st = gs_Name observed) ∧
  (Rules desired = [] →
     st = emptyStatus ∧
     trace w' = trace w ++
       map succeeded (deleteCalls (map rs_ID (gs_Rules observed)))).
Proof.
  intros Hrun.
  destruct (reconcileGroupRules_inv _ _ _ _ _ _ Hrun)
    as (rulesToDelete & rulesToCreate & carried & evs & Hdel & Hcre & Htr & -> & wire & Hwire & ->).
  pose proof (rulesToCreateOf_length _ _ _ _ _ Hcre) as Hlen.
  pose proof (Forall2_length _ _ _ Hwire) as Hw.
  assert (Hsize : length (carried ++ map convertOSSecGroupRuleToConfigSecGroupRule wire)
                  = length (Rules desired)).
  { rewrite length_app, length_map. lia. }
  split; [by rewrite gs_Rules_statusWith|]. split.
  - intros Hne.
    destruct (carried ++ map convertOSSecGroupRuleToConfigSecGroupRule wire) as [|r rs] eqn:E.
    + destruct (Rules desired); [done|]. simpl in Hsize. lia.
    + done.
  - intros Hnil. rewrite Hnil in *. simpl in Hcre. injection Hcre as <- <-.
    apply Forall2_nil_inv_l in Hwire as ->. split; [done|].
    rewrite Htr. do 2 f_equal. unfold plannedCalls. simpl. rewrite app_nil_r. f_equal.
    clear -Hdel. revert rulesToDelete Hdel.
    induction (gs_Rules observed) as [|o os IH]; intros rulesToDelete; simpl.
    + by intros [= <-].
    + destruct (rulesToDeleteOf (gs_ID observed) [] os) as [tl|]; [|done].
      simpl. intros [= <-]. f_equal. by apply IH.
Qed.

End ReconcileCalls.

(** ** Creation and deletion of a group: the calls made *)

Section LifecycleRuns.
Context {C : Type} `{!Client C}.

Lemma getSecurityGroupByName_listed (name : string) w :
  ∃ (g : SecurityGroupStatus) (err : option error),
    let listed := ListSecGroup {| lo_Name := name |} (cloud w) in
    getSecurityGroupByName name w =
      (Done (Some g, err),
       {| cloud := listed.2;
          trace := trace w ++ [listEvent name (replyError listed.1)] |}) ∧
    (∀ e, replyError listed.1 = Some e → err = Some e) ∧
    (err = None → String.eqb (gs_ID g) "" = listsNoGroup listed.1) ∧
    (err = None → gs_ID g ≠ "" → ∃ group, listed.1 = Success [group] ∧ sg_ID group = gs_ID g).
Proof.
  unfold getSecurityGroupByName, client_ListSecGroup. cbn zeta.
  rewrite bind_run, logged_run.
  destruct (ListSecGroup _ (cloud w)) as [[[|group [|g2 rest]]|e] c']; cbn [fst snd].
  - exists emptyStatus, None. split; [done|]. split; [done|]. split; [done|]. done.
  - eexists _, None. split; [reflexivity|]. split; [done|]. split; [done|].
    intros _ _. by exists group.
  - eexists emptyStatus, (Some _). split; [reflexivity|]. done.
  - exists emptyStatus, (Some e). split; [done|]. split; [|done].
    by intros e' [= ->].
Qed.

Lemma createSecurityGroupIfNotExists_shape (openStackCluster : OpenStackCluster)
    (groupName : string) w :
  ∃ (err : option error) (evs : list Event) w',
    createSecurityGroupIfNotExists openStackCluster groupName w = (Done err, w') ∧
    trace w' = trace w ++ evs ∧
    let listed := (ListSecGroup {| lo_Name := groupName |} (cloud w)).1 in
    if listsNoGroup listed then
      (∃ e, err = Some e ∧
         evs = [listEvent groupName None;
                {| call := CallCreateSecGroup (managedGroupOpts groupName);
                   failure := Some e |}]) ∨
      (∃ (group : SecGroup) (c c' : C),
         CreateSecGroup (managedGroupOpts groupName) c = (Success group, c') ∧
         if (0 <? length (spec_Tags (Spec openStackCluster)))%nat then
           evs = [listEvent groupName None;
                  succeeded (CallCreateSecGroup (managedGroupOpts groupName));
                  {| call := tagCall openStackCluster (sg_ID group); failure := err |}]
         else
           err = None ∧
           evs = [listEvent groupName None;
                  succeeded (CallCreateSecGroup (managedGroupOpts groupName))])
    else
      evs = [listEvent groupName (replyError listed)] ∧
      (∀ e, replyError listed = Some e → err = Some e).
Proof.
  unfold createSecurityGroupIfNotExists. rewrite bind_run.
  destruct (getSecurityGroupByName_listed groupName w)
    as (g & err & Hrun & Hfail & Hid & _).
  cbn zeta in Hrun, Hfail, Hid. rewrite Hrun. cbn [fst snd].
  set (listed := ListSecGroup {| lo_Name := groupName |} (cloud w)) in *.
  destruct err as [e|].
  { eexists _, _, _. split; [done|]. split; [done|]. cbn zeta.
    destruct (listsNoGroup listed.1) eqn:Hnone; [|done].
    exfalso. specialize (Hfail e).
    destruct listed.1 as [[|g1 [|g2 rest]]|e1] eqn:Hl; simpl in *; try done.
    - unfold getSecurityGroupByName, client_ListSecGroup in Hrun.
      rewrite bind_run, logged_run in Hrun. fold listed in Hrun. rewrite Hl in Hrun.
      discriminate Hrun.
    - unfold getSecurityGroupByName, client_ListSecGroup in Hrun.
      rewrite bind_run, logged_run in Hrun. fold listed in Hrun. rewrite Hl in Hrun.
      discriminate Hrun. }
  specialize (Hid eq_refl). unfold absent. rewrite Hid.
  assert (Hok : listsNoGroup listed.1 = true → replyError listed.1 = None).
  { by destruct listed.1 as [[|g1 [|g2 rest]]|e1]. }
  destruct (listsNoGroup listed.1) eqn:Hnone.
  2:{ eexists _, _, _. split; [done|]. split; [done|]. cbn zeta. done. }
  rewrite (Hok eq_refl).
  unfold client_CreateSecGroup. rewrite bind_run, logged_run. cbn [cloud trace].
  fold (managedGroupOpts groupName).
  destruct (CreateSecGroup (managedGroupOpts groupName) listed.2) as [[group|e] c1] eqn:Hcreate;
    cbn [fst snd replyError].
  2:{ eexists _, _, _. split; [done|]. split; [by rewrite <- app_assoc|].
      cbn zeta. left. by exists e. }
  destruct (0 <? length (spec_Tags (Spec openStackCluster)))%nat eqn:Htags.
  2:{ eexists _, _, _. split; [done|]. split; [by rewrite <- app_assoc|].
      cbn zeta. right. exists group, listed.2, c1. split; [done|]. done. }
  unfold client_ReplaceAllAttributesTags. rewrite bind_run, logged_run. cbn [cloud trace].
  destruct (ReplaceAllAttributesTags _ _ _ c1) as [[tags|e] c2]; cbn [fst snd replyError].
  - eexists _, _, _. split; [done|]. split; [by rewrite <- !app_assoc|].
    cbn zeta. right. exists group, listed.2, c1. split; [done|]. done.
  - eexists _, _, _. split; [done|]. split; [by rewrite <- !app_assoc|].
    cbn zeta. right. exists group, listed.2, c1. split; [done|]. done.
Qed.

(** X12.  [createSecurityGroupIfNotExists] lists the groups of the
    name once.  When the listing shows a group, is ambiguous or fails, it
    makes no other call.  When the listing shows none, it creates one
    group, with the name and the fixed description, and then, only if the
    cluster has tags and the creation succeeded, sets them on the group
    the provider returned; the error of the last call made is the error
    returned.  It never deletes anything and makes no rule call. *)
Theorem createSecurityGroupIfNotExists_calls (openStackCluster : OpenStackCluster)
    (groupName : string) w :
  ∃ (err : option error) (evs : list Event) w',
    createSecurityGroupIfNotExists openStackCluster groupName w = (Done err, w') ∧
    trace w' = trace w ++ evs ∧
    let listed := (ListSecGroup {| lo_Name := groupName |} (cloud w)).1 in
    if listsNoGroup listed then
      (∃ e, err = Some e ∧
         evs = [listEvent groupName None;
                {| call := CallCreateSecGroup (managedGroupOpts groupName);
                   failure := Some e |}]) ∨
      (∃ (group : SecGroup) (c c' : C),
         CreateSecGroup (managedGroupOpts groupName) c = (Success group, c') ∧
         if (0 <? length (spec_Tags (Spec openStackCluster)))%nat then
           evs = [listEvent groupName None;
                  succeeded (CallCreateSecGroup (managedGroupOpts groupName));
                  {| call := tagCall openStackCluster (sg_ID group); failure := err |}]
         else
           err = None ∧
           evs = [listEvent groupName None;
                  succeeded (CallCreateSecGroup (managedGroupOpts groupName))])
    else
      evs = [listEvent groupName (replyError listed)] ∧
      (∀ e, replyError listed = Some e → err = Some e).
Proof. apply createSecurityGroupIfNotExists_shape. Qed.

Lemma deleteSecurityGroup_shape (openStackCluster : OpenStackCluster)
    (name : string) w :
  ∃ (err : option error) (evs : list Event) w',
    deleteSecurityGroup openStackCluster name w = (Done err, w') ∧
    trace w' = trace w ++ evs ∧
    let listed := (ListSecGroup {| lo_Name := name |} (cloud w)).1 in
    match listed with
    | Success [group] =>
        if String.eqb (sg_ID group) "" then err = None ∧ evs = [listEvent name None]
        else evs = [listEvent name None;
                    {| call := CallDeleteSecGroup (sg_ID group); failure := err |}]
    | Success [] => err = None ∧ evs = [listEvent name None]
    | Success (_ :: _ :: _) =>
        err = Some ("more than one security group found named: " +:+ name) ∧
        evs = [listEvent name None]
    | Failure e => err = Some e ∧ evs = [listEvent name (Some e)]
    end.
Proof.
  unfold deleteSecurityGroup, getSecurityGroupByName, client_ListSecGroup.
  cbn zeta. rewrite !bind_run, logged_run.
  destruct (ListSecGroup _ (cloud w)) as [[[|group [|g2 rest]]|e] c']; cbn [fst snd].
  - eexists _, _, _. split; [reflexivity|]. done.
  - unfold convertOSSecGroupToConfigSecGroup, M_ret, mret. cbn [fst snd].
    rewrite bind_run. unfold liftO, deref. cbn [gs_ID].
    destruct (String.eqb (sg_ID group) "") eqn:Hid.
    + eexists _, _, _. split; [reflexivity|]. done.
    + unfold client_DeleteSecGroup. rewrite bind_run, logged_run. cbn [cloud trace].
      destruct (DeleteSecGroup (sg_ID group) c') as [[e|] c2]; cbn [fst snd].
      * eexists _, _, _. split; [reflexivity|]. split; [by rewrite <- app_assoc|]. done.
      * eexists _, _, _. split; [reflexivity|]. split; [by rewrite <- app_assoc|]. done.
  - eexists _, _, _. split; [reflexivity|]. done.
  - eexists _, _, _. split; [reflexivity|]. done.
Qed.

(** X13.  [deleteSecurityGroup] never panics.  It lists the groups of
    the name once, and deletes a group only when the listing holds
    exactly one, with a non-empty ID: that group, by its ID, and the
    error of the deletion, if any, is the error returned.  With no group
    listed it returns nil; with several, or when the listing fails, it
    returns an error, and in these cases it makes no other call. *)
Theorem deleteSecurityGroup_calls (openStackCluster : OpenStackCluster)
    (name : string) w :
  ∃ (err : option error) (evs : list Event) w',
    deleteSecurityGroup openStackCluster name w = (Done err, w') ∧
    trace w' = trace w ++ evs ∧
    let listed := (ListSecGroup {| lo_Name := name |} (cloud w)).1 in
    match listed with
    | Success [group] =>
        if String.eqb (sg_ID group) "" then err = None ∧ evs = [listEvent name None]
        else evs = [listEvent name None;
                    {| call := CallDeleteSecGroup (sg_ID group); failure := err |}]
    | Success [] => err = None ∧ evs = [listEvent name None]
    | Success (_ :: _ :: _) =>
        err = Some ("more than one security group found named: " +:+ name) ∧
        evs = [listEvent name None]
    | Failure e => err = Some e ∧ evs = [listEvent name (Some e)]
    end.
Proof. apply deleteSecurityGroup_shape. Qed.




End LifecycleRuns.

(** ** The generator and the top-level reconciler: the calls and the results *)

Section GeneratorExtras.
Context {C : Type} `{!Client C} `{!RuleTables} `{!MapOrder}.
Implicit Types w : World C.

Lemma rangeMap_lookup {V : Type} (site : nat) (m : gmap string V) (k : string) (v : V) :
  In (k, v) (rangeMap site m) ↔ m !! k = Some v.
Proof.
  rewrite <- list_elem_of_In, rangeMap_perm. apply elem_of_map_to_list.
Qed.

Lemma rangeMap_covers {V : Type} (site : nat) (m : gmap string V) (k : string) :
  is_Some (m !! k) → In k (map fst (rangeMap site m)).
Proof.
  intros [v Hv]. apply in_map_iff. exists (k, v). split; [done|].
  by apply rangeMap_lookup.
Qed.

Lemma suffixes_distinct :
  controlPlaneSuffix ≠ workerSuffix ∧ controlPlaneSuffix ≠ bastionSuffix ∧
  workerSuffix ≠ bastionSuffix.
Proof. by repeat split. Qed.

Lemma recordGroupID_agrees (i id : string) (ids : groupIDs) :
  tableAgrees ids → tableAgrees (recordGroupID i id ids).
Proof.
  intros (Hcp & Hw & Hb). unfold recordGroupID, tableAgrees.
  destruct (String.eqb i controlPlaneSuffix); simpl.
  { rewrite lookup_insert_eq, !lookup_insert_ne by done.
    split; [by intros ? [= ->]|]. by split. }
  destruct (String.eqb i workerSuffix); simpl.
  { rewrite lookup_insert_eq, !lookup_insert_ne by done.
    split; [done|]. split; [by intros ? [= ->]|done]. }
  destruct (String.eqb i bastionSuffix); simpl; [|done].
  rewrite lookup_insert_eq, !lookup_insert_ne by done.
  split; [done|]. split; [done|]. by intros ? [= ->].
Qed.

Lemma recordGroupID_keeps (i id role : string) (ids : groupIDs) :
  is_Some (remoteManagedGroups ids !! role) →
  is_Some (remoteManagedGroups (recordGroupID i id ids) !! role).
Proof.
  intros Hsome. unfold recordGroupID.
  destruct (String.eqb i controlPlaneSuffix); simpl.
  { apply lookup_insert_is_Some. destruct (decide (controlPlaneSuffix = role)); tauto. }
  destruct (String.eqb i workerSuffix); simpl.
  { apply lookup_insert_is_Some. destruct (decide (workerSuffix = role)); tauto. }
  destruct (String.eqb i bastionSuffix); simpl; [|done].
  apply lookup_insert_is_Some. destruct (decide (bastionSuffix = role)); tauto.
Qed.

Lemma recordGroupID_records (i id : string) (ids : groupIDs) :
  managedRole i → remoteManagedGroups (recordGroupID i id ids) !! i = Some id.
Proof.
  unfold recordGroupID. intros [-> | [-> | ->]]; simpl; by rewrite lookup_insert_eq.
Qed.

(** The lookup loop lists each name once, in the order of the entries,
    and stops at the first error; what it has put in the table. *)
Lemma lookupLoop_calls (entries : list (string * string)) (ids : groupIDs) w :
  ∃ (ids' : groupIDs) (err : option error) (evs : list Event) w',
    lookupLoop entries ids w = (Done (ids', err), w') ∧
    trace w' = trace w ++ evs ∧
    map call evs `prefix_of`
      map (λ kv, CallListSecGroup {| lo_Name := kv.2 |}) entries ∧
    (tableAgrees ids → tableAgrees ids') ∧
    (err = None →
       evs = map (λ kv, listEvent kv.2 None) entries ∧
       (∀ role, is_Some (remoteManagedGroups ids !! role) →
                is_Some (remoteManagedGroups ids' !! role)) ∧
       (∀ role, managedRole role → In role (map fst entries) →
                is_Some (remoteManagedGroups ids' !! role))).
Proof.
  revert ids w. induction entries as [|[i v] rest IH]; intros ids w.
  - exists ids, None, [], w. simpl. rewrite app_nil_r.
    split; [done|]. split; [done|]. split; [done|]. split; [done|].
    intros _. split; [done|]. split; [done|]. by intros ? _ ?.
  - simpl lookupLoop. rewrite bind_run.
    destruct (getSecurityGroupByName_run v w)
      as (g & err & failed & w1 & -> & Htr & _ & Hok & Hfailed).
    cbn [fst snd]. destruct err as [e|].
    + exists ids, (Some e), [listEvent v failed], w1.
      split; [done|]. split; [done|]. split; [|done].
      simpl. by apply prefix_cons, prefix_nil.
    + assert (failed = None) as ->.
      { destruct failed as [e|]; [|done]. by specialize (Hfailed e eq_refl). }
      rewrite bind_run. unfold liftO at 1, deref.
      destruct (IH (recordGroupID i (gs_ID g) ids) w1)
        as (ids' & err & evs & w' & -> & Htr' & Hpre & Hagree & Hsucc).
      exists ids', err, (listEvent v None :: evs), w'.
      split; [done|]. split; [by rewrite Htr', Htr, <- app_assoc|].
      split; [simpl; by apply prefix_cons|].
      split; [intros ?; by apply Hagree, recordGroupID_agrees|].
      intros He. destruct (Hsucc He) as (-> & Hkeep & Hnew).
      split; [done|]. split.
      * intros role Hrole. by apply Hkeep, recordGroupID_keeps.
      * intros role Hrole [<-|Hin]; [|by apply Hnew].
        simpl. apply Hkeep. rewrite recordGroupID_records; done.
Qed.

(** The groups of a map the generator returns without error. *)
Lemma generateFrom_lookup (openStackCluster : OpenStackCluster)
    (managed : ManagedSecurityGroups) (secGroupNames : gmap string string)
    (ids : groupIDs) (desired : gmap string securityGroupSpec) :
  generateFrom openStackCluster managed secGroupNames ids = (desired, None) →
  (∀ k, is_Some (desired !! k) ↔
        k = controlPlaneSuffix ∨ k = workerSuffix ∨
        (k = bastionSuffix ∧ bastionEnabled openStackCluster = true)) ∧
  (∀ k g, desired !! k = Some g → Name g = default "" (secGroupNames !! k)) ∧
  (bastionEnabled openStackCluster = true →
     desired !! bastionSuffix =
     Some {| Name := default "" (secGroupNames !! bastionSuffix);
             Rules := bastionSSHRule :: defaultRules |}).
Proof.
  unfold generateFrom.
  destruct (getAllNodesRules _ _) as [allNodesRules [e|]]; cbn [fst snd]; [done|].
  destruct (bastionEnabled openStackCluster); cbn [fst snd]; intros [= <-].
  - split; [|split].
    + intros k. rewrite !lookup_insert_is_Some, lookup_empty, is_Some_alt.
      destruct (decide (workerSuffix = k)), (decide (controlPlaneSuffix = k)),
        (decide (bastionSuffix = k)); intuition congruence.
    + intros k g.
      destruct (decide (workerSuffix = k)) as [<-|?];
        [rewrite lookup_insert_eq; by intros [= <-]|rewrite lookup_insert_ne by done].
      destruct (decide (controlPlaneSuffix = k)) as [<-|?];
        [rewrite lookup_insert_eq; by intros [= <-]|rewrite lookup_insert_ne by done].
      destruct (decide (bastionSuffix = k)) as [<-|?];
        [rewrite lookup_insert_eq; by intros [= <-]|rewrite lookup_insert_ne by done].
      by rewrite lookup_empty.
    + intros _. by rewrite !lookup_insert_ne, lookup_insert_eq by done.
  - split; [|split; [|done]].
    + intros k. rewrite !lookup_insert_is_Some, lookup_empty, is_Some_alt.
      destruct (decide (workerSuffix = k)), (decide (controlPlaneSuffix = k));
        intuition congruence.
    + intros k g.
      destruct (decide (workerSuffix = k)) as [<-|?];
        [rewrite lookup_insert_eq; by intros [= <-]|rewrite lookup_insert_ne by done].
      destruct (decide (controlPlaneSuffix = k)) as [<-|?];
        [rewrite lookup_insert_eq; by intros [= <-]|rewrite lookup_insert_ne by done].
      by rewrite lookup_empty.
Qed.

Lemma generateFrom_failed (openStackCluster : OpenStackCluster)
    (managed : ManagedSecurityGroups) (secGroupNames : gmap string string)
    (ids : groupIDs) (e : error) :
  (generateFrom openStackCluster managed secGroupNames ids).2 = Some e →
  (generateFrom openStackCluster managed secGroupNames ids).1 = ∅.
Proof.
  unfold generateFrom.
  destruct (getAllNodesRules _ _) as [allNodesRules [e'|]]; cbn [fst snd]; done.
Qed.

Lemma generateDesiredSecGroups_listing (openStackCluster : OpenStackCluster)
    (secGroupNames : gmap string string) w :
  ∃ (desired : gmap string securityGroupSpec) (err : option error)
    (evs : list Event) w',
    generateDesiredSecGroups openStackCluster secGroupNames w =
      (Done (desired, err), w') ∧
    trace w' = trace w ++ evs ∧
    map call evs `prefix_of`
      map (λ kv, CallListSecGroup {| lo_Name := kv.2 |}) (rangeMap 1 secGroupNames) ∧
    (∀ e, err = Some e → desired = ∅) ∧
    (spec_ManagedSecurityGroups (Spec openStackCluster) = None →
       desired = ∅ ∧ err = None ∧ w' = w) ∧
    (∀ managed, spec_ManagedSecurityGroups (Spec openStackCluster) = Some managed →
       err = None →
       evs = map (λ kv, listEvent kv.2 None) (rangeMap 1 secGroupNames) ∧
       ∃ ids, generateFrom openStackCluster managed secGroupNames ids = (desired, None) ∧
         tableAgrees ids ∧
         ∀ role, is_Some (remoteManagedGroups ids !! role) ↔
                 managedRole role ∧ is_Some (secGroupNames !! role)).
Proof.
  unfold generateDesiredSecGroups.
  destruct (spec_ManagedSecurityGroups (Spec openStackCluster)) as [managed|] eqn:Hspec.
  2:{ exists ∅, None, [], w. rewrite app_nil_r. split; [done|]. split; [done|].
      split; [apply prefix_nil|]. split; [done|]. split; [done|]. done. }
  rewrite bind_run.
  destruct (lookupLoop_calls (rangeMap 1 secGroupNames) noGroupIDs w)
    as (ids & lookupErr & evs & w' & Hrun & Htr & Hpre & Hagree & Hsucc).
  destruct (lookupLoop_run (rangeMap 1 secGroupNames) noGroupIDs w)
    as (ids0 & err0 & evs0 & w0 & Hrun0 & _ & _ & _ & Hnone).
  rewrite Hrun in Hrun0. injection Hrun0 as <- <- <-.
  rewrite Hrun. cbn [fst snd]. destruct lookupErr as [e|].
  { exists ∅, (Some e), evs, w'. split; [done|]. split; [done|]. split; [done|].
    split; [done|]. split; [done|]. done. }
  destruct (generateFrom openStackCluster managed secGroupNames ids) as [desired err] eqn:Hgen.
  exists desired, err, evs, w'. split; [done|]. split; [done|]. split; [done|].
  split; [|split; [done|]].
  - intros e ->. pose proof (generateFrom_failed openStackCluster managed secGroupNames ids e) as H1.
    rewrite Hgen in H1. by apply H1.
  - intros managed' [= <-] ->. destruct (Hsucc eq_refl) as (-> & _ & Hnew).
    split; [done|]. exists ids. split; [done|]. split.
    { apply Hagree. unfold tableAgrees, noGroupIDs. simpl.
      by repeat split; intros id; rewrite lookup_empty. }
    intros role. split.
    + intros Hsome. destruct (remoteManagedGroups ids !! role) as [id|] eqn:Hrole;
        [|by destruct Hsome].
      assert (Hcase : ¬ (¬ In role (map fst (rangeMap 1 secGroupNames)) ∨ ¬ managedRole role)).
      { intros Hcase. specialize (Hnone eq_refl role (lookup_empty _) Hcase). congruence. }
      split.
      * unfold managedRole.
        destruct (decide (role = controlPlaneSuffix)); [tauto|].
        destruct (decide (role = workerSuffix)); [tauto|].
        destruct (decide (role = bastionSuffix)); [tauto|].
        exfalso. apply Hcase. right. unfold managedRole. tauto.
      * destruct (secGroupNames !! role) eqn:Hname; [done|].
        exfalso. apply Hcase. left. intros [? ?]%rangeMap_keys. congruence.
    + intros [Hrole Hname]. apply Hnew; [done|]. by apply rangeMap_covers.
Qed.

(** X15.  [generateDesiredSecGroups] never panics and calls the
    provider only to list: the names of [secGroupNames], one call each in
    the order [range] gives them, until one fails or is ambiguous.  With
    an error the map it returns is empty; for a cluster without managed
    security groups it returns the empty map without any call. *)
Theorem generateDesiredSecGroups_calls (openStackCluster : OpenStackCluster)
    (secGroupNames : gmap string string) w :
  ∃ (desired : gmap string securityGroupSpec) (err : option error)
    (evs : list Event) w',
    generateDesiredSecGroups openStackCluster secGroupNames w =
      (Done (desired, err), w') ∧
    trace w' = trace w ++ evs ∧
    map call evs `prefix_of`
      map (λ kv, CallListSecGroup {| lo_Name := kv.2 |}) (rangeMap 1 secGroupNames) ∧
    (∀ e, err = Some e → desired = ∅) ∧
    (spec_ManagedSecurityGroups (Spec openStackCluster) = None →
       desired = ∅ ∧ err = None ∧ w' = w) ∧
    (is_Some (spec_ManagedSecurityGroups (Spec openStackCluster)) → err = None →
       evs = map (λ kv, listEvent kv.2 None) (rangeMap 1 secGroupNames)).
Proof.
  destruct (generateDesiredSecGroups_listing openStackCluster secGroupNames w)
    as (desired & err & evs & w' & Hrun & Htr & Hpre & Herr & Hnil & Hsucc).
  exists desired, err, evs, w'. split; [done|]. split; [done|]. split; [done|].
  split; [done|]. split; [done|].
  intros [managed Hspec] He. by destruct (Hsucc managed Hspec He) as [? _].
Qed.

(** X16.  The map [generateDesiredSecGroups] returns without error for a
    cluster with managed security groups holds the control-plane group,
    the worker group and, exactly when the bastion is enabled, the
    bastion group, and nothing else; each under the name [secGroupNames]
    has for its key; the bastion group with the SSH rule followed by the
    default rules.  The resolution table the rules were generated from
    holds exactly the managed roles that are keys of [secGroupNames], and
    agrees with the group IDs used in the role rules. *)
Theorem generateDesiredSecGroups_groups (openStackCluster : OpenStackCluster)
    (managed : ManagedSecurityGroups) (secGroupNames : gmap string string)
    (desired : gmap string securityGroupSpec) w w' :
  spec_ManagedSecurityGroups (Spec openStackCluster) = Some managed →
  generateDesiredSecGroups openStackCluster secGroupNames w = (Done (desired, None), w') →
  (∀ k, is_Some (desired !! k) ↔
        k = controlPlaneSuffix ∨ k = workerSuffix ∨
        (k = bastionSuffix ∧ bastionEnabled openStackCluster = true)) ∧
  (∀ k g, desired !! k = Some g → Name g = default "" (secGroupNames !! k)) ∧
  (bastionEnabled openStackCluster = true →
     desired !! bastionSuffix =
     Some {| Name := default "" (secGroupNames !! bastionSuffix);
             Rules := bastionSSHRule :: defaultRules |}) ∧
  ∃ ids, generateFrom openStackCluster managed secGroupNames ids = (desired, None) ∧
    tableAgrees ids ∧
    ∀ role, is_Some (remoteManagedGroups ids !! role) ↔
            managedRole role ∧ is_Some (secGroupNames !! role).
Proof.
  intros Hspec Hrun.
  destruct (generateDesiredSecGroups_listing openStackCluster secGroupNames w)
    as (desired0 & err & evs & w0 & Hrun0 & _ & _ & _ & _ & Hsucc).
  rewrite Hrun in Hrun0. injection Hrun0 as <- <- <-.
  destruct (Hsucc managed Hspec eq_refl) as (_ & ids & Hgen & Hagree & Htable).
  destruct (generateFrom_lookup _ _ _ _ _ Hgen) as (Hdom & Hname & Hbastion).
  split; [done|]. split; [done|]. split; [done|]. by exists ids.
Qed.

End GeneratorExtras.

Section ReconcilerExtras.
Context {C : Type} `{!Client C} `{!RuleTables} `{!MapOrder}.
Implicit Types w : World C.

Lemma reconcileGroupRules_ruleCalls (desired : securityGroupSpec)
    (observed st : SecurityGroupStatus) (err : option error) w w' :
  reconcileGroupRules desired observed w = (Done (st, err), w') →
  ∃ evs, trace w' = trace w ++ evs ∧ Forall (λ ev, ruleCall (call ev) = true) evs.
Proof.
  intros Hrun.
  destruct (reconcileGroupRules_planned _ _ _ _ _ _ Hrun)
    as (rulesToDelete & rulesToCreate & carried & evs & _ & _ & Htr & Hpre & _).
  exists evs. split; [done|].
  pose proof (plannedCalls_ruleCalls (gs_ID observed) rulesToDelete rulesToCreate) as Hall.
  destruct Hpre as [k Hk]. rewrite Hk in Hall. apply Forall_app in Hall as [Hall _].
  by apply List.Forall_map in Hall.
Qed.

Lemma secGroupNamesOf_values (openStackCluster : OpenStackCluster)
    (clusterName role name : string) :
  secGroupNamesOf openStackCluster clusterName !! role = Some name ↔
  (role = controlPlaneSuffix ∧ name = getSecControlPlaneGroupName clusterName) ∨
  (role = workerSuffix ∧ name = getSecWorkerGroupName clusterName) ∨
  (role = bastionSuffix ∧ name = getSecBastionGroupName clusterName ∧
   bastionEnabled openStackCluster = true).
Proof.
  unfold secGroupNamesOf. cbn zeta.
  destruct (bastionEnabled openStackCluster).
  - destruct (decide (bastionSuffix = role)) as [<-|?];
      [rewrite lookup_insert_eq|rewrite lookup_insert_ne by done].
    { split; [intros [= <-]; tauto|]. by intros [[? _]|[[? _]|(_ & -> & _)]]. }
    destruct (decide (workerSuffix = role)) as [<-|?];
      [rewrite lookup_insert_eq|rewrite lookup_insert_ne by done].
    { split; [intros [= <-]; tauto|]. by intros [[? _]|[[_ ->]|(? & _ & _)]]. }
    destruct (decide (controlPlaneSuffix = role)) as [<-|?];
      [rewrite lookup_insert_eq|rewrite lookup_insert_ne by done].
    { split; [intros [= <-]; tauto|]. by intros [[_ ->]|[[? _]|(? & _ & _)]]. }
    rewrite lookup_empty. split; [done|]. intros [[? _]|[[? _]|(? & _ & _)]]; congruence.
  - destruct (decide (workerSuffix = role)) as [<-|?];
      [rewrite lookup_insert_eq|rewrite lookup_insert_ne by done].
    { split; [intros [= <-]; tauto|]. by intros [[? _]|[[_ ->]|(? & _ & ?)]]. }
    destruct (decide (controlPlaneSuffix = role)) as [<-|?];
      [rewrite lookup_insert_eq|rewrite lookup_insert_ne by done].
    { split; [intros [= <-]; tauto|]. by intros [[_ ->]|[[? _]|(? & _ & ?)]]. }
    rewrite lookup_empty. split; [done|]. intros [[? _]|[[? _]|(? & _ & ?)]]; congruence.
Qed.

Lemma ensureLoop_setup (openStackCluster : OpenStackCluster)
    (entries : list (string * string)) w :
  ∃ (err : option error) (evs : list Event) w',
    ensureLoop openStackCluster entries w = (Done err, w') ∧
    trace w' = trace w ++ evs ∧
    Forall (λ ev, setupCall (call ev) = true) evs ∧
    Forall (λ ev, ∀ opts, call ev = CallListSecGroup opts →
                  In (lo_Name opts) (map snd entries)) evs.
Proof.
  revert w. induction entries as [|[i v] rest IH]; intros w.
  - exists None, [], w. simpl. rewrite app_nil_r. by repeat split.
  - simpl ensureLoop. rewrite bind_run.
    destruct (createSecurityGroupIfNotExists_shape openStackCluster v w)
      as (err & evs & w1 & -> & Htr & Hshape).
    assert (Hevs : Forall (λ ev, setupCall (call ev) = true) evs ∧
                   Forall (λ ev, ∀ opts, call ev = CallListSecGroup opts →
                                 In (lo_Name opts) (map snd ((i, v) :: rest))) evs).
    { cbn zeta in Hshape.
      assert (Hnames : ∀ evs', (∀ ev, In ev evs' → ∀ opts, call ev = CallListSecGroup opts →
                                       lo_Name opts = v) →
                Forall (λ ev, ∀ opts, call ev = CallListSecGroup opts →
                              In (lo_Name opts) (map snd ((i, v) :: rest))) evs').
      { intros evs' Hall. apply List.Forall_forall. intros ev Hev opts Hcall.
        left. symmetry. by apply (Hall ev Hev). }
      destruct (listsNoGroup _).
      - destruct Hshape as [(e & _ & ->)|(group & c & c' & _ & Hevs)].
        + split; [by repeat constructor|]. apply Hnames. intros ev Hev opts Hcall.
          simpl in Hev. destruct Hev as [<-|[<-|[]]]; [by injection Hcall as <-|done].
        + destruct (0 <? length (spec_Tags (Spec openStackCluster)))%nat.
          * subst evs. split; [by repeat constructor|]. apply Hnames.
            intros ev Hev opts Hcall. simpl in Hev.
            destruct Hev as [<-|[<-|[<-|[]]]]; [by injection Hcall as <-|done|done].
          * destruct Hevs as [_ ->]. split; [by repeat constructor|]. apply Hnames.
            intros ev Hev opts Hcall. simpl in Hev.
            destruct Hev as [<-|[<-|[]]]; [by injection Hcall as <-|done].
      - destruct Hshape as [-> _]. split; [by repeat constructor|]. apply Hnames.
        intros ev Hev opts Hcall. simpl in Hev.
        destruct Hev as [<-|[]]. by injection Hcall as <-. }
    destruct Hevs as [Hsetup Hnames].
    destruct err as [e|]; [by exists (Some e), evs, w1|].
    destruct (IH w1) as (err & evs' & w' & -> & Htr' & Hsetup' & Hnames').
    exists err, (evs ++ evs'), w'. split; [done|].
    split; [by rewrite Htr', Htr, <- app_assoc|].
    split; [by apply Forall_app|]. apply Forall_app. split; [done|].
    eapply Forall_impl; [exact Hnames'|]. simpl. intros ev Hev opts Hcall. right.
    by apply Hev.
Qed.

Lemma reconcileLoop_run (entries : list (string * securityGroupSpec))
    (observedSecGroups : gmap string (option SecurityGroupStatus)) w :
  ∃ (observed' : gmap string (option SecurityGroupStatus)) (err : option error)
    (evs : list Event) w',
    reconcileLoop entries observedSecGroups w = (Done (observed', err), w') ∧
    trace w' = trace w ++ evs ∧
    Forall (λ ev, groupCall (call ev) = false) evs ∧
    Forall (λ ev, ∀ opts, call ev = CallListSecGroup opts →
                  In (lo_Name opts) (map (λ kv, Name kv.2) entries)) evs ∧
    (err = None →
       (∀ k, In k (map fst entries) → ∃ g, observed' !! k = Some (Some g)) ∧
       (∀ k, ¬ In k (map fst entries) → observed' !! k = observedSecGroups !! k)).
Proof.
  revert observedSecGroups w.
  induction entries as [|[k desiredSecGroup] rest IH]; intros observedSecGroups w.
  - exists observedSecGroups, None, [], w. simpl. rewrite app_nil_r.
    split; [done|]. split; [done|]. split; [done|]. split; [done|].
    intros _. split; [by intros ? ?|done].
  - simpl reconcileLoop. rewrite bind_run.
    destruct (getSecurityGroupByName_run (Name desiredSecGroup) w)
      as (g & err & failed & w1 & -> & Htr & Hfull & _ & _).
    cbn [fst snd].
    assert (Hlist : Forall (λ ev, ∀ opts, call ev = CallListSecGroup opts →
               In (lo_Name opts) (map (λ kv, Name kv.2) ((k, desiredSecGroup) :: rest)))
               [listEvent (Name desiredSecGroup) failed]).
    { constructor; [|constructor]. intros opts [= <-]. by left. }
    destruct err as [e|].
    { eexists _, (Some e), _, w1. split; [done|]. split; [exact Htr|].
      split; [by repeat constructor|]. split; [exact Hlist|]. done. }
    rewrite bind_run. unfold liftO at 1, deref.
    assert (Hweaken : ∀ evs',
      Forall (λ ev, ∀ opts, call ev = CallListSecGroup opts →
                    In (lo_Name opts) (map (λ kv, Name kv.2) rest)) evs' →
      Forall (λ ev, ∀ opts, call ev = CallListSecGroup opts →
                    In (lo_Name opts) (map (λ kv, Name kv.2) ((k, desiredSecGroup) :: rest)))
        evs').
    { intros evs' Hall. eapply Forall_impl; [exact Hall|]. simpl.
      intros ev Hev opts Hcall. right. by apply Hev. }
    assert (Hafter : ∀ (obs1 obs' : gmap string (option SecurityGroupStatus)),
      (∃ g1, obs1 !! k = Some (Some g1)) →
      (∀ k', k' ≠ k → obs1 !! k' = observedSecGroups !! k') →
      (∀ k', In k' (map fst rest) → ∃ g', obs' !! k' = Some (Some g')) →
      (∀ k', ¬ In k' (map fst rest) → obs' !! k' = obs1 !! k') →
      (∀ k', In k' (map fst ((k, desiredSecGroup) :: rest)) →
             ∃ g', obs' !! k' = Some (Some g')) ∧
      (∀ k', ¬ In k' (map fst ((k, desiredSecGroup) :: rest)) →
             obs' !! k' = observedSecGroups !! k')).
    { intros obs1 obs' Hk Hother Hin Hout. split.
      - intros k' Hk'. destruct (decide (k' ∈ map fst rest)) as [Hd|Hd].
        + by apply Hin, list_elem_of_In.
        + destruct Hk' as [<-|Hk']; [|by apply Hin].
          rewrite Hout; [done|]. intros ?. by apply Hd, list_elem_of_In.
      - intros k' Hk'. simpl in Hk'. rewrite Hout by tauto. apply Hother.
        intros ->. tauto. }
    destruct (String.eqb (gs_ID g) ""); cbn [negb].
    + destruct (IH (<[k := Some g]> observedSecGroups) w1)
        as (obs' & err & evs & w' & -> & Htr' & Hcalls & Hnames & Hsucc).
      exists obs', err, ([listEvent (Name desiredSecGroup) failed] ++ evs), w'.
      split; [done|]. split; [by rewrite Htr', Htr, <- app_assoc|].
      split; [apply Forall_app; split; [by repeat constructor|done]|].
      split; [apply Forall_app; split; [done|by apply Hweaken]|].
      intros He. destruct (Hsucc He) as [Hin Hout].
      apply (Hafter (<[k := Some g]> observedSecGroups)); try done.
      * exists g. by rewrite lookup_insert_eq.
      * intros k' Hk'. by rewrite lookup_insert_ne.
    + rewrite bind_run.
      destruct (reconcileGroupRules_total desiredSecGroup g w1 Hfull)
        as (st & err2 & w2 & Hrun2).
      rewrite Hrun2. cbn [fst snd].
      destruct (reconcileGroupRules_ruleCalls _ _ _ _ _ _ Hrun2) as (evs2 & Htr2 & Hrule).
      assert (Hevs2 : Forall (λ ev, groupCall (call ev) = false) evs2 ∧
                      ∀ names, Forall (λ ev, ∀ opts, call ev = CallListSecGroup opts →
                                            In (lo_Name opts) names) evs2).
      { split; [|intros names]; (eapply Forall_impl; [exact Hrule|]); simpl;
          intros ev Hev; destruct (call ev); try done. }
      destruct Hevs2 as [Hgroup2 Hnames2].
      destruct err2 as [e|].
      { eexists _, (Some e), ([listEvent (Name desiredSecGroup) failed] ++ evs2), w2.
        split; [done|]. split; [by rewrite Htr2, Htr, <- app_assoc|].
        split; [apply Forall_app; split; [by repeat constructor|done]|].
        split; [apply Forall_app; split; [done|apply Hnames2]|]. done. }
      destruct (IH (<[k := Some st]> (<[k := Some g]> observedSecGroups)) w2)
        as (obs' & err & evs & w' & -> & Htr' & Hcalls & Hnames & Hsucc).
      exists obs', err, (([listEvent (Name desiredSecGroup) failed] ++ evs2) ++ evs), w'.
      split; [done|]. split; [by rewrite Htr', Htr2, Htr, <- !app_assoc|].
      split; [repeat (apply Forall_app; split); by repeat constructor|].
      split; [repeat (apply Forall_app; split); [done|apply Hnames2|by apply Hweaken]|].
      intros He. destruct (Hsucc He) as [Hin Hout].
      apply (Hafter (<[k := Some st]> (<[k := Some g]> observedSecGroups))); try done.
      * exists st. by rewrite lookup_insert_eq.
      * intros k' Hk'. by rewrite !lookup_insert_ne.
Qed.

Lemma ReconcileSecurityGroups_unfold (openStackCluster : OpenStackCluster)
    (clusterName : string) :
  ReconcileSecurityGroups openStackCluster clusterName =
  match spec_ManagedSecurityGroups (Spec openStackCluster) with
  | None => mret (openStackCluster, None)
  | Some _ =>
      let secGroupNames := secGroupNamesOf openStackCluster clusterName in
      err ← ensureLoop openStackCluster (rangeMap 0 secGroupNames);
      match err with
      | Some e => mret (openStackCluster, Some e)
      | None =>
          generated ← generateDesiredSecGroups openStackCluster secGroupNames;
          match generated.2 with
          | Some e => mret (openStackCluster, Some e)
          | None =>
              looped ← reconcileLoop (rangeMap 2 generated.1) ∅;
              match looped.2 with
              | Some e => mret (openStackCluster, Some e)
              | None =>
                  mret ({| Spec := Spec openStackCluster;
                           Status :=
                             {| ControlPlaneSecurityGroup :=
                                  observedAt looped.1 controlPlaneSuffix;
                                WorkerSecurityGroup :=
                                  observedAt looped.1 workerSuffix;
                                BastionSecurityGroup :=
                                  observedAt looped.1 bastionSuffix |} |},
                        None)
              end
          end
      end
  end.
Proof. reflexivity. Qed.

(** What a run of [ReconcileSecurityGroups] comes to, for a cluster with
    managed security groups. *)
Lemma ReconcileSecurityGroups_run (openStackCluster : OpenStackCluster)
    (managed : ManagedSecurityGroups) (clusterName : string) w :
  spec_ManagedSecurityGroups (Spec openStackCluster) = Some managed →
  ∃ (result : OpenStackCluster) (err : option error) (setup work : list Event) w',
    ReconcileSecurityGroups openStackCluster clusterName w = (Done (result, err), w') ∧
    trace w' = trace w ++ setup ++ work ∧
    Forall (λ ev, setupCall (call ev) = true) setup ∧
    Forall (λ ev, groupCall (call ev) = false) work ∧
    Forall (λ ev, ∀ opts, call ev = CallListSecGroup opts →
              ∃ role, secGroupNamesOf openStackCluster clusterName !! role =
                      Some (lo_Name opts)) (setup ++ work) ∧
    match err with
    | Some _ => result = openStackCluster
    | None =>
        Spec result = Spec openStackCluster ∧
        is_Some (ControlPlaneSecurityGroup (Status result)) ∧
        is_Some (WorkerSecurityGroup (Status result)) ∧
        (is_Some (BastionSecurityGroup (Status result)) ↔
         bastionEnabled openStackCluster = true)
    end.
Proof.
  intros Hspec. rewrite ReconcileSecurityGroups_unfold, Hspec. cbn zeta.
  set (names := secGroupNamesOf openStackCluster clusterName).
  assert (Hvalue : ∀ site (l : list (string * string)) name,
            l = rangeMap site names → In name (map snd l) →
            ∃ role, names !! role = Some name).
  { intros site l name -> ((role & v) & <- & Hin)%in_map_iff. exists role.
    by apply (rangeMap_lookup site). }
  rewrite bind_run.
  destruct (ensureLoop_setup openStackCluster (rangeMap 0 names) w)
    as (err0 & evs0 & w0 & -> & Htr0 & Hsetup0 & Hnames0).
  assert (Hnames0' : Forall (λ ev, ∀ opts, call ev = CallListSecGroup opts →
                       ∃ role, names !! role = Some (lo_Name opts)) evs0).
  { eapply Forall_impl; [exact Hnames0|]. simpl. intros ev Hev opts Hcall.
    apply (Hvalue 0%nat _ _ eq_refl). by apply Hev. }
  destruct err0 as [e|].
  { exists openStackCluster, (Some e), evs0, [], w0. rewrite !app_nil_r.
    split; [done|]. split; [done|]. split; [done|]. split; [done|]. done. }
  rewrite bind_run.
  destruct (generateDesiredSecGroups_listing openStackCluster names w0)
    as (desired & err1 & evs1 & w1 & -> & Htr1 & Hpre1 & _ & _ & Hsucc1).
  cbn [fst snd].
  assert (Hevs1 : Forall (λ ev, setupCall (call ev) = true) evs1 ∧
                  Forall (λ ev, ∀ opts, call ev = CallListSecGroup opts →
                            ∃ role, names !! role = Some (lo_Name opts)) evs1).
  { destruct Hpre1 as [k Hk].
    assert (Hall : Forall (λ c, setupCall c = true ∧
                     ∀ opts, c = CallListSecGroup opts →
                       ∃ role, names !! role = Some (lo_Name opts))
                     (map (λ kv, CallListSecGroup {| lo_Name := kv.2 |}) (rangeMap 1 names))).
    { apply List.Forall_map, List.Forall_forall. intros [role v] Hin. simpl.
      split; [done|]. intros opts [= <-]. exists role. by apply (rangeMap_lookup 1). }
    rewrite Hk in Hall. apply Forall_app in Hall as [Hall _].
    apply List.Forall_map in Hall.
    split; (eapply Forall_impl; [exact Hall|]); simpl; tauto. }
  destruct Hevs1 as [Hsetup1 Hnames1].
  destruct err1 as [e|].
  { exists openStackCluster, (Some e), (evs0 ++ evs1), [], w1. rewrite !app_nil_r.
    split; [done|]. split; [by rewrite Htr1, Htr0, <- app_assoc|].
    split; [by apply Forall_app|]. split; [done|]. split; [by apply Forall_app|]. done. }
  destruct (Hsucc1 managed Hspec eq_refl) as (_ & ids & Hgen & _ & _).
  destruct (generateFrom_lookup _ _ _ _ _ Hgen) as (Hdom & Hname & _).
  rewrite bind_run.
  destruct (reconcileLoop_run (rangeMap 2 desired) ∅ w1)
    as (observed' & err2 & evs2 & w2 & -> & Htr2 & Hwork & Hnames2 & Hsucc2).
  cbn [fst snd].
  assert (Hnames2' : Forall (λ ev, ∀ opts, call ev = CallListSecGroup opts →
                       ∃ role, names !! role = Some (lo_Name opts)) evs2).
  { eapply Forall_impl; [exact Hnames2|]. simpl. intros ev Hev opts Hcall.
    specialize (Hev opts Hcall).
    apply in_map_iff in Hev as ((role & g) & Hn & Hin). simpl in Hn.
    apply (rangeMap_lookup 2) in Hin. exists role.
    rewrite <- Hn, (Hname role g Hin).
    assert (Hrole : is_Some (desired !! role)) by done.
    apply Hdom in Hrole.
    assert (is_Some (names !! role)) as [v ->]; [|done].
    unfold names, secGroupNamesOf. cbn zeta.
    destruct Hrole as [->|[->|[-> ->]]].
    - destruct (bastionEnabled openStackCluster);
        by rewrite !lookup_insert_ne, lookup_insert_eq by done.
    - destruct (bastionEnabled openStackCluster);
        by rewrite ?lookup_insert_ne, lookup_insert_eq by done.
    - by rewrite lookup_insert_eq. }
  assert (Htrace : trace w2 = trace w ++ (evs0 ++ evs1) ++ evs2).
  { by rewrite Htr2, Htr1, Htr0, <- !app_assoc. }
  assert (Hall : Forall (λ ev, ∀ opts, call ev = CallListSecGroup opts →
                   ∃ role, names !! role = Some (lo_Name opts)) ((evs0 ++ evs1) ++ evs2)).
  { by repeat (apply Forall_app; split). }
  destruct err2 as [e|].
  { exists openStackCluster, (Some e), (evs0 ++ evs1), evs2, w2.
    split; [done|]. split; [done|]. split; [by apply Forall_app|]. done. }
  eexists _, None, (evs0 ++ evs1), evs2, w2.
  split; [reflexivity|]. split; [done|]. split; [by apply Forall_app|].
  split; [done|]. split; [done|]. cbn [Spec Status ControlPlaneSecurityGroup
    WorkerSecurityGroup BastionSecurityGroup].
  destruct (Hsucc2 eq_refl) as [Hin Hout].
  assert (Hat : ∀ role, is_Some (observedAt observed' role) ↔ is_Some (desired !! role)).
  { intros role. unfold observedAt. split.
    - intros Hsome. destruct (desired !! role) eqn:Hd; [done|].
      rewrite Hout, lookup_empty in Hsome; [by destruct Hsome|].
      intros [? ?]%rangeMap_keys. congruence.
    - intros Hsome. apply (rangeMap_covers 2) in Hsome.
      destruct (Hin role Hsome) as [g ->]. done. }
  split; [done|]. rewrite !Hat, !Hdom.
  split; [tauto|]. split; [tauto|]. split; [|tauto].
  intros [?|[?|[_ ?]]]; done.
Qed.

(** X17.  [ReconcileSecurityGroups] never panics, whatever the provider
    holds and answers.  It never deletes a group; it creates and tags
    groups only before it makes the first rule call; and it lists no name
    other than the names of the groups of the cluster.  When it returns an
    error the cluster object is unchanged; the spec is never changed; and
    for a cluster without managed security groups it returns at once,
    without any call. *)
Theorem ReconcileSecurityGroups_total (openStackCluster : OpenStackCluster)
    (clusterName : string) w :
  ∃ (result : OpenStackCluster) (err : option error) (setup work : list Event) w',
    ReconcileSecurityGroups openStackCluster clusterName w = (Done (result, err), w') ∧
    trace w' = trace w ++ setup ++ work ∧
    Forall (λ ev, setupCall (call ev) = true) setup ∧
    Forall (λ ev, groupCall (call ev) = false) work ∧
    Forall (λ ev, ∀ id, call ev ≠ CallDeleteSecGroup id) (setup ++ work) ∧
    Forall (λ ev, ∀ opts, call ev = CallListSecGroup opts →
              ∃ role, secGroupNamesOf openStackCluster clusterName !! role =
                      Some (lo_Name opts)) (setup ++ work) ∧
    Spec result = Spec openStackCluster ∧
    (∀ e, err = Some e → result = openStackCluster) ∧
    (spec_ManagedSecurityGroups (Spec openStackCluster) = None →
       result = openStackCluster ∧ err = None ∧ w' = w).
Proof.
  destruct (spec_ManagedSecurityGroups (Spec openStackCluster)) as [managed|] eqn:Hspec.
  - destruct (ReconcileSecurityGroups_run openStackCluster managed clusterName w Hspec)
      as (result & err & setup & work & w' & Hrun & Htr & Hsetup & Hwork & Hnames & Hres).
    exists result, err, setup, work, w'.
    split; [done|]. split; [done|]. split; [done|]. split; [done|].
    split; [|split; [done|]].
    + apply Forall_app. split.
      * eapply Forall_impl; [exact Hsetup|]. simpl. intros ev Hev id Hcall.
        by rewrite Hcall in Hev.
      * eapply Forall_impl; [exact Hwork|]. simpl. intros ev Hev id Hcall.
        by rewrite Hcall in Hev.
    + split; [|split; [|done]].
      * destruct err; [by subst|]. by destruct Hres as [? _].
      * by intros e ->.
  - exists openStackCluster, None, [], [], w.
    rewrite ReconcileSecurityGroups_unfold, Hspec. simpl. rewrite app_nil_r.
    by repeat split.
Qed.

(** X18.  When [ReconcileSecurityGroups] returns without error for a
    cluster with managed security groups, the status of the cluster has a
    control-plane group and a worker group, and has a bastion group
    exactly when the bastion is enabled: a bastion group recorded by an
    earlier run is cleared once the bastion is disabled. *)
Theorem ReconcileSecurityGroups_status (openStackCluster result : OpenStackCluster)
    (clusterName : string) w w' :
  is_Some (spec_ManagedSecurityGroups (Spec openStackCluster)) →
  ReconcileSecurityGroups openStackCluster clusterName w = (Done (result, None), w') →
  is_Some (ControlPlaneSecurityGroup (Status result)) ∧
  is_Some (WorkerSecurityGroup (Status result)) ∧
  (is_Some (BastionSecurityGroup (Status result)) ↔
   bastionEnabled openStackCluster = true).
Proof.
  intros [managed Hspec] Hrun.
  destruct (ReconcileSecurityGroups_run openStackCluster managed clusterName w Hspec)
    as (result0 & err & setup & work & w0 & Hrun0 & _ & _ & _ & _ & Hres).
  rewrite Hrun in Hrun0. injection Hrun0 as <- <- <-. by destruct Hres as [_ ?].
Qed.

End ReconcilerExtras.

(** ** Conversion of the security groups of a port, and of the network status *)

Section PortSecurityGroupsFacts.
Context {F5 F : Type} `{!EqDecision F5} `{!FilterLiterals F}.
Variable emptyFilter : F5.
Variable convertFilter : F5 → F → F * option error.

Lemma filtersLoop_app (SecurityGroupFilters : list (SecurityGroupParam F5))
    (SecurityGroups : list F) :
  filtersLoop emptyFilter convertFilter SecurityGroupFilters SecurityGroups =
  (SecurityGroups ++ (filtersLoop emptyFilter convertFilter SecurityGroupFilters []).1,
   (filtersLoop emptyFilter convertFilter SecurityGroupFilters []).2).
Proof.
  revert SecurityGroups.
  induction SecurityGroupFilters as [|sgParam rest IH]; intros SecurityGroups; simpl.
  - by rewrite app_nil_r.
  - destruct (negb (String.eqb (sgp_UUID sgParam) "")).
    { rewrite (IH (SecurityGroups ++ _)), (IH [_]). simpl. by rewrite <- app_assoc. }
    destruct (negb (String.eqb (sgp_Name sgParam) "")).
    { rewrite (IH (SecurityGroups ++ _)), (IH [_]). simpl. by rewrite <- app_assoc. }
    destruct (bool_decide (sgp_Filter sgParam ≠ emptyFilter)); [|by apply IH].
    destruct (convertFilter (sgp_Filter sgParam) zeroFilter) as [outSG [err|]]; [done|].
    rewrite (IH (SecurityGroups ++ _)), (IH [_]). simpl. by rewrite <- app_assoc.
Qed.

Lemma filtersLoop_success (SecurityGroupFilters : list (SecurityGroupParam F5))
    (SecurityGroups : list F) :
  (filtersLoop emptyFilter convertFilter SecurityGroupFilters []).2 = None →
  (filtersLoop emptyFilter convertFilter SecurityGroupFilters []).1 =
    map fst (flat_map (paramFilter emptyFilter convertFilter) SecurityGroupFilters) ∧
  Forall (λ converted, converted.2 = None) (flat_map (paramFilter emptyFilter convertFilter) SecurityGroupFilters).
Proof.
  induction SecurityGroupFilters as [|sgParam rest IH]; simpl; [done|].
  unfold paramFilter at 1 3.
  destruct (negb (String.eqb (sgp_UUID sgParam) "")).
  { rewrite filtersLoop_app. simpl. intros Hok. destruct (IH Hok) as [-> Hall].
    split; [done|]. by constructor. }
  destruct (negb (String.eqb (sgp_Name sgParam) "")).
  { rewrite filtersLoop_app. simpl. intros Hok. destruct (IH Hok) as [-> Hall].
    split; [done|]. by constructor. }
  destruct (bool_decide (sgp_Filter sgParam ≠ emptyFilter)); [|done].
  destruct (convertFilter (sgp_Filter sgParam) zeroFilter) as [outSG [err|]]; [done|].
  rewrite filtersLoop_app. simpl. intros Hok. destruct (IH Hok) as [-> Hall].
  split; [done|]. by constructor.
Qed.

Lemma portOptsSecurityGroups_twice (in_SecurityGroups : list string)
    (in_SecurityGroupFilters : list (SecurityGroupParam F5))
    (out_SecurityGroups : list F) :
  portOptsSecurityGroups emptyFilter convertFilter
    in_SecurityGroups in_SecurityGroupFilters out_SecurityGroups =
  securityGroupsBlock emptyFilter convertFilter
    in_SecurityGroups in_SecurityGroupFilters out_SecurityGroups.
Proof.
  unfold portOptsSecurityGroups, securityGroupsBlock.
  destruct ((0 <? length in_SecurityGroups)%nat ||
            (0 <? length in_SecurityGroupFilters)%nat) eqn:Hany; [|done].
  destruct (filtersLoop emptyFilter convertFilter in_SecurityGroupFilters [])
    as [SecurityGroups [err|]]; done.
Qed.

(** X19.  In [Convert_v1alpha5_PortOpts_To_v1beta1_PortOpts] the block
    that fills [out.SecurityGroups] stands twice; the second copy starts
    from an empty slice again and changes nothing: result and error are
    those of one block.  Without error and with some security group or
    filter given, the result is what the filters contribute, in their
    order, followed by one filter by ID for each plain security group; a
    filter parameter with a UUID contributes that ID alone, one without
    UUID, name and filter contributes nothing; and without any security
    group or filter [out.SecurityGroups] is left as it was. *)
Theorem portOptsSecurityGroups_once (in_SecurityGroups : list string)
    (in_SecurityGroupFilters : list (SecurityGroupParam F5))
    (out_SecurityGroups : list F) :
  let result :=
    portOptsSecurityGroups emptyFilter convertFilter
      in_SecurityGroups in_SecurityGroupFilters out_SecurityGroups in
  result =
    securityGroupsBlock emptyFilter convertFilter
      in_SecurityGroups in_SecurityGroupFilters out_SecurityGroups ∧
  (result.2 = None →
     result.1 =
       if (0 <? length in_SecurityGroups)%nat || (0 <? length in_SecurityGroupFilters)%nat
       then map fst (flat_map (paramFilter emptyFilter convertFilter) in_SecurityGroupFilters) ++
            map (λ id, setID id zeroFilter) in_SecurityGroups
       else out_SecurityGroups) ∧
  (∀ sgParam, sgp_UUID sgParam ≠ "" →
     paramFilter emptyFilter convertFilter sgParam = [(setID (sgp_UUID sgParam) zeroFilter, None)]) ∧
  (∀ sgParam, sgp_UUID sgParam = "" → sgp_Name sgParam = "" →
     sgp_Filter sgParam = emptyFilter → paramFilter emptyFilter convertFilter sgParam = []).
Proof.
  cbn zeta.
  pose proof (portOptsSecurityGroups_twice in_SecurityGroups in_SecurityGroupFilters
                out_SecurityGroups) as Honce.
  split; [done|]. rewrite Honce. split; [|split].
  - unfold securityGroupsBlock.
    destruct ((0 <? length in_SecurityGroups)%nat ||
              (0 <? length in_SecurityGroupFilters)%nat); [|done].
    pose proof (filtersLoop_success in_SecurityGroupFilters []) as Hloop.
    destruct (filtersLoop emptyFilter convertFilter in_SecurityGroupFilters [])
      as [SecurityGroups [err|]]; [done|].
    intros _. simpl in *. by destruct (Hloop eq_refl) as [-> _].
  - intros sgParam Hne. unfold paramFilter.
    apply String.eqb_neq in Hne. by rewrite Hne.
  - intros sgParam Huuid Hname Hfilter. unfold paramFilter.
    rewrite Huuid, Hname, Hfilter. simpl.
    by rewrite bool_decide_false by (intros Hne; by apply Hne).
Qed.

Variable convertFilterBack : F → F5 → F5 * option error.

Lemma paramsLoop_ids (in_SecurityGroups : list F)
    (filled : list (SecurityGroupParam F5)) :
  Forall (λ securityGroup, filterID securityGroup ≠ "") in_SecurityGroups →
  paramsLoop emptyFilter convertFilterBack in_SecurityGroups filled =
  (filled ++ map (λ securityGroup,
                    {| sgp_UUID := filterID securityGroup; sgp_Name := "";
                       sgp_Filter := emptyFilter |}) in_SecurityGroups, None).
Proof.
  revert filled. induction in_SecurityGroups as [|sg rest IH]; intros filled Hall; simpl.
  - by rewrite app_nil_r.
  - apply Forall_cons in Hall as [Hsg Hall]. apply String.eqb_neq in Hsg.
    rewrite Hsg. simpl. rewrite IH by done. by rewrite <- app_assoc.
Qed.

Lemma filtersLoop_ids (params : list (SecurityGroupParam F5)) (SecurityGroups : list F) :
  Forall (λ sgParam, sgp_UUID sgParam ≠ "") params →
  filtersLoop emptyFilter convertFilter params SecurityGroups =
  (SecurityGroups ++ map (λ sgParam, setID (sgp_UUID sgParam) zeroFilter) params, None).
Proof.
  revert SecurityGroups. induction params as [|sgParam rest IH]; intros SecurityGroups Hall;
    simpl.
  - by rewrite app_nil_r.
  - apply Forall_cons in Hall as [Hsg Hall]. apply String.eqb_neq in Hsg.
    rewrite Hsg. simpl. rewrite IH by done. by rewrite <- app_assoc.
Qed.

(** X23.  Security-group filters of a [v1beta1] port that all carry an
    ID are converted to [v1alpha5] without error, and converted back give
    one filter for each, in order, that holds this ID and nothing else:
    whatever else a filter with an ID said is lost on the way. *)
Theorem portOptsSecurityGroups_round_trip (in_SecurityGroups : list F)
    (out_SecurityGroupFilters : list (SecurityGroupParam F5))
    (out_SecurityGroups : list F) :
  Forall (λ securityGroup, filterID securityGroup ≠ "") in_SecurityGroups →
  in_SecurityGroups ≠ [] →
  let down :=
    portOptsSecurityGroupFilters emptyFilter convertFilterBack
      in_SecurityGroups out_SecurityGroupFilters in
  down.2 = None ∧
  length down.1 = length in_SecurityGroups ∧
  portOptsSecurityGroups emptyFilter convertFilter [] down.1 out_SecurityGroups =
  (map (λ securityGroup, setID (filterID securityGroup) zeroFilter) in_SecurityGroups,
   None).
Proof.
  intros Hall Hne. cbn zeta. unfold portOptsSecurityGroupFilters.
  destruct in_SecurityGroups as [|sg rest]; [done|].
  change ((0 <? length (sg :: rest))%nat) with true. cbv iota.
  rewrite paramsLoop_ids by done. cbn [fst snd].
  rewrite app_nil_l.
  set (params := map (λ securityGroup,
                        {| sgp_UUID := filterID securityGroup; sgp_Name := "";
                           sgp_Filter := emptyFilter |}) (sg :: rest)).
  assert (Hparams : Forall (λ sgParam, sgp_UUID sgParam ≠ "") params).
  { apply List.Forall_forall. intros sgParam (sg' & <- & Hin)%in_map_iff. simpl.
    rewrite List.Forall_forall in Hall. by apply Hall. }
  split; [done|]. split; [by apply length_map|].
  rewrite portOptsSecurityGroups_twice. unfold securityGroupsBlock.
  replace ((0 <? length params)%nat) with true by (unfold params; by rewrite length_map).
  rewrite orb_true_r, filtersLoop_ids by done.
  simpl map at 2. rewrite app_nil_r, app_nil_l. f_equal.
  unfold params. by rewrite map_map.
Qed.

End PortSecurityGroupsFacts.

Section NetworkConversionFacts.
Context {Subnet Rest : Type}.

(** X20.  A [v1alpha5] network converted to [v1beta1] and back has its
    ID, name and tags again, and its subnet again if it had one; the
    fields the conversions do not copy are those of the object converted
    into.  The other way round only the first subnet comes back: a
    [v1beta1] network status with two subnets or more does not survive
    the round trip, whatever the objects converted into held. *)
Theorem Network_round_trip :
  (∀ (n out2 : Network Subnet Rest) (out1 : NetworkStatusWithSubnets Subnet),
     let back :=
       Convert_v1beta1_NetworkStatusWithSubnets_To_v1alpha5_Network
         (Convert_v1alpha5_Network_To_v1beta1_NetworkStatusWithSubnets n out1) out2 in
     net_ID back = net_ID n ∧ net_Name back = net_Name n ∧
     net_Tags back = net_Tags n ∧ net_Rest back = net_Rest out2 ∧
     net_Subnet back =
       match net_Subnet n with
       | Some subnet => Some subnet
       | None => match nss_Subnets out1 with
                 | subnet :: _ => Some subnet
                 | [] => net_Subnet out2
                 end
       end) ∧
  (∀ (s out2 : NetworkStatusWithSubnets Subnet) (out1 : Network Subnet Rest),
     let back :=
       Convert_v1alpha5_Network_To_v1beta1_NetworkStatusWithSubnets
         (Convert_v1beta1_NetworkStatusWithSubnets_To_v1alpha5_Network s out1) out2 in
     nss_NetworkStatus back = nss_NetworkStatus s ∧
     nss_Subnets back =
       match nss_Subnets s with
       | subnet :: _ => [subnet]
       | [] => match net_Subnet out1 with
               | Some subnet => [subnet]
               | None => nss_Subnets out2
               end
       end ∧
     (2 ≤ length (nss_Subnets s) → back ≠ s)%nat).
Proof.
  split.
  - intros n out2 out1. cbn zeta.
    unfold Convert_v1beta1_NetworkStatusWithSubnets_To_v1alpha5_Network,
      Convert_v1alpha5_Network_To_v1beta1_NetworkStatusWithSubnets,
      Convert_v1beta1_NetworkStatus_To_v1alpha5_Network,
      Convert_v1alpha5_Network_To_v1beta1_NetworkStatus. simpl.
    destruct (net_Subnet n) as [subnet|]; simpl; [done|].
    destruct (nss_Subnets out1) as [|subnet rest]; simpl; done.
  - intros s out2 out1. cbn zeta.
    assert (Hsub : nss_Subnets
              (Convert_v1alpha5_Network_To_v1beta1_NetworkStatusWithSubnets
                 (Convert_v1beta1_NetworkStatusWithSubnets_To_v1alpha5_Network s out1) out2) =
              match nss_Subnets s with
              | subnet :: _ => [subnet]
              | [] => match net_Subnet out1 with
                      | Some subnet => [subnet]
                      | None => nss_Subnets out2
                      end
              end).
    { unfold Convert_v1beta1_NetworkStatusWithSubnets_To_v1alpha5_Network,
        Convert_v1alpha5_Network_To_v1beta1_NetworkStatusWithSubnets,
        Convert_v1beta1_NetworkStatus_To_v1alpha5_Network. simpl.
      destruct (nss_Subnets s) as [|subnet rest]; simpl; done. }
    split; [|split; [done|]].
    + unfold Convert_v1beta1_NetworkStatusWithSubnets_To_v1alpha5_Network,
        Convert_v1alpha5_Network_To_v1beta1_NetworkStatusWithSubnets,
        Convert_v1beta1_NetworkStatus_To_v1alpha5_Network,
        Convert_v1alpha5_Network_To_v1beta1_NetworkStatus. simpl.
      destruct (0 <? length (nss_Subnets s))%nat; simpl; by destruct (nss_NetworkStatus s).
    + intros Hlen Heq. rewrite Heq in Hsub.
      destruct (nss_Subnets s) as [|s1 [|s2 rest]]; simpl in Hlen; [lia|lia|done].
Qed.

End NetworkConversionFacts.

(** ** The rule value model: what a match decides *)

(** X21.  [Matches] compares all eight fields of the rule: an observed
    rule converted from the wire format is matched by a desired rule
    exactly when its eight fields are those of the desired rule, and is
    not matched, without fault, otherwise; so no observed rule, converted
    or not, is matched by two different desired rules. *)
Theorem Matches_decides_fields :
  (∀ r rule,
     (Matches r (convertOSSecGroupRuleToConfigSecGroupRule rule) = Done true ↔
      wireSpec rule = r) ∧
     (Matches r (convertOSSecGroupRuleToConfigSecGroupRule rule) = Done false ↔
      wireSpec rule ≠ r)) ∧
  (∀ r r' o, Matches r o = Done true → Matches r' o = Done true → r = r').
Proof.
  assert (Hinj : ∀ id r r', statusOf id r = statusOf id r' → r = r').
  { intros id [] [] [=]. by subst. }
  assert (Htrue : ∀ r rule,
            Matches r (convertOSSecGroupRuleToConfigSecGroupRule rule) = Done true ↔
            wireSpec rule = r).
  { intros r rule. rewrite Matches_true, convert_statusOf. simpl. split.
    - by intros ?%Hinj.
    - by intros <-. }
  split.
  - intros r rule. split; [apply Htrue|].
    destruct (Matches_full r _ (full_convert rule)) as [[] Hb]; rewrite Hb.
    + split; [done|]. intros Hne. by apply Htrue in Hb.
    + split; [|done]. intros _ Heq. apply Htrue in Heq. congruence.
  - intros r r' o Hr Hr'. apply Matches_true in Hr, Hr'.
    apply (Hinj (rs_ID o)). congruence.
Qed.

(** X22.  [validateRemoteManagedGroups] returns nil exactly for a
    non-empty list of roles that are all in the table; for an empty list
    it says that the list is required, whatever the table; and otherwise
    its error names the first role of the list that the table does not
    have. *)
Theorem validateRemoteManagedGroups_first_missing (remoteManagedGroups : gmap string string)
    (ruleRemoteManagedGroups : list string) :
  match validateRemoteManagedGroups remoteManagedGroups ruleRemoteManagedGroups with
  | None =>
      ruleRemoteManagedGroups ≠ [] ∧
      Forall (λ group, is_Some (remoteManagedGroups !! group)) ruleRemoteManagedGroups
  | Some e =>
      (ruleRemoteManagedGroups = [] ∧ e = "remoteManagedGroups is required") ∨
      ∃ before group after,
        ruleRemoteManagedGroups = before ++ group :: after ∧
        Forall (λ group, is_Some (remoteManagedGroups !! group)) before ∧
        remoteManagedGroups !! group = None ∧
        e = unresolvedError group
  end.
Proof.
  assert (Hloop : ∀ groups,
    match validateLoop remoteManagedGroups groups with
    | None => Forall (λ group, is_Some (remoteManagedGroups !! group)) groups
    | Some e =>
        ∃ before group after,
          groups = before ++ group :: after ∧
          Forall (λ group, is_Some (remoteManagedGroups !! group)) before ∧
          remoteManagedGroups !! group = None ∧ e = unresolvedError group
    end).
  { induction groups as [|g groups IH]; simpl; [done|].
    destruct (remoteManagedGroups !! g) as [id|] eqn:Hg.
    - destruct (validateLoop remoteManagedGroups groups) as [e|].
      + destruct IH as (before & group & after & -> & Hall & Hnone & ->).
        exists (g :: before), group, after. split; [done|]. split; [|done].
        constructor; [by rewrite Hg|done].
      + constructor; [by rewrite Hg|done].
    - by exists [], g, groups. }
  unfold validateRemoteManagedGroups.
  destruct ruleRemoteManagedGroups as [|g0 groups0]; [by left|].
  change ((length (g0 :: groups0) =? 0)%nat) with false. cbv iota.
  specialize (Hloop (g0 :: groups0)).
  destruct (validateLoop remoteManagedGroups (g0 :: groups0)) as [e|]; [by right|done].
Qed.

(** ** The properties on sample runs *)

(** Runs [m] in [w] and names the result. *)
Ltac run_as m w r w' Hrun :=
  destruct (m w) as [r w'] eqn:Hrun;
  let Hval := fresh "Hval" in
  pose proof Hrun as Hval; vm_compute in Hval;
  injection Hval as <- <-.





Lemma reconcileGroupRules_empty_witness :
  let desired := Sample.desiredOf [] in
  let observed := Sample.statusGroup Sample.rulesAC in
  let w := Mock.start [Sample.wireGroup Sample.rulesAC] 10 in
  ∃ w', reconcileGroupRules desired observed w = (Done (emptyStatus, None), w') ∧
    ∃ rulesToCreate carried wire,
      rulesToCreateOf (gs_ID observed) (gs_Rules observed) (Rules desired) =
        Done (rulesToCreate, carried) ∧
      Forall2 (createdBy (gs_ID observed)) rulesToCreate wire ∧
      let reconciledRules :=
        carried ++ map convertOSSecGroupRuleToConfigSecGroupRule wire in
      gs_Rules emptyStatus = reconciledRules ∧
      (reconciledRules = [] → emptyStatus = emptyStatus) ∧
      (reconciledRules ≠ [] →
         emptyStatus = {| gs_ID := gs_ID observed; gs_Name := gs_Name observed;
                          gs_Rules := reconciledRules |}).
Proof.
  cbn zeta.
  run_as (reconcileGroupRules (Sample.desiredOf []) (Sample.statusGroup Sample.rulesAC))
         (Mock.start [Sample.wireGroup Sample.rulesAC] 10) r w' Hrun.
  eexists. split; [reflexivity|].
  exact (reconcileGroupRules_empty _ _ _ _ _ Hrun).
Defined.

Lemma self_reference_resolved_witness :
  let desired := Sample.desiredOf [Sample.ruleA; Sample.ruleB] in
  let observed := Sample.statusGroup Sample.rulesAC in
  let w := Mock.start [Sample.wireGroup Sample.rulesAC] 10 in
  RemoteGroupID Sample.ruleB = remoteGroupIDSelf ∧
  Matches (resolveSelf "g" Sample.ruleB) (statusOf "any" (Mock.rule "b" 2 "g")) = Done true ∧
  co_RemoteGroupID (createOptsOf "g" (resolveSelf "g" Sample.ruleB)) = "g" ∧
  ∃ st w' evs,
    reconcileGroupRules desired observed w = (Done (st, None), w') ∧
    trace w' = trace w ++ evs ∧
    In (succeeded (CallCreateSecGroupRule
                     (createOptsOf "g" (resolveSelf "g" Sample.ruleB)))) evs.
Proof.
  cbn zeta.
  destruct (self_reference_resolved Sample.ruleB "g" eq_refl) as (Hiff & _ & Hopts & Hpass).
  split; [reflexivity|]. split.
  { apply Hiff. simpl. tauto. }
  split; [exact Hopts|].
  run_as (reconcileGroupRules (Sample.desiredOf [Sample.ruleA; Sample.ruleB])
            (Sample.statusGroup Sample.rulesAC))
         (Mock.start [Sample.wireGroup Sample.rulesAC] 10) r w' Hrun.
  destruct (Hpass _ (Sample.statusGroup Sample.rulesAC) _ _ _ _ eq_refl Hrun)
    as (evs & Htr & _ & Hcreated).
  eexists _, _, evs. split; [reflexivity|]. split; [exact Htr|].
  apply Hcreated; [reflexivity | right; by left | reflexivity].
Defined.

Lemma reconcileGroupRules_ordering_witness :
  let desired := Sample.desiredOf [Sample.ruleA; Sample.ruleB] in
  let observed := Sample.statusGroup Sample.rulesAC in
  let w := Mock.start [Sample.wireGroup Sample.rulesAC] 1 in
  ∃ w' evs,
    reconcileGroupRules desired observed w =
      (Done (emptyStatus, Some "quota exceeded"), w') ∧
    trace w' = trace w ++ evs ∧
    map call evs `prefix_of`
      (deleteCalls ["rc"] ++ createCalls (gs_ID observed) [Sample.ruleB]) ∧
    ∃ before c after,
      deleteCalls ["rc"] ++ createCalls (gs_ID observed) [Sample.ruleB] =
        before ++ c :: after ∧
      evs = map succeeded before ++ [{| call := c; failure := Some "quota exceeded" |}].
Proof.
  cbn zeta.
  run_as (reconcileGroupRules (Sample.desiredOf [Sample.ruleA; Sample.ruleB])
            (Sample.statusGroup Sample.rulesAC))
         (Mock.start [Sample.wireGroup Sample.rulesAC] 1) r w' Hrun.
  destruct (reconcileGroupRules_ordering _ _ _ _ _ _ Hrun)
    as (dels & cs & carried & evs & Hdels & Hcs & Htr & Hpre & _ & Hfail & _).
  vm_compute in Hdels. injection Hdels as <-.
  vm_compute in Hcs. injection Hcs as <- <-.
  destruct (Hfail _ eq_refl) as (_ & Hcut).
  eexists _, evs. split; [reflexivity|]. split; [exact Htr|]. split; [exact Hpre|].
  exact Hcut.
Defined.

Lemma group_lifecycle_idempotent_witness :
  let openStackCluster := Sample.cluster [] in
  let present := Mock.start [Sample.wireGroup []] 10 in
  let missing := Mock.start [] 10 in
  (∃ w1, createSecurityGroupIfNotExists openStackCluster "n" present = (Done None, w1) ∧
         trace w1 = trace present ++ [listEvent "n" None]) ∧
  (∃ w1, deleteSecurityGroup openStackCluster "n" missing = (Done None, w1) ∧
         trace w1 = trace missing ++ [listEvent "n" None]).
Proof.
  cbn zeta. split.
  - run_as (getSecurityGroupByName "n") (Mock.start [Sample.wireGroup []] 10) r w1 Hrun.
    destruct (group_lifecycle_idempotent (Sample.cluster []) _ _ _ _ Hrun)
      as (Htr & Hcreate & _).
    eexists. split; [apply Hcreate; discriminate | exact Htr].
  - run_as (getSecurityGroupByName "n") (Mock.start [] 10) r w1 Hrun.
    destruct (group_lifecycle_idempotent (Sample.cluster []) _ _ _ _ Hrun)
      as (Htr & _ & Hdelete).
    eexists. split; [apply Hdelete; reflexivity | exact Htr].
Defined.


Lemma unresolved_role_aborts_witness :
  let templates := [Sample.template None [bastionSuffix]] in
  let openStackCluster := Sample.cluster templates in
  let w := Mock.start Sample.clusterGroups 10 in
  (∃ e, getAllNodesRules Sample.table templates = ([], Some e) ∧ configError e) ∧
  (∃ e evs w',
     generateDesiredSecGroups openStackCluster Sample.names w = (Done (∅, Some e), w') ∧
     trace w' = trace w ++ evs ∧
     Forall (λ ev, mutating (call ev) = false) evs ∧
     (Forall (λ ev, failure ev = None) evs → configError e ∨ ambiguousError e)) ∧
  (∃ e evs w',
     ReconcileSecurityGroups openStackCluster "c" w =
       (Done (openStackCluster, Some e), w') ∧
     trace w' = trace w ++ evs ∧
     Forall (λ ev, ruleCall (call ev) = false) evs).
Proof.
  cbn zeta.
  destruct (unresolved_role_aborts (C := Mock.provider)) as (Hpure & Hgen & Htop).
  split; [|split].
  - apply Hpure. left. exists bastionSuffix. split; [by left | reflexivity].
  - eapply Hgen; [reflexivity|]. left. exists bastionSuffix.
    split; [by left|]. left. reflexivity.
  - eapply Htop; [reflexivity|]. left. exists bastionSuffix.
    split; [by left|]. unfold resolvable. intros [H|[H|[_ H]]]; discriminate.
Defined.


(** A template with a direct remote group and no role is not expanded:
    the validation rejects it before the branch that would append its
    rule is reached. *)
Example getAllNodesRules_direct_only :
  getAllNodesRules Sample.table [Sample.template (Some "sg-1") []] =
  ([], Some "remoteManagedGroups is required").
Proof. reflexivity. Qed.


(** C10 as stated fails on an observed rule whose description differs
    from the desired one: its other pointers are nil and are never read. *)
Lemma Matches_nil_field_counterexample :
  rs_EtherType Sample.halfRule = None ∧
  rs_RemoteGroupID Sample.halfRule = None ∧
  Matches Sample.ruleA Sample.halfRule = Done false.
Proof. repeat split. Qed.

Lemma Matches_partial_fetch_safe_witness :
  let w := Mock.start [Sample.wireGroup Sample.rulesAC] 10 in
  Matches Sample.ruleA emptyRuleStatus = Fault ∧
  (∃ b : bool,
     Matches Sample.ruleA
       (convertOSSecGroupRuleToConfigSecGroupRule (Mock.observedRule "rc" Sample.ruleC "g"))
     = Done b) ∧
  ∃ g err w', getSecurityGroupByName "n" w = (Done (Some g, err), w') ∧
    Forall full (gs_Rules g) ∧
    ∃ st err' w3,
      reconcileGroupRules (Sample.desiredOf [Sample.ruleA]) g w' = (Done (st, err'), w3).
Proof.
  cbn zeta.
  destruct (Matches_partial_fetch_safe (C := Mock.provider)) as (Hfault & _ & Hreturns & Hfetch).
  split; [apply Hfault; by left|]. split; [apply Hreturns|].
  destruct (Hfetch "n" (Mock.start [Sample.wireGroup Sample.rulesAC] 10))
    as (g & err & w' & Hrun & Hfull & Hpass).
  exists g, err, w'. split; [exact Hrun|]. split; [exact Hfull|]. apply Hpass.
Defined.

(** The two scenarios of the specification. *)
Example scenario_self_created :
  let desired := Sample.desiredOf [Sample.ruleB] in
  let observed := Sample.statusGroup [] in
  let run := reconcileGroupRules desired observed (Mock.start [Sample.wireGroup []] 10) in
  run.1 = Done ({| gs_ID := "g"; gs_Name := "n";
                   gs_Rules := [statusOf "rule-" (Mock.rule "b" 2 "g")] |}, None) ∧
  trace run.2 =
    [succeeded (CallCreateSecGroupRule (createOptsOf "g" (Mock.rule "b" 2 "g")))].
Proof. split; reflexivity. Qed.

Example scenario_one_delete_one_create :
  let desired := Sample.desiredOf [Sample.ruleA; Sample.ruleB] in
  let observed := Sample.statusGroup Sample.rulesAC in
  let run := reconcileGroupRules desired observed
               (Mock.start [Sample.wireGroup Sample.rulesAC] 10) in
  run.1 = Done ({| gs_ID := "g"; gs_Name := "n";
                   gs_Rules := [statusOf "ra" Sample.ruleA;
                                statusOf "rule-" (Mock.rule "b" 2 "g")] |}, None) ∧
  trace run.2 =
    [succeeded (CallDeleteSecGroupRule "rc");
     succeeded (CallCreateSecGroupRule (createOptsOf "g" (Mock.rule "b" 2 "g")))].
Proof. split; reflexivity. Qed.

(** ** The further properties on sample runs *)

Lemma BindingProfile_of_map_witness :
  let m : gmap string string :=
    <["trusted" := trueString]>
      (<["capabilities" := switchdevCapabilities]> (<["vnic" := "direct"]> ∅)) in
  Convert_Map_string_To_Interface_To_v1beta1_BindingProfile (map_to_list m) emptyProfile =
    {| OVSHWOffload := Some true; TrustedVF := Some true |} ∧
  portOptsProfile m emptyProfile =
    Convert_Map_string_To_Interface_To_v1beta1_BindingProfile (map_to_list m) emptyProfile.
Proof.
  cbn zeta.
  exact (BindingProfile_of_map _ (map_to_list _) emptyProfile (reflexivity _)).
Defined.

Lemma BindingProfile_round_trip_witness :
  let p := {| OVSHWOffload := Some true; TrustedVF := Some false |} in
  Convert_Map_string_To_Interface_To_v1beta1_BindingProfile
    (map_to_list (Convert_v1beta1_BindingProfile_To_Map_string_To_Interface p ∅))
    emptyProfile =
  {| OVSHWOffload := Some true; TrustedVF := None |}.
Proof.
  cbn zeta.
  exact (BindingProfile_round_trip
           {| OVSHWOffload := Some true; TrustedVF := Some false |}
           (map_to_list _) (reflexivity _)).
Defined.

Lemma GetSecurityGroups_explicit_ids_witness :
  let c := MockFilter.running [] in
  @GetSecurityGroups Mock.provider MockFilter.lookup
    [MockFilter.byID "a"; MockFilter.byID "b"; MockFilter.byID "a"] c =
  ((["a"; "b"], None), c).
Proof.
  cbn zeta.
  apply (@GetSecurityGroups_explicit_ids Mock.provider MockFilter.lookup
           [MockFilter.byID "a"; MockFilter.byID "b"; MockFilter.byID "a"]
           (MockFilter.running [])).
  repeat constructor; discriminate.
Defined.

Lemma GetSecurityGroups_error_witness :
  let c := MockFilter.running [MockFilter.group "id-web" "web"] in
  let params := [MockFilter.byID "a"; MockFilter.byName "db"] in
  (@GetSecurityGroups Mock.provider MockFilter.lookup params c).1.2 = Some (notFoundError "db") ∧
  (@GetSecurityGroups Mock.provider MockFilter.lookup params c).1.1 = [] ∧
  ∃ (sg : MockFilter.filter) (c0 : Mock.provider),
    sg ∈ params ∧ MockFilter.ID sg = "" ∧
    ((MockFilter.listWith (@listOptsOf Mock.provider MockFilter.lookup sg) c0).1 =
       Failure (notFoundError "db") ∨
     (MockFilter.listWith (@listOptsOf Mock.provider MockFilter.lookup sg) c0).1 = Success [] ∧
     notFoundError "db" = notFoundError (MockFilter.Name sg)).
Proof.
  cbn zeta. split; [reflexivity|].
  apply (@GetSecurityGroups_error Mock.provider MockFilter.lookup
           [MockFilter.byID "a"; MockFilter.byName "db"]
           (MockFilter.running [MockFilter.group "id-web" "web"])).
  reflexivity.
Defined.

Lemma reconcileGroupRules_minimal_calls_witness :
  let desired := Sample.desiredOf [Sample.ruleA; Sample.ruleB] in
  let observed := Sample.statusGroup Sample.rulesAC in
  let w := Mock.start [Sample.wireGroup Sample.rulesAC] 10 in
  ∃ st err w' evs,
    reconcileGroupRules desired observed w = (Done (st, err), w') ∧
    trace w' = trace w ++ evs ∧
    Forall (λ ev, ruleCall (call ev) = true) evs ∧
    (∀ ev id, In ev evs → call ev = CallDeleteSecGroupRule id →
       ∃ o, In o (gs_Rules observed) ∧ rs_ID o = id ∧
         Forall (λ d, Matches (resolveSelf (gs_ID observed) d) o = Done false)
           (Rules desired)) ∧
    (∀ ev opts, In ev evs → call ev = CallCreateSecGroupRule opts →
       ∃ d, In d (Rules desired) ∧
         opts = createOptsOf (gs_ID observed) (resolveSelf (gs_ID observed) d) ∧
         Forall (λ o, Matches (resolveSelf (gs_ID observed) d) o = Done false)
           (gs_Rules observed)) ∧
    (length evs ≤ length (gs_Rules observed) + length (Rules desired))%nat.
Proof.
  cbn zeta.
  run_as (reconcileGroupRules (Sample.desiredOf [Sample.ruleA; Sample.ruleB])
            (Sample.statusGroup Sample.rulesAC))
         (Mock.start [Sample.wireGroup Sample.rulesAC] 10) r w' Hrun.
  destruct (reconcileGroupRules_minimal_calls _ _ _ _ _ _ Hrun) as (evs & Hevs).
  eexists _, _, _, evs. split; [reflexivity|]. exact Hevs.
Defined.

Lemma reconcileGroupRules_size_witness :
  let desired := Sample.desiredOf [Sample.ruleA; Sample.ruleA] in
  let observed := Sample.statusGroup Sample.rulesAC in
  let w := Mock.start [Sample.wireGroup Sample.rulesAC] 10 in
  ∃ st w',
    reconcileGroupRules desired observed w = (Done (st, None), w') ∧
    length (gs_Rules st) = 2%nat ∧
    (Rules desired ≠ [] → gs_ID st = gs_ID observed ∧ gs_Name st = gs_Name observed).
Proof.
  cbn zeta.
  run_as (reconcileGroupRules (Sample.desiredOf [Sample.ruleA; Sample.ruleA])
            (Sample.statusGroup Sample.rulesAC))
         (Mock.start [Sample.wireGroup Sample.rulesAC] 10) r w' Hrun.
  destruct (reconcileGroupRules_size _ _ _ _ _ Hrun) as (Hlen & Hid & _).
  eexists _, _. split; [reflexivity|]. split; [exact Hlen | exact Hid].
Defined.

Lemma generateDesiredSecGroups_groups_witness :
  let openStackCluster := Sample.cluster [] in
  let w := Mock.start Sample.clusterGroups 10 in
  ∃ desired w',
    generateDesiredSecGroups openStackCluster Sample.names w = (Done (desired, None), w') ∧
    (∀ k, is_Some (desired !! k) ↔
          k = controlPlaneSuffix ∨ k = workerSuffix ∨
          (k = bastionSuffix ∧ bastionEnabled openStackCluster = true)) ∧
    (∀ k g, desired !! k = Some g → Name g = default "" (Sample.names !! k)) ∧
    ∃ ids,
      tableAgrees ids ∧
      ∀ role, is_Some (remoteManagedGroups ids !! role) ↔
              managedRole role ∧ is_Some (Sample.names !! role).
Proof.
  cbn zeta.
  set (run := generateDesiredSecGroups (Sample.cluster []) Sample.names
                (Mock.start Sample.clusterGroups 10)).
  set (desired := match run.1 with Done generated => generated.1 | Fault => ∅ end).
  assert (Hrun : run = (Done (desired, None), run.2)) by reflexivity.
  destruct (generateDesiredSecGroups_groups (Sample.cluster []) _ _ _ _ _ eq_refl Hrun)
    as (Hdom & Hname & _ & ids & _ & Hagree & Htable).
  exists desired, run.2. split; [exact Hrun|]. split; [exact Hdom|].
  split; [exact Hname|]. exists ids. exact (conj Hagree Htable).
Defined.

Lemma ReconcileSecurityGroups_status_witness :
  let openStackCluster := Sample.cluster [] in
  let w := Mock.start [] 10 in
  ∃ result w',
    ReconcileSecurityGroups openStackCluster "c" w = (Done (result, None), w') ∧
    is_Some (ControlPlaneSecurityGroup (Status result)) ∧
    is_Some (WorkerSecurityGroup (Status result)) ∧
    (is_Some (BastionSecurityGroup (Status result)) ↔
     bastionEnabled openStackCluster = true).
Proof.
  cbn zeta.
  set (run := ReconcileSecurityGroups (Sample.cluster []) "c" (Mock.start [] 10)).
  set (result := match run.1 with
                 | Done reconciled => reconciled.1
                 | Fault => Sample.cluster []
                 end).
  assert (Hrun : run = (Done (result, None), run.2)) by (vm_compute; reflexivity).
  exists result, run.2. split; [exact Hrun|].
  exact (ReconcileSecurityGroups_status (Sample.cluster []) _ "c" _ _
           (ex_intro _ _ eq_refl) Hrun).
Defined.

Lemma portOptsSecurityGroups_round_trip_witness :
  let convertFilter (filter : string) (out : string * string) := ((out.1, filter), @None error) in
  let convertFilterBack (filter : string * string) (out : string) := (filter.2, @None error) in
  let down := portOptsSecurityGroupFilters "" convertFilterBack
                [("id-1", "web"); ("id-2", "")] [] in
  down.2 = None ∧
  length down.1 = 2%nat ∧
  portOptsSecurityGroups "" convertFilter [] down.1 [] = ([("id-1", ""); ("id-2", "")], None).
Proof.
  cbn zeta.
  refine (portOptsSecurityGroups_round_trip ""
            (λ (filter : string) (out : string * string), ((out.1, filter), None))
            (λ (filter : string * string) (out : string), (filter.2, None))
            [("id-1", "web"); ("id-2", "")] [] [] _ _).
  - repeat constructor; discriminate.
  - discriminate.
Defined.

(** A cluster reconciled from an empty provider: the two groups are
    created and tagged, and then each gets its four rules; no call fails. *)
Example scenario_first_reconcile :
  let run := ReconcileSecurityGroups (Sample.cluster []) "c" (Mock.start [] 10) in
  map (λ g, (sg_Name g, length (sg_Rules g))) (Mock.groups (cloud run.2)) =
    [(getSecWorkerGroupName "c", 4%nat); (getSecControlPlaneGroupName "c", 4%nat)] ∧
  length (filter (λ ev, groupCall (call ev)) (trace run.2)) = 4%nat ∧
  Forall (λ ev, failure ev = None) (trace run.2).
Proof. cbn zeta. split; [|split]; vm_compute; repeat constructor. Qed.
